(** * entraid-task-agent: command parser, Graph client and orchestrator

    A shallow embedding of [utils/openai_service.py], [utils/graph_service.py]
    and [app_orchestrator.py], followed by the properties of the command
    interpretation and execution pipeline.

    Python objects that travel through the pipeline are the results of JSON
    decoding (the model's reply, the Graph responses), so one type of
    JSON-shaped Python values covers them.  Exceptions are values of an error
    type, and effectful code lives in a state-and-exception monad over an
    explicit world. *)

From Stdlib Require Import ZArith List String Ascii Bool Lia DecimalString.
From stdpp Require Import base list strings.

Open Scope Z_scope.
Set Warnings "-register-all".

(* ===================================================================== *)
(** * Part I: the model                                                  *)
(* ===================================================================== *)

(** ** Python values *)

(** [None], [bool], [int], [str], [list] and [dict] with [str] keys.  A
    character of a [str] is an [ascii] (code points below 256); numbers with
    a fractional part are outside the model.  A [PDict] keeps the insertion
    order of its items, and is read as the mapping it denotes: the first
    binding of a key is the binding. *)
Inductive value : Type :=
| PNone
| PBool (b : bool)
| PInt (n : Z)
| PStr (s : string)
| PList (xs : list value)
| PDict (kvs : list (string * value)).

Definition items := list (string * value).

Fixpoint dict_lookup (k : string) (kvs : items) : option value :=
  match kvs with
  | [] => None
  | (k', v) :: rest => if String.eqb k k' then Some v else dict_lookup k rest
  end.

Definition dict_has (k : string) (kvs : items) : bool :=
  match dict_lookup k kvs with Some _ => true | None => false end.

(** [d[k] = v] on a key that is present: the binding is replaced in place. *)
Fixpoint dict_replace (k : string) (v : value) (kvs : items) : items :=
  match kvs with
  | [] => []
  | (k', v') :: rest =>
      if String.eqb k k' then (k', v) :: rest
      else (k', v') :: dict_replace k v rest
  end.

Definition str_mem (k : string) (ks : list string) : bool :=
  existsb (String.eqb k) ks.

(** Element-wise comparison of two lists. *)
Fixpoint all_eq_by (eq : value -> value -> bool) (xs ys : list value) : bool :=
  match xs, ys with
  | [], [] => true
  | x :: xs', y :: ys' => eq x y && all_eq_by eq xs' ys'
  | _, _ => false
  end.

(** Every key bound in [l], read at its first binding, is bound in [kws]
    to an equal value; [seen] holds the keys already met. *)
Fixpoint bound_eq_by (eq : value -> value -> bool) (kws : items)
    (seen : list string) (l : items) : bool :=
  match l with
  | [] => true
  | (k, v) :: rest =>
      (if str_mem k seen then true
       else match dict_lookup k kws with
            | Some w => eq v w
            | None => false
            end)
      && bound_eq_by eq kws (k :: seen) rest
  end.

(** Python's [==] on these values: [bool] is a subtype of [int]
    ([True == 1]), lists compare element by element, dicts compare as
    mappings whatever the order of their items. *)
Fixpoint py_eq (a b : value) {struct a} : bool :=
  match a, b with
  | PNone, PNone => true
  | PBool x, PBool y => Bool.eqb x y
  | PBool x, PInt n => Z.eqb (Z.b2z x) n
  | PInt n, PBool x => Z.eqb n (Z.b2z x)
  | PInt m, PInt n => Z.eqb m n
  | PStr s, PStr t => String.eqb s t
  | PList xs, PList ys => all_eq_by py_eq xs ys
  | PDict kvs, PDict kws =>
      bound_eq_by py_eq kws [] kvs
      && forallb (fun kw => dict_has (fst kw) kvs) kws
  | _, _ => false
  end.

(** Truth value testing, as [if x:] and [not x] do it. *)
Definition truthy (v : value) : bool :=
  match v with
  | PNone => false
  | PBool b => b
  | PInt n => negb (Z.eqb n 0)
  | PStr s => negb (String.eqb s "")
  | PList xs => match xs with [] => false | _ => true end
  | PDict kvs => match kvs with [] => false | _ => true end
  end.

Definition type_name (v : value) : string :=
  match v with
  | PNone => "NoneType"
  | PBool _ => "bool"
  | PInt _ => "int"
  | PStr _ => "str"
  | PList _ => "list"
  | PDict _ => "dict"
  end.

(** ** Strings *)

Definition str_of_Z (n : Z) : string := NilZero.string_of_int (Z.to_int n).

Definition chr (c : ascii) : string := String c EmptyString.

Fixpoint str_concat (l : list string) : string :=
  match l with
  | [] => ""
  | s :: rest => s +:+ str_concat rest
  end.

Fixpoint str_join (sep : string) (l : list string) : string :=
  match l with
  | [] => ""
  | [s] => s
  | s :: rest => s +:+ sep +:+ str_join sep rest
  end.

(** [s.find(c)] for a one-character [c]: the lowest index, or -1. *)
Fixpoint find_from (c : ascii) (s : string) (i : Z) : Z :=
  match s with
  | EmptyString => -1
  | String a rest => if Ascii.eqb a c then i else find_from c rest (i + 1)
  end.

Definition str_find (s : string) (c : ascii) : Z := find_from c s 0.

(** [s.rfind(c)]: the highest index, or -1. *)
Fixpoint rfind_from (c : ascii) (s : string) (i : Z) : Z :=
  match s with
  | EmptyString => -1
  | String a rest =>
      let r := rfind_from c rest (i + 1) in
      if 0 <=? r then r else if Ascii.eqb a c then i else -1
  end.

Definition str_rfind (s : string) (c : ascii) : Z := rfind_from c s 0.

(** [s[a:b]] for [0 <= a <= b <= len(s)], the only slices the code takes. *)
Definition str_slice (s : string) (a b : Z) : string :=
  String.substring (Z.to_nat a) (Z.to_nat (b - a)) s.

(** [str.isspace] on one character below 256. *)
Definition is_space (c : ascii) : bool :=
  let n := Z.of_nat (nat_of_ascii c) in
  ((9 <=? n) && (n <=? 13)) || ((28 <=? n) && (n <=? 32))
  || (n =? 133) || (n =? 160).

Fixpoint lstrip (s : string) : string :=
  match s with
  | EmptyString => EmptyString
  | String a rest => if is_space a then lstrip rest else s
  end.

Fixpoint rstrip (s : string) : string :=
  match s with
  | EmptyString => EmptyString
  | String a rest =>
      match rstrip rest with
      | EmptyString => if is_space a then EmptyString else chr a
      | r => String a r
      end
  end.

(** [s.strip()] *)
Definition str_strip (s : string) : string := rstrip (lstrip s).

(** [s.split(c)] for a one-character separator: never empty. *)
Fixpoint str_split (c : ascii) (s : string) : list string :=
  match s with
  | EmptyString => [EmptyString]
  | String a rest =>
      if Ascii.eqb a c then EmptyString :: str_split c rest
      else match str_split c rest with
           | [] => [chr a]
           | seg :: segs => String a seg :: segs
           end
  end.

Fixpoint last_segment_of (segs : list string) : string :=
  match segs with
  | [] => ""
  | [s] => s
  | _ :: rest => last_segment_of rest
  end.

(** The last dot-separated segment of a name. *)
Definition last_segment (s : string) : string :=
  last_segment_of (str_split "." s).

(** [t in s] on strings. *)
Definition str_contains (s t : string) : bool :=
  match String.index 0 t s with Some _ => true | None => false end.

Definition chars_of (s : string) : list string :=
  map chr (list_ascii_of_string s).

(** ** [repr] and [str] *)

Definition hex_digit (n : N) : ascii :=
  match n with
  | 0%N => "0" | 1%N => "1" | 2%N => "2" | 3%N => "3" | 4%N => "4"
  | 5%N => "5" | 6%N => "6" | 7%N => "7" | 8%N => "8" | 9%N => "9"
  | 10%N => "a" | 11%N => "b" | 12%N => "c" | 13%N => "d" | 14%N => "e"
  | _ => "f"
  end%char.

Definition is_printable (c : ascii) : bool :=
  let n := N_of_ascii c in
  ((32 <=? n) && (n <? 127))%N || ((161 <=? n) && negb (n =? 173))%N.

Definition repr_char (quote c : ascii) : string :=
  if Ascii.eqb c "\" then "\\"
  else if Ascii.eqb c quote then String "\" (chr c)
  else if Ascii.eqb c "009" then "\t"
  else if Ascii.eqb c "010" then "\n"
  else if Ascii.eqb c "013" then "\r"
  else if is_printable c then chr c
  else let n := N_of_ascii c in
       String "\" (String "x" (String (hex_digit (n / 16)) (chr (hex_digit (n mod 16))))).

Definition repr_str (s : string) : string :=
  let quote : ascii :=
    if str_contains s "'" && negb (str_contains s (chr "034"%char))
    then "034"%char else "'"%char in
  chr quote +:+ str_concat (map (repr_char quote) (list_ascii_of_string s)) +:+ chr quote.

Fixpoint py_repr (v : value) : string :=
  match v with
  | PNone => "None"
  | PBool true => "True"
  | PBool false => "False"
  | PInt n => str_of_Z n
  | PStr s => repr_str s
  | PList xs => "[" +:+ str_join ", " (map py_repr xs) +:+ "]"
  | PDict kvs =>
      "{" +:+ str_join ", "
                (map (fun kv => repr_str (fst kv) +:+ ": " +:+ py_repr (snd kv)) kvs)
          +:+ "}"
  end.

(** [str(v)], also what an f-string field [{v}] prints. *)
Definition py_str (v : value) : string :=
  match v with
  | PStr s => s
  | _ => py_repr v
  end.

(** ** Exceptions and results *)

(** The instances of [Exception] that the code meets.  [ExternalError] is
    any exception raised inside a library call (the HTTP transport, the
    completion endpoint, the credential provider), with its [str];
    [OverflowError] is what the arithmetic of [datetime] raises. *)
Inductive exn : Type :=
| KeyError (key : value)
| TypeError (msg : string)
| AttributeError (msg : string)
| IndexError (msg : string)
| ValueError (msg : string)
| JSONDecodeError (msg : string)
| HTTPError (msg : string)
| ExternalError (msg : string)
| OverflowError (msg : string).

(** [str(e)] *)
Definition str_exn (e : exn) : string :=
  match e with
  | KeyError k => py_repr k
  | TypeError m | AttributeError m | IndexError m | ValueError m
  | JSONDecodeError m | HTTPError m | ExternalError m | OverflowError m => m
  end.

Inductive outcome (A : Type) : Type :=
| Return (a : A)
| Raise (e : exn).
Arguments Return {A} a.
Arguments Raise {A} e.

Definition obind {A B : Type} (o : outcome A) (k : A -> outcome B) : outcome B :=
  match o with
  | Return a => k a
  | Raise e => Raise e
  end.

Notation "'let?' x ':=' e 'in' k" := (obind e (fun x => k))
  (at level 10, x name, e at level 100, k at level 200).

(** ** Operations on values that may raise *)

Definition not_subscriptable (v : value) : exn :=
  TypeError ("'" +:+ type_name v +:+ "' object is not subscriptable").

Definition no_attribute (v : value) (attr : string) : exn :=
  AttributeError ("'" +:+ type_name v +:+ "' object has no attribute '" +:+ attr +:+ "'").

(** A position [i] of a sequence of length [len], negative positions
    counting from the end. *)
Definition seq_index (i : Z) (len : nat) : option nat :=
  let n := Z.of_nat len in
  if (0 <=? i) && (i <? n) then Some (Z.to_nat i)
  else if (i <? 0) && (0 <=? i + n) then Some (Z.to_nat (i + n))
  else None.

Definition as_index (key : value) : option Z :=
  match key with
  | PInt i => Some i
  | PBool b => Some (Z.b2z b)
  | _ => None
  end.

(** [obj[key]] *)
Definition getitem (obj key : value) : outcome value :=
  match obj with
  | PDict kvs =>
      match key with
      | PStr k =>
          match dict_lookup k kvs with
          | Some v => Return v
          | None => Raise (KeyError key)
          end
      | PList _ | PDict _ =>
          Raise (TypeError ("unhashable type: '" +:+ type_name key +:+ "'"))
      | _ => Raise (KeyError key)
      end
  | PList xs =>
      match as_index key with
      | Some i =>
          match seq_index i (length xs) with
          | Some n =>
              match xs !! n with
              | Some v => Return v
              | None => Raise (IndexError "list index out of range")
              end
          | None => Raise (IndexError "list index out of range")
          end
      | None =>
          Raise (TypeError ("list indices must be integers or slices, not "
                             +:+ type_name key))
      end
  | PStr s =>
      match as_index key with
      | Some i =>
          match seq_index i (String.length s) with
          | Some n =>
              match String.get n s with
              | Some c => Return (PStr (chr c))
              | None => Raise (IndexError "string index out of range")
              end
          | None => Raise (IndexError "string index out of range")
          end
      | None => Raise (TypeError "string indices must be integers")
      end
  | _ => Raise (not_subscriptable obj)
  end.

(** [obj.get(k, default)] *)
Definition dict_get (obj : value) (k : string) (default : value) : outcome value :=
  match obj with
  | PDict kvs =>
      match dict_lookup k kvs with
      | Some v => Return v
      | None => Return default
      end
  | _ => Raise (no_attribute obj "get")
  end.

(** The elements that [for x in obj] visits. *)
Definition py_iter (obj : value) : outcome (list value) :=
  match obj with
  | PList xs => Return xs
  | PStr s => Return (map PStr (chars_of s))
  | PDict kvs => Return (map (fun kv => PStr (fst kv)) kvs)
  | _ => Raise (TypeError ("'" +:+ type_name obj +:+ "' object is not iterable"))
  end.

(** [x in obj] *)
Definition py_contains (x obj : value) : outcome bool :=
  match obj with
  | PList xs => Return (existsb (fun e => py_eq e x) xs)
  | PStr s =>
      match x with
      | PStr t => Return (str_contains s t)
      | _ => Raise (TypeError ("'in <string>' requires string as left operand, not "
                                +:+ type_name x))
      end
  | PDict kvs =>
      match x with
      | PStr k => Return (dict_has k kvs)
      | PList _ | PDict _ =>
          Raise (TypeError ("unhashable type: '" +:+ type_name x +:+ "'"))
      | _ => Return false
      end
  | _ => Raise (TypeError ("argument of type '" +:+ type_name obj +:+ "' is not iterable"))
  end.

(** [obj.split(c)] for a one-character separator *)
Definition py_split (obj : value) (c : ascii) : outcome value :=
  match obj with
  | PStr s => Return (PList (map PStr (str_split c s)))
  | _ => Raise (no_attribute obj "split")
  end.

(** [obj.append(x)], as the list that [obj] is afterwards *)
Definition py_append (obj x : value) : outcome value :=
  match obj with
  | PList xs => Return (PList (xs ++ [x]))
  | _ => Raise (no_attribute obj "append")
  end.

(** [next((x for x in xs if cond(x)), None)]: the first element that
    satisfies the condition with its position; the condition is evaluated
    element by element and what it raises ends the search. *)
Fixpoint find_first (cond : value -> outcome bool) (xs : list value) (i : nat)
  : outcome (option (nat * value)) :=
  match xs with
  | [] => Return None
  | x :: rest =>
      let? b := cond x in
      if b then Return (Some (i, x)) else find_first cond rest (S i)
  end.

(** [any(cond(x) for x in xs)] *)
Definition py_any (cond : value -> outcome bool) (xs : list value) : outcome bool :=
  let? r := find_first cond xs 0 in
  Return (match r with Some _ => true | None => false end).

(** ** The state-and-exception monad *)

(** A computation runs in a world, leaves a world, and either returns or
    raises; what it did to the world before raising stays done. *)
Definition M (W A : Type) : Type := W -> outcome A * W.

Definition ret {W A : Type} (a : A) : M W A := fun w => (Return a, w).

Definition raise {W A : Type} (e : exn) : M W A := fun w => (Raise e, w).

Definition bind {W A B : Type} (m : M W A) (k : A -> M W B) : M W B :=
  fun w =>
    match m w with
    | (Return a, w') => k a w'
    | (Raise e, w') => (Raise e, w')
    end.

(** [try: body / except Exception as e: handler(e)] *)
Definition try_except {W A : Type} (body : M W A) (handler : exn -> M W A) : M W A :=
  fun w =>
    match body w with
    | (Return a, w') => (Return a, w')
    | (Raise e, w') => handler e w'
    end.

Definition lift {W A : Type} (o : outcome A) : M W A := fun w => (o, w).

Notation "'let!' x ':=' e 'in' k" := (bind e (fun x => k))
  (at level 10, x name, e at level 100, k at level 200).

(** ** The world outside the repository *)

(** What [credential.get_token] returns, an [AccessToken] of
    [azure.core]: the code reads [.token] and [.expires_on].  For the
    library [expires_on] is the instant at which the token expires, in
    seconds since 1970-01-01T00:00:00. *)
Record token_response : Type := {
  tr_token : string;
  tr_expires_on : Z
}.

(** The arguments of one [requests.request] call; [data] and [params] are
    [None] when the caller gives none. *)
Record http_request : Type := {
  rq_method : string;
  rq_url : string;
  rq_headers : list (string * string);
  rq_json : value;
  rq_params : value
}.

(** What the code looks at in a response: the status with its reason
    phrase, and what [response.json()] gives. *)
Record http_response : Type := {
  status_code : Z;
  reason : string;
  json_body : outcome value
}.

(** The libraries and services the code calls, over a state [Env] of their
    own.  Instants are [datetime] values, in microseconds since
    [datetime.min], which is 0001-01-01T00:00:00.  The completion call stands for
    [openai.ChatCompletion.create] with the fixed engine, system message,
    [temperature=0.0], [max_tokens=800], [n=1], and gives
    [choices[0].message.content]. *)
Class External (Env : Type) : Type := {
  datetime_now : Env -> Z * Env;
  datetime_isoformat : Z -> string;
  credential_get_token : string -> Env -> outcome token_response * Env;
  requests_request : http_request -> Env -> outcome http_response * Env;
  chat_completion : string -> Env -> outcome value * Env;
  json_loads : string -> outcome value
}.

(** The calls that leave the process, in the order they were made. *)
Inductive event : Type :=
| EvGetToken (scope : string)
| EvRequest (rq : http_request)
| EvCompletion (user_text : string).

(** The state the services run in: the outside, the two fields of the
    [GraphService] object, and the record of outgoing calls. *)
Record world (Env : Type) : Type := {
  env : Env;
  token : option string;
  token_expires : option Z;
  trace : list event
}.
Arguments env {Env} w.
Arguments token {Env} w.
Arguments token_expires {Env} w.
Arguments trace {Env} w.
Arguments Build_world {Env} env token token_expires trace.

Section Primitives.
Context {Env : Type} {X : External Env}.

(** [GraphService.__init__]: no token yet. *)
Definition init_world (e : Env) : world Env :=
  {| env := e; token := None; token_expires := None; trace := [] |}.

Definition now : M (world Env) Z :=
  fun w =>
    let (t, e') := datetime_now (env w) in
    (Return t, {| env := e'; token := token w;
                  token_expires := token_expires w; trace := trace w |}).

Definition get_token_call (scope : string) : M (world Env) token_response :=
  fun w =>
    let (r, e') := credential_get_token scope (env w) in
    (r, {| env := e'; token := token w; token_expires := token_expires w;
           trace := trace w ++ [EvGetToken scope] |}).

Definition send (rq : http_request) : M (world Env) http_response :=
  fun w =>
    let (r, e') := requests_request rq (env w) in
    (r, {| env := e'; token := token w; token_expires := token_expires w;
           trace := trace w ++ [EvRequest rq] |}).

Definition complete (user_text : string) : M (world Env) value :=
  fun w =>
    let (r, e') := chat_completion user_text (env w) in
    (r, {| env := e'; token := token w; token_expires := token_expires w;
           trace := trace w ++ [EvCompletion user_text] |}).

Definition read_token : M (world Env) (option string) :=
  fun w => (Return (token w), w).

Definition read_token_expires : M (world Env) (option Z) :=
  fun w => (Return (token_expires w), w).

Definition write_token (t : string) : M (world Env) unit :=
  fun w => (Return tt, {| env := env w; token := Some t;
                          token_expires := token_expires w; trace := trace w |}).

Definition write_token_expires (x : Z) : M (world Env) unit :=
  fun w => (Return tt, {| env := env w; token := token w;
                          token_expires := Some x; trace := trace w |}).
End Primitives.

(** ** utils/graph_service.py *)

Module GraphService.

Definition base_url : string := "https://graph.microsoft.com/v1.0".

Definition graph_scope : string := "https://graph.microsoft.com/.default".

Definition microseconds (seconds : Z) : Z := seconds * 1000000.

(** [datetime.max], 9999-12-31T23:59:59.999999 *)
Definition datetime_max : Z := microseconds (3652059 * 86400) - 1.

(** [timedelta(seconds=s)], in microseconds.  The days of a [timedelta]
    are held in a C [int] and have a magnitude of 999999999 at most. *)
Definition timedelta_seconds (s : Z) : outcome Z :=
  let days := s / 86400 in
  if (days <? - 2 ^ 31) || (2 ^ 31 <=? days)
  then Raise (OverflowError "Python int too large to convert to C int")
  else if (days <? -999999999) || (999999999 <? days)
  then Raise (OverflowError ("days=" +:+ str_of_Z days
                               +:+ "; must have magnitude <= 999999999"))
  else Return (microseconds s).

(** [d + delta] for a [datetime] and a [timedelta] *)
Definition datetime_add (d delta : Z) : outcome Z :=
  if (0 <=? d + delta) && (d + delta <=? datetime_max)
  then Return (d + delta)
  else Raise (OverflowError "date value out of range").

(** [api_map["Microsoft Graph"]] *)
Definition graph_api_id : string := "00000003-0000-0000-c000-000000000000".

Inductive permission_type : Type := Application | Delegated.

(** [Response.raise_for_status] *)
Definition raise_for_status (url : string) (r : http_response) : outcome unit :=
  let s := status_code r in
  if (400 <=? s) && (s <? 500)
  then Raise (HTTPError (str_of_Z s +:+ " Client Error: " +:+ reason r
                           +:+ " for url: " +:+ url))
  else if (500 <=? s) && (s <? 600)
  then Raise (HTTPError (str_of_Z s +:+ " Server Error: " +:+ reason r
                           +:+ " for url: " +:+ url))
  else Return tt.

(** *** The permission merge of [add_required_permissions]

    Between the two reads and the update, the method works on the decoded
    objects alone.  That part is a function of the catalog
    [graph_permissions], the fetched [required_access] and the requested
    [permissions]; it returns the list that the update sends. *)

Definition default_graph_access : value :=
  PDict [("resourceAppId", PStr graph_api_id); ("resourceAccess", PList [])].

(** [ra["resourceAppId"] == graph_api_id] *)
Definition is_graph_entry (ra : value) : outcome bool :=
  let? v := getitem ra (PStr "resourceAppId") in
  Return (py_eq v (PStr graph_api_id)).

(** [next((ra for ra in required_access if ...), default)], before the
    default is substituted *)
Definition find_graph_access (required_access : value)
  : outcome (option (nat * value)) :=
  let? ras := py_iter required_access in
  find_first is_graph_entry ras 0.

(** The objects the loop works on.  [graph_access] is a dict that the
    loop mutates; when [slot] is [Some i] it is the very object at
    position [i] of the list [required_access], so the list shows every
    mutation; when [slot] is [None] it is an object of its own. *)
Record access_state : Type := {
  required_access : value;
  slot : option nat;
  graph_access : value
}.

(** Lines 161-168.  An entry found in the list is in the list, so
    [graph_access not in required_access] is false for it; the default
    is appended unless an element equal to it is there already. *)
Definition locate_graph_access (required_access : value) : outcome access_state :=
  let? found := find_graph_access required_access in
  match found with
  | Some (i, ra) =>
      Return {| required_access := required_access; slot := Some i;
                graph_access := ra |}
  | None =>
      let? present := py_contains default_graph_access required_access in
      if present
      then Return {| required_access := required_access; slot := None;
                     graph_access := default_graph_access |}
      else
        let? appended := py_append required_access default_graph_access in
        let? n := (match required_access with
                   | PList xs => Return (length xs)
                   | _ => Raise (no_attribute required_access "append")
                   end) in
        Return {| required_access := appended; slot := Some n;
                  graph_access := default_graph_access |}
  end.

(** The list as the update serialises it, with the mutated object in its
    place. *)
Definition store_back (st : access_state) (ga : value) : value :=
  match slot st, required_access st with
  | Some i, PList xs => PList (<[i := ga]> xs)
  | _, other => other
  end.

(** Lines 175-181 *)
Definition classify_permission (permission : value) : outcome permission_type :=
  let? has_dot := py_contains (PStr ".") permission in
  if has_dot then
    let? scope_parts := py_split permission "." in
    let? last := getitem scope_parts (PInt (-1)) in
    if py_eq last (PStr "All") then Return Application else Return Delegated
  else Return Application.

Definition catalog_key (pt : permission_type) : string :=
  match pt with
  | Application => "appRoles"
  | Delegated => "oauth2PermissionScopes"
  end.

(** [p["value"] == permission] *)
Definition has_name (permission p : value) : outcome bool :=
  let? v := getitem p (PStr "value") in
  Return (py_eq v permission).

(** Lines 184-193: [permission_def], [None] when nothing matches *)
Definition find_permission_def (graph_permissions : value) (pt : permission_type)
    (permission : value) : outcome value :=
  let? catalog := dict_get graph_permissions (catalog_key pt) (PList []) in
  let? entries := py_iter catalog in
  let? found := find_first (has_name permission) entries 0 in
  Return (match found with Some (_, p) => p | None => PNone end).

Definition permission_type_value (pt : permission_type) : value :=
  match pt with
  | Application => PStr "Role"
  | Delegated => PStr "Scope"
  end.

(** [ra["id"] == permission_id] *)
Definition has_id (permission_id ra : value) : outcome bool :=
  let? v := getitem ra (PStr "id") in
  Return (py_eq v permission_id).

(** [graph_access["resourceAccess"]] after an append to that list: the
    list object stays where it is in the dict. *)
Definition set_resource_access (ga resource_access : value) : value :=
  match ga with
  | PDict kvs => PDict (dict_replace "resourceAccess" resource_access kvs)
  | _ => ga
  end.

(** The element appended for a permission, [{"id": ..., "type": ...}] *)
Definition new_access (permission_id : value) (pt : permission_type) : value :=
  PDict [("id", permission_id); ("type", permission_type_value pt)].

(** Lines 199-208 *)
Definition add_permission (ga permission_def : value) (pt : permission_type)
  : outcome value :=
  let? permission_id := getitem permission_def (PStr "id") in
  let? resource_access := getitem ga (PStr "resourceAccess") in
  let? entries := py_iter resource_access in
  let? present := py_any (has_id permission_id) entries in
  if present then Return ga
  else
    let? resource_access := getitem ga (PStr "resourceAccess") in
    let? appended :=
      py_append resource_access (new_access permission_id pt) in
    Return (set_resource_access ga appended).

(** The body of the loop over [permissions], lines 171-208 *)
Definition process_permission (graph_permissions ga permission : value)
  : outcome value :=
  let? pt := classify_permission permission in
  let? permission_def := find_permission_def graph_permissions pt permission in
  if negb (truthy permission_def) then Return ga
  else add_permission ga permission_def pt.

Fixpoint process_permissions (graph_permissions ga : value) (ps : list value)
  : outcome value :=
  match ps with
  | [] => Return ga
  | p :: rest =>
      let? ga' := process_permission graph_permissions ga p in
      process_permissions graph_permissions ga' rest
  end.

(** Lines 161-208 *)
Definition merge_permissions (graph_permissions required_access permissions : value)
  : outcome value :=
  let? st := locate_graph_access required_access in
  let? ps := py_iter permissions in
  let? ga := process_permissions graph_permissions (graph_access st) ps in
  Return (store_back st ga).

Definition catalog_endpoint : string :=
  "/servicePrincipals?$filter=appId eq '" +:+ graph_api_id
    +:+ "'&$select=appRoles,oauth2PermissionScopes".

Section Client.
Context {Env : Type} {X : External Env}.

(** [self.token and self.token_expires and datetime.now() < self.token_expires]:
    the clock is read only when both fields are set. *)
Definition token_is_valid : M (world Env) bool :=
  let! tok := read_token in
  let! expires := read_token_expires in
  match tok, expires with
  | Some t, Some x =>
      if truthy (PStr t) then (let! n := now in ret (n <? x)) else ret false
  | _, _ => ret false
  end.

Definition _get_token : M (world Env) string :=
  let! valid := token_is_valid in
  let! tok := read_token in
  match valid, tok with
  | true, Some t => ret t
  | _, _ =>
      let! token_response := get_token_call graph_scope in
      let! _ := write_token (tr_token token_response) in
      let! n := now in
      let! margin := lift (timedelta_seconds (tr_expires_on token_response - 300)) in
      let! expires := lift (datetime_add n margin) in
      let! _ := write_token_expires expires in
      ret (tr_token token_response)
  end.

(** [_make_request] once the token is at hand: the request, the status
    check and the decoding.  The [except] clause prints and raises the
    exception again. *)
Definition authorized_request (tok method endpoint : string) (data params : value)
  : M (world Env) value :=
  let url := base_url +:+ endpoint in
  let headers := [("Authorization", "Bearer " +:+ tok);
                  ("Content-Type", "application/json")] in
  try_except
    (let! response := send {| rq_method := method; rq_url := url;
                              rq_headers := headers; rq_json := data;
                              rq_params := params |} in
     let! _ := lift (raise_for_status url response) in
     if status_code response =? 204 then ret (PDict [])
     else lift (json_body response))
    (fun e => raise e).

Definition _make_request (method endpoint : string) (data params : value)
  : M (world Env) value :=
  let! tok := _get_token in
  authorized_request tok method endpoint data params.

Definition create_app_registration (app_name description : value)
  : M (world Env) value :=
  let app_data :=
    [("displayName", app_name);
     ("signInAudience", PStr "AzureADMyOrg");
     ("web", PDict [("redirectUris", PList [PStr "https://localhost:44321"]);
                    ("implicitGrantSettings",
                      PDict [("enableIdTokenIssuance", PBool true)])])] in
  let app_data :=
    if truthy description then app_data ++ [("notes", description)]
    else app_data in
  _make_request "POST" "/applications" (PDict app_data) PNone.

Definition create_client_secret (app_id : value) (display_name : value)
  : M (world Env) value :=
  let! n := now in
  let! end_date := lift (datetime_add n (microseconds (365 * 86400))) in
  let secret_data :=
    PDict [("passwordCredential",
             PDict [("displayName", display_name);
                    ("endDateTime", PStr (datetime_isoformat end_date))])] in
  _make_request "POST" ("/applications/" +:+ py_str app_id +:+ "/addPassword")
                secret_data PNone.

Definition create_service_principal (app_id : value) : M (world Env) value :=
  _make_request "POST" "/servicePrincipals" (PDict [("appId", app_id)]) PNone.
(** Lines 155-158: the catalog of Microsoft Graph's permissions *)
Definition fetch_graph_permissions : M (world Env) value :=
  let! listing := _make_request "GET" catalog_endpoint PNone PNone in
  let! found := lift (getitem listing (PStr "value")) in
  lift (getitem found (PInt 0)).

Definition add_required_permissions (app_id permissions : value)
  : M (world Env) value :=
  if negb (truthy permissions) then ret (PBool true)
  else
    let! app := _make_request "GET" ("/applications/" +:+ py_str app_id)
                              PNone PNone in
    let! graph_permissions := fetch_graph_permissions in
    let! required_access :=
      lift (dict_get app "requiredResourceAccess" (PList [])) in
    let! merged :=
      lift (merge_permissions graph_permissions required_access permissions) in
    let update_data := PDict [("requiredResourceAccess", merged)] in
    let! _ := _make_request "PATCH" ("/applications/" +:+ py_str app_id)
                            update_data PNone in
    ret (PBool true).
(** The body of one consent grant *)
Definition consent_data (service_principal_id permission_id : value) : value :=
  PDict [("clientAppId", service_principal_id);
         ("consentType", PStr "AllPrincipals");
         ("resourceId", permission_id);
         ("scope", permission_id)].

(** One turn of the loop of [grant_admin_consent], with its [try]: [true]
    to go on with the next id, [false] when the method returns [False]. *)
Definition grant_consent (service_principal_id permission_id : value)
  : M (world Env) bool :=
  try_except
    (let! _ := _make_request "POST" "/oauth2PermissionGrants"
                 (consent_data service_principal_id permission_id) PNone in
     ret true)
    (fun e => ret false).

Fixpoint grant_consents (service_principal_id : value) (ids : list value)
  : M (world Env) value :=
  match ids with
  | [] => ret (PBool true)
  | permission_id :: rest =>
      let! granted := grant_consent service_principal_id permission_id in
      if granted then grant_consents service_principal_id rest
      else ret (PBool false)
  end.

Definition grant_admin_consent (service_principal_id permission_ids : value)
  : M (world Env) value :=
  let! ids := lift (py_iter permission_ids) in
  grant_consents service_principal_id ids.
End Client.
End GraphService.

(** ** utils/openai_service.py *)

Module OpenAIService.

(** [_validate_parsed_data] *)
Definition _validate_parsed_data (data : value) : bool :=
  match data with
  | PDict kvs =>
      match dict_lookup "action" kvs with
      | None => false
      | Some action =>
          if py_eq action (PStr "create_app_registration")
          then forallb (fun field => dict_has field kvs) ["appName"]
          else true
      end
  | _ => false
  end.

(** [content.strip()] *)
Definition py_strip (content : value) : outcome string :=
  match content with
  | PStr s => Return (str_strip s)
  | _ => Raise (no_attribute content "strip")
  end.

Section Parser.
Context {Env : Type} {X : External Env}.

(** Lines 57-65: the text handed to [json.loads] *)
Definition json_text (parsed_response : string) : string :=
  let json_start := str_find parsed_response "{" in
  let json_end := str_rfind parsed_response "}" + 1 in
  if (0 <=? json_start) && (json_start <? json_end)
  then str_slice parsed_response json_start json_end
  else parsed_response.

(** Lines 55-74: the inner [try], which turns a decoding error into a
    [ValueError] and lets everything else through *)
Definition decode_and_validate (parsed_response : string) : outcome value :=
  match json_loads (json_text parsed_response) with
  | Return parsed_data =>
      if _validate_parsed_data parsed_data then Return parsed_data
      else Raise (ValueError "Parsed data is missing required fields")
  | Raise (JSONDecodeError _) =>
      Raise (ValueError ("Failed to decode JSON from response: "
                           +:+ parsed_response))
  | Raise e => Raise e
  end.

(** [parse_command]: [None] on every failure *)
Definition parse_command (command_text : string) : M (world Env) value :=
  try_except
    (let! content := complete command_text in
     let! parsed_response := lift (py_strip content) in
     lift (decode_and_validate parsed_response))
    (fun e => ret PNone).
End Parser.
End OpenAIService.

(** ** utils/config.py *)

Module Config.

(** The module's variables, each what [os.getenv] gave: a [str] or [None]. *)
Record settings : Type := {
  TENANT_ID : option string;
  CLIENT_ID : option string;
  CLIENT_SECRET : option string;
  OPENAI_ENDPOINT : option string;
  OPENAI_API_KEY : option string;
  OPENAI_DEPLOYMENT : option string;
  KEYVAULT_URL : option string
}.

Definition as_value (v : option string) : value :=
  match v with
  | Some s => PStr s
  | None => PNone
  end.

(** The credential object that [get_credentials] asks for. *)
Inductive credential : Type :=
| ClientSecretCredential (tenant_id client_id client_secret : option string)
| DefaultAzureCredential.

Definition get_credentials (c : settings) : credential :=
  if forallb truthy [as_value (TENANT_ID c); as_value (CLIENT_ID c);
                     as_value (CLIENT_SECRET c)]
  then ClientSecretCredential (TENANT_ID c) (CLIENT_ID c) (CLIENT_SECRET c)
  else DefaultAzureCredential.

Definition required_vars (c : settings) : list (string * option string) :=
  [("AZURE_TENANT_ID", TENANT_ID c);
   ("AZURE_CLIENT_ID", CLIENT_ID c);
   ("AZURE_CLIENT_SECRET", CLIENT_SECRET c);
   ("AZURE_OPENAI_ENDPOINT", OPENAI_ENDPOINT c);
   ("AZURE_OPENAI_API_KEY", OPENAI_API_KEY c);
   ("AZURE_OPENAI_DEPLOYMENT", OPENAI_DEPLOYMENT c)].

(** [[key for key, value in required_vars.items() if not value]] *)
Definition missing (c : settings) : list string :=
  map fst (List.filter (fun kv => negb (truthy (as_value (snd kv))))
                       (required_vars c)).

Definition validate_config (c : settings) : bool :=
  negb (truthy (PList (map PStr (missing c)))).
End Config.

(** ** app_orchestrator.py *)

Module EntraIDAgent.

(** The two services the agent holds, as it uses them; [W] is the state
    they run in. *)
Class Services (W : Type) : Type := {
  openai_parse_command : string -> M W value;
  graph_create_app_registration : value -> value -> M W value;
  graph_create_client_secret : value -> M W value;
  graph_add_required_permissions : value -> value -> M W value;
  graph_create_service_principal : value -> M W value
}.

(** The method calls the agent makes on its services. *)
Inductive call : Type :=
| ParseCommand (command_text : string)
| CreateAppRegistration (app_name description : value)
| CreateClientSecret (app_id : value)
| AddRequiredPermissions (app_id permissions : value)
| CreateServicePrincipal (app_id : value).

(** The agent's world: the state of its services and the calls made so
    far, oldest first. *)
Record agent_world (W : Type) : Type := {
  services_state : W;
  calls : list call
}.
Arguments services_state {W} a.
Arguments calls {W} a.
Arguments Build_agent_world {W} services_state calls.

Definition failure (message : string) : value :=
  PDict [("success", PBool false); ("message", PStr message)].

(** The envelope of the [except] clause of [_create_app_registration] *)
Definition aborted (e : exn) : value :=
  failure ("Error creating app registration: " +:+ str_exn e).

(** The envelope of the [except] clause of [process_command] *)
Definition rejected (e : exn) : value :=
  failure ("Error processing command: " +:+ str_exn e).

Definition next_steps : value :=
  PList [PStr "Store the client secret securely (it won't be shown again).";
         PStr "Admin consent may be required for application permissions."].

Definition created (app_name app_client_id app_id sp_id client_secret : value)
  : value :=
  PDict [("success", PBool true);
         ("message", PStr ("App registration '" +:+ py_str app_name
                             +:+ "' created successfully."));
         ("data", PDict [("applicationId", app_client_id);
                         ("objectId", app_id);
                         ("servicePrincipalId", sp_id);
                         ("clientSecret", client_secret)]);
         ("nextSteps", next_steps)].

(** The two shapes of an envelope: the result of a completed plan, or a
    failure with its message. *)
Definition is_envelope (envelope : value) : Prop :=
  (exists app_name app_client_id app_id sp_id client_secret,
      envelope = created app_name app_client_id app_id sp_id client_secret)
  \/ (exists message, envelope = failure message).

Section Agent.
Context {W : Type} {S : Services W}.

(** One method call on a service: it runs in the services' state and is
    recorded. *)
Definition invoke (c : call) (m : M W value) : M (agent_world W) value :=
  fun a =>
    let (r, w') := m (services_state a) in
    (r, {| services_state := w'; calls := calls a ++ [c] |}).

Definition run_call (c : call) : M (agent_world W) value :=
  invoke c
    match c with
    | ParseCommand command_text => openai_parse_command command_text
    | CreateAppRegistration app_name description =>
        graph_create_app_registration app_name description
    | CreateClientSecret app_id => graph_create_client_secret app_id
    | AddRequiredPermissions app_id permissions =>
        graph_add_required_permissions app_id permissions
    | CreateServicePrincipal app_id => graph_create_service_principal app_id
    end.

(** The [try] block of [_create_app_registration], lines 94-136 *)
Definition create_plan (app_name permissions description : value)
  : M (agent_world W) value :=
  let! app := run_call (CreateAppRegistration app_name description) in
  let! app_id := lift (getitem app (PStr "id")) in
  let! app_client_id := lift (getitem app (PStr "appId")) in
  let! secret_result := run_call (CreateClientSecret app_id) in
  let! client_secret := lift (getitem secret_result (PStr "secretText")) in
  let! secret_id := lift (getitem secret_result (PStr "id")) in
  let! _ := (if truthy permissions
             then run_call (AddRequiredPermissions app_id permissions)
             else ret PNone) in
  let! sp := run_call (CreateServicePrincipal app_client_id) in
  let! sp_id := lift (getitem sp (PStr "id")) in
  ret (created app_name app_client_id app_id sp_id client_secret).

Definition _create_app_registration (app_name permissions description : value)
  : M (agent_world W) value :=
  try_except
    (create_plan app_name permissions description)
    (fun e => ret (aborted e)).

(** The [try] block of [process_command], lines 39-72 *)
Definition dispatch (command_text : string) : M (agent_world W) value :=
  let! parsed_data := run_call (ParseCommand command_text) in
  if negb (truthy parsed_data)
  then ret (failure "Failed to parse command. Please try rephrasing.")
  else
    let! action := lift (getitem parsed_data (PStr "action")) in
    if py_eq action (PStr "create_app_registration") then
      let! app_name := lift (getitem parsed_data (PStr "appName")) in
      let! permissions := lift (dict_get parsed_data "permissions" (PList [])) in
      let! description := lift (dict_get parsed_data "description" (PStr "")) in
      _create_app_registration app_name permissions description
    else
      let! action := lift (getitem parsed_data (PStr "action")) in
      if py_eq action (PStr "update_app_registration") then
        ret (failure "Update app registration not implemented yet")
      else
        let! action := lift (getitem parsed_data (PStr "action")) in
        if py_eq action (PStr "delete_app_registration") then
          ret (failure "Delete app registration not implemented yet")
        else
          let! action := lift (getitem parsed_data (PStr "action")) in
          ret (failure ("Unknown action: " +:+ py_str action)).

Definition process_command (command_text : string) : M (agent_world W) value :=
  try_except
    (dispatch command_text)
    (fun e => ret (rejected e)).
End Agent.

(** The agent as [__init__] builds it, on the two services of this
    repository. *)
#[global] Instance repository_services {Env : Type} {X : External Env}
  : Services (world Env) := {|
  openai_parse_command := OpenAIService.parse_command;
  graph_create_app_registration := GraphService.create_app_registration;
  graph_create_client_secret :=
    fun app_id => GraphService.create_client_secret app_id (PStr "Default Secret");
  graph_add_required_permissions := GraphService.add_required_permissions;
  graph_create_service_principal := GraphService.create_service_principal
|}.
(** [__init__]: the configuration is checked first; then the two services
    are built, the Graph one with the credential that [get_credentials]
    asks for and without a token.  [construct] is the constructor of the
    credential classes, which may raise. *)
Record agent (C Env : Type) : Type := {
  agent_credential : C;
  agent_world0 : world Env
}.
Arguments agent_credential {C Env} a.
Arguments agent_world0 {C Env} a.
Arguments Build_agent {C Env} agent_credential agent_world0.

Definition init {C Env : Type} (construct : Config.credential -> outcome C)
    (c : Config.settings) (e : Env) : outcome (agent C Env) :=
  if negb (Config.validate_config c)
  then Raise (ValueError "Invalid configuration")
  else
    let? credential := construct (Config.get_credentials c) in
    Return {| agent_credential := credential; agent_world0 := init_world e |}.
End EntraIDAgent.

(** ** function_app.py and local_server.py

    The two HTTP adapters have the same handler: the agent built at import
    time or [None], the decoded body of the request, the agent's
    [process_command].  A reply is its status code with the object that is
    serialised as its body. *)

Record http_reply : Type := {
  reply_status : Z;
  reply_body : value
}.

Module FunctionApp.

Definition not_initialized : http_reply :=
  {| reply_status := 500;
     reply_body := EntraIDAgent.failure "Agent not initialized. Check logs for details." |}.

Definition no_command : http_reply :=
  {| reply_status := 400;
     reply_body :=
       EntraIDAgent.failure
         "No command provided. Please include a 'command' field in the request body." |}.

(** The reply of the [except] clause *)
Definition request_error (e : exn) : http_reply :=
  {| reply_status := 500;
     reply_body := EntraIDAgent.failure ("Error processing request: " +:+ str_exn e) |}.


Section Handler.
Context {W : Type}.

(** [process_command(req)]: [agent] is [entra_agent] with its
    [process_command] method, [get_json] is what [req.get_json()] gives or
    raises. *)
Definition process_command (agent : option (value -> M W value))
    (get_json : outcome value) : M W http_reply :=
  match agent with
  | None => ret not_initialized
  | Some agent_process_command =>
      try_except
        (let! req_body := lift get_json in
         let! command := lift (dict_get req_body "command" PNone) in
         if negb (truthy command) then ret no_command
         else
           let! result := agent_process_command command in
           let! success := lift (dict_get result "success" (PBool false)) in
           ret {| reply_status := if truthy success then 200 else 400;
                  reply_body := result |})
        (fun e => ret (request_error e))
  end.
End Handler.
End FunctionApp.

Module LocalServer.
Section Handler.
Context {W : Type}.

(** [process_command()]: [get_json] is what [request.json] gives or raises. *)
Definition process_command (agent : option (value -> M W value))
    (get_json : outcome value) : M W http_reply :=
  match agent with
  | None =>
      ret {| reply_status := 500;
             reply_body :=
               EntraIDAgent.failure "Agent not initialized. Check logs for details." |}
  | Some agent_process_command =>
      try_except
        (let! req_body := lift get_json in
         let! command := lift (dict_get req_body "command" PNone) in
         if negb (truthy command)
         then ret {| reply_status := 400;
                     reply_body :=
                       EntraIDAgent.failure
                         "No command provided. Please include a 'command' field in the request body." |}
         else
           let! result := agent_process_command command in
           let! success := lift (dict_get result "success" (PBool false)) in
           ret {| reply_status := if truthy success then 200 else 400;
                  reply_body := result |})
        (fun e =>
           ret {| reply_status := 500;
                  reply_body :=
                    EntraIDAgent.failure
                      ("Error processing request: " +:+ str_exn e) |})
  end.
End Handler.
End LocalServer.

(** ** cli.py *)

Module Cli.

(** [s[start:stop]] with either bound left out or negative, as Python
    clamps them. *)
Definition slice_bound (len : Z) (default : Z) (bound : option Z) : Z :=
  match bound with
  | None => default
  | Some i => if i <? 0 then Z.max 0 (i + len) else Z.min i len
  end.

Definition py_slice (s : string) (start stop : option Z) : string :=
  let len := Z.of_nat (String.length s) in
  let a := slice_bound len 0 start in
  let b := slice_bound len len stop in
  String.substring (Z.to_nat a) (Z.to_nat (b - a)) s.

(** [c * n]: empty when [n] is not positive *)
Fixpoint repeat_char (c : ascii) (n : nat) : string :=
  match n with
  | O => EmptyString
  | S n' => String c (repeat_char c n')
  end.

Definition str_times (c : ascii) (n : Z) : string := repeat_char c (Z.to_nat n).

(** Line 49: [value[:4] + '*' * (len(value) - 8) + value[-4:]] *)
Definition masked_value (value : string) : string :=
  py_slice value None (Some 4)
  +:+ str_times "*" (Z.of_nat (String.length value) - 8)
  +:+ py_slice value (Some (-4)) None.
End Cli.

(** ** Notions used to state the properties *)

(** An entry of [requiredResourceAccess] with [added] appended to its
    [resourceAccess] list, everything else as it was; an object without
    such a list is left alone. *)
Definition extend_access (ga : value) (added : list value) : value :=
  match ga with
  | PDict kvs =>
      match dict_lookup "resourceAccess" kvs with
      | Some (PList xs) =>
          PDict (dict_replace "resourceAccess" (PList (xs ++ added)) kvs)
      | _ => ga
      end
  | _ => ga
  end.

(** Both catalogs of [graph_permissions] are lists of named entries, and
    no role and no scope has the name [s]. *)
Definition unknown_permission (graph_permissions : value) (s : string) : Prop :=
  forall key, key = "appRoles" \/ key = "oauth2PermissionScopes" ->
    exists entries,
      dict_get graph_permissions key (PList []) = Return (PList entries)
      /\ Forall (fun p => exists v, getitem p (PStr "value") = Return v
                                   /\ v <> PStr s) entries.

(** The entries before the first one named [s] have other names. *)
Definition other_names (s : string) (entries : list value) : Prop :=
  Forall (fun p => exists v, getitem p (PStr "value") = Return v /\ v <> PStr s)
         entries.

(** The requests of a trace, each with its method, its URL and its body. *)
Fixpoint sent (t : list event) : list (string * string * value) :=
  match t with
  | [] => []
  | EvRequest rq :: rest => (rq_method rq, rq_url rq, rq_json rq) :: sent rest
  | _ :: rest => sent rest
  end.

(** Requests that only read. *)
Definition only_reads (requests : list (string * string * value)) : Prop :=
  Forall (fun q => fst (fst q) = "GET") requests.

(** The position of the first, and of the last, occurrence of a character. *)
Fixpoint first_index (c : ascii) (s : string) : option nat :=
  match s with
  | EmptyString => None
  | String a rest =>
      if Ascii.eqb a c then Some 0%nat else option_map S (first_index c rest)
  end.

Fixpoint last_index (c : ascii) (s : string) : option nat :=
  match s with
  | EmptyString => None
  | String a rest =>
      match last_index c rest with
      | Some n => Some (S n)
      | None => if Ascii.eqb a c then Some 0%nat else None
      end
  end.

(** The reply of the model in the example of the specification, and the
    object it wraps. *)
Definition dq : string := chr "034".

Definition example_object_text : string :=
  "{" +:+ dq +:+ "action" +:+ dq +:+ ":" +:+ dq +:+ "create_app_registration"
      +:+ dq +:+ "," +:+ dq +:+ "appName" +:+ dq +:+ ":" +:+ dq +:+ "Foo"
      +:+ dq +:+ "}".

Definition example_reply : string := "Sure! " +:+ example_object_text.

Definition example_descriptor : value :=
  PDict [("action", PStr "create_app_registration"); ("appName", PStr "Foo")].

(** The world after a completion call that left the outside in [e']. *)
Definition after_completion {Env : Type} (w : world Env) (command_text : string)
    (e' : Env) : world Env :=
  {| env := e'; token := token w; token_expires := token_expires w;
     trace := trace w ++ [EvCompletion command_text] |}.

Section CacheStates.
Context {Env : Type} {X : External Env}.

(** The cached token is usable at [w]: both fields are set, the token is
    not empty, and the clock, read once, is before the cached expiry. *)
Definition cache_valid (w : world Env) (t : string) (e' : Env) : Prop :=
  exists x n,
    token w = Some t /\ t <> "" /\ token_expires w = Some x
    /\ datetime_now (env w) = (n, e') /\ n < x.

(** The cached token is not usable at [w]: a field is missing or the
    token is empty, and the clock is not read; or the clock, read once,
    has reached the cached expiry. *)
Definition cache_stale (w : world Env) (e' : Env) : Prop :=
  ((token w = None \/ token w = Some "" \/ token_expires w = None) /\ e' = env w)
  \/ (exists t x n,
         token w = Some t /\ t <> "" /\ token_expires w = Some x
         /\ datetime_now (env w) = (n, e') /\ x <= n).
End CacheStates.

(** 1970-01-01T00:00:00, the instant from which [expires_on] counts. *)
Definition unix_epoch : Z := GraphService.microseconds (719162 * 86400).

(** The instant at which a token expires. *)
Definition expiry_instant (tr : token_response) : Z :=
  unix_epoch + GraphService.microseconds (tr_expires_on tr).

(** What [_get_token] computes as the expiry to cache, at the clock
    reading [n]: [n + timedelta(seconds=expires_on - 300)]. *)
Definition cached_expiry (n : Z) (tr : token_response) : outcome Z :=
  let? margin := GraphService.timedelta_seconds (tr_expires_on tr - 300) in
  GraphService.datetime_add n margin.

(** The URL of an application object. *)
Definition application_url (app_id : value) : string :=
  GraphService.base_url +:+ "/applications/" +:+ py_str app_id.

(** The kind the code gives to a permission name. *)
Definition permission_kind (s : string) : GraphService.permission_type :=
  if str_contains s "." && negb (String.eqb (last_segment s) "All")
  then GraphService.Delegated else GraphService.Application.

(** ** A stub provider

    A tenant with one application, used to run the model on concrete
    inputs.  The clock starts at [datetime.min] and advances by one second
    at each reading; every token has an [expires_on] of 3600; the
    endpoints listed in [failing] answer 500. *)

Module Stub.

Record provider : Type := {
  clock : Z;
  reply : value;
  stored_access : value;
  failing : list string
}.

Definition named (id name : string) : value :=
  PDict [("id", PStr id); ("value", PStr name)].

Definition catalog : value :=
  PDict [("appRoles",
           PList [named "role-sites-read-all" "Sites.Read.All";
                  named "role-user-read-all" "User.Read.All"]);
         ("oauth2PermissionScopes",
           PList [named "scope-user-read" "User.Read";
                  named "scope-openid" "openid"])].

Definition sharepoint_access : value :=
  PDict [("resourceAppId", PStr "00000003-0000-0ff1-ce00-000000000000");
         ("resourceAccess",
           PList [PDict [("id", PStr "role-sp-1"); ("type", PStr "Role")]])].

Definition applications_url : string := GraphService.base_url +:+ "/applications".

Definition the_application_url : string := applications_url +:+ "/obj-1".

Definition answer (status : Z) (phrase : string) (body : value) : http_response :=
  {| status_code := status; reason := phrase; json_body := Return body |}.

Definition no_content : http_response :=
  {| status_code := 204; reason := "No Content";
     json_body := Raise (JSONDecodeError "Expecting value") |}.

Definition respond (rq : http_request) (p : provider)
  : outcome http_response * provider :=
  let asks (method url : string) :=
    String.eqb (rq_method rq) method && String.eqb (rq_url rq) url in
  if existsb (String.eqb (rq_url rq)) (failing p)
  then (Return {| status_code := 500; reason := "Internal Server Error";
                  json_body := Raise (JSONDecodeError "Expecting value") |}, p)
  else if asks "POST" applications_url
  then (Return (answer 201 "Created"
                  (PDict [("id", PStr "obj-1"); ("appId", PStr "client-1")])), p)
  else if asks "POST" (the_application_url +:+ "/addPassword")
  then (Return (answer 200 "OK"
                  (PDict [("id", PStr "key-1"); ("secretText", PStr "s3cr3t")])), p)
  else if asks "GET" the_application_url
  then (Return (answer 200 "OK"
                  (PDict [("id", PStr "obj-1"); ("appId", PStr "client-1");
                          ("requiredResourceAccess", stored_access p)])), p)
  else if asks "GET" (GraphService.base_url +:+ GraphService.catalog_endpoint)
  then (Return (answer 200 "OK" (PDict [("value", PList [catalog])])), p)
  else if asks "PATCH" the_application_url
  then (Return no_content,
        {| clock := clock p; reply := reply p;
           stored_access :=
             match rq_json rq with
             | PDict kvs =>
                 match dict_lookup "requiredResourceAccess" kvs with
                 | Some v => v
                 | None => stored_access p
                 end
             | _ => stored_access p
             end;
           failing := failing p |})
  else if asks "POST" (GraphService.base_url +:+ "/servicePrincipals")
  then (Return (answer 201 "Created" (PDict [("id", PStr "sp-1")])), p)
  else (Return {| status_code := 404; reason := "Not Found";
                  json_body := Raise (JSONDecodeError "Expecting value") |}, p).

(** The texts the stub decoder knows: the object of the example, one
    without an action, and one without an application name. *)
Definition nameless_text : string :=
  "{" +:+ dq +:+ "action" +:+ dq +:+ ":" +:+ dq +:+ "create_app_registration"
      +:+ dq +:+ "}".

Definition actionless_text : string :=
  "{" +:+ dq +:+ "appName" +:+ dq +:+ ":" +:+ dq +:+ "Foo" +:+ dq +:+ "}".

Definition decode (text : string) : outcome value :=
  if String.eqb text example_object_text then Return example_descriptor
  else if String.eqb text nameless_text
  then Return (PDict [("action", PStr "create_app_registration")])
  else if String.eqb text actionless_text
  then Return (PDict [("appName", PStr "Foo")])
  else Raise (JSONDecodeError "Expecting value").

#[global] Instance external : External provider := {|
  datetime_now p :=
    (clock p, {| clock := clock p + 1000000; reply := reply p;
                 stored_access := stored_access p; failing := failing p |});
  datetime_isoformat := str_of_Z;
  credential_get_token scope p :=
    (Return {| tr_token := "token-1"; tr_expires_on := 3600 |}, p);
  requests_request := respond;
  chat_completion text p := (Return (reply p), p);
  json_loads := decode
|}.

Definition tenant : provider :=
  {| clock := 0; reply := PStr example_reply;
     stored_access := PList [sharepoint_access]; failing := [] |}.


Definition tenant_replying (text : string) : provider :=
  {| clock := 0; reply := PStr text;
     stored_access := PList [sharepoint_access]; failing := [] |}.


(** The permissions of the running example. *)
Definition requested : value := PList [PStr "Sites.Read.All"; PStr "User.Read"].

Definition start (p : provider) : EntraIDAgent.agent_world (world provider) :=
  {| EntraIDAgent.services_state := init_world p; EntraIDAgent.calls := [] |}.
End Stub.

(** ** A second stub: a directory that takes consent grants

    Its listing of the Microsoft Graph service principal is empty, every
    application has an empty access list, and a consent grant is accepted
    unless its scope is in [refused].  The clock stands still at
    [datetime.min] and every token has an [expires_on] of 3600. *)

Module GrantStub.

Record provider : Type := {
  refused : list value
}.

Definition grants_url : string := GraphService.base_url +:+ "/oauth2PermissionGrants".

Definition respond (rq : http_request) (p : provider)
  : outcome http_response * provider :=
  if String.eqb (rq_method rq) "POST" && String.eqb (rq_url rq) grants_url
  then
    match dict_get (rq_json rq) "scope" PNone with
    | Return scope =>
        if existsb (py_eq scope) (refused p)
        then (Return {| status_code := 403; reason := "Forbidden";
                        json_body := Raise (JSONDecodeError "Expecting value") |}, p)
        else (Return (Stub.answer 201 "Created" (rq_json rq)), p)
    | Raise e => (Raise e, p)
    end
  else if String.eqb (rq_method rq) "GET"
  then
    if String.eqb (rq_url rq) (GraphService.base_url +:+ GraphService.catalog_endpoint)
    then (Return (Stub.answer 200 "OK" (PDict [("value", PList [])])), p)
    else (Return (Stub.answer 200 "OK"
                    (PDict [("id", PStr "obj-1");
                            ("requiredResourceAccess", PList [])])), p)
  else (Return {| status_code := 404; reason := "Not Found";
                  json_body := Raise (JSONDecodeError "Expecting value") |}, p).

#[global] Instance external : External provider := {|
  datetime_now p := (0, p);
  datetime_isoformat := str_of_Z;
  credential_get_token scope p :=
    (Return {| tr_token := "token-1"; tr_expires_on := 3600 |}, p);
  requests_request := respond;
  chat_completion text p := (Raise (ExternalError "Connection error."), p);
  json_loads text := Raise (JSONDecodeError "Expecting value")
|}.

Definition directory : provider := {| refused := [] |}.

(** The same directory, refusing the scope [p2]. *)
Definition strict_directory : provider := {| refused := [PStr "p2"] |}.
End GrantStub.

(** ** A third stub: a credential that says when its tokens expire

    Its [expires_on] is the instant at which the token expires, in seconds
    since 1970, as the credential library gives it.  The clock advances by
    [step] at each reading. *)

Module ClockStub.

Record provider : Type := {
  clock : Z;
  step : Z;
  expires_on : Z
}.

#[global] Instance external : External provider := {|
  datetime_now p :=
    (clock p, {| clock := clock p + step p; step := step p;
                 expires_on := expires_on p |});
  datetime_isoformat := str_of_Z;
  credential_get_token scope p :=
    (Return {| tr_token := "token-1"; tr_expires_on := expires_on p |}, p);
  requests_request rq p := (Raise (ExternalError "Connection error."), p);
  chat_completion text p := (Raise (ExternalError "Connection error."), p);
  json_loads text := Raise (JSONDecodeError "Expecting value")
|}.

(** 2024-01-01T00:00:00 *)
Definition new_year : Z := GraphService.microseconds (738885 * 86400).

(** The clock is read once a day, from [new_year] on; the token expires
    one hour after [new_year]. *)
Definition daily : provider :=
  {| clock := new_year; step := GraphService.microseconds 86400;
     expires_on := 1704067200 + 3600 |}.

(** The same, with a token that expires on 9999-12-31T23:59:59. *)
Definition lasting : provider :=
  {| clock := new_year; step := GraphService.microseconds 86400;
     expires_on := 253402300799 |}.
End ClockStub.

(** ** Further notions *)

(** The request that [_make_request] sends with the token [tok]. *)
Definition request_of (tok method endpoint : string) (data params : value)
  : http_request :=
  {| rq_method := method;
     rq_url := GraphService.base_url +:+ endpoint;
     rq_headers := [("Authorization", "Bearer " +:+ tok);
                    ("Content-Type", "application/json")];
     rq_json := data;
     rq_params := params |}.

(** The consent grant for one permission id, as it shows in a trace. *)
Definition grant_request (service_principal_id permission_id : value)
  : string * string * value :=
  ("POST", GraphService.base_url +:+ "/oauth2PermissionGrants",
   GraphService.consent_data service_principal_id permission_id).

(** No element of an access list has the id of an element before it. *)
Definition distinct_ids (entries : list value) : Prop :=
  forall before e after permission_id,
    entries = before ++ e :: after ->
    getitem e (PStr "id") = Return permission_id ->
    Forall (fun x => GraphService.has_id permission_id x = Return false) before.



(** The handlers of the two HTTP adapters. *)
Definition adapters {W : Type}
  : list (option (value -> M W value) -> outcome value -> M W http_reply) :=
  [FunctionApp.process_command; LocalServer.process_command].

(** The truth value of the ["success"] of an envelope. *)
Definition succeeded (envelope : value) : Prop :=
  exists success,
    dict_get envelope "success" (PBool false) = Return success
    /\ truthy success = true.

(** A variable of the configuration is set: it has a value, and the value
    is not empty. *)
Definition is_set (v : option string) : Prop :=
  exists s, v = Some s /\ s <> "".

(** Two configurations: a complete one, and one without the key of the
    completion service. *)
Definition complete_settings : Config.settings :=
  {| Config.TENANT_ID := Some "tenant-1";
     Config.CLIENT_ID := Some "client-0";
     Config.CLIENT_SECRET := Some "s3cr3t";
     Config.OPENAI_ENDPOINT := Some "https://example.openai.azure.com";
     Config.OPENAI_API_KEY := Some "key-1";
     Config.OPENAI_DEPLOYMENT := Some "gpt-4";
     Config.KEYVAULT_URL := None |}.


(** Services whose parser returns [parsed_data] for every command. *)
Definition scripted_services (parsed_data : value) : EntraIDAgent.Services unit := {|
  EntraIDAgent.openai_parse_command := fun _ => ret parsed_data;
  EntraIDAgent.graph_create_app_registration := fun _ _ => ret (PDict []);
  EntraIDAgent.graph_create_client_secret := fun _ => ret (PDict []);
  EntraIDAgent.graph_add_required_permissions := fun _ _ => ret (PBool true);
  EntraIDAgent.graph_create_service_principal := fun _ => ret (PDict [])
|}.

(** The [process_command] method of an agent on such services, as a
    handler calls it. *)
Definition scripted_method (parsed_data : value) (command : value)
  : M (EntraIDAgent.agent_world unit) value :=
  match command with
  | PStr command_text =>
      EntraIDAgent.process_command (S := scripted_services parsed_data) command_text
  | _ => raise (TypeError "command is not a string")
  end.

(** The method and the URL of each request of a creation that ran to its
    end, for the object id it met. *)
Definition plan_endpoints (permissions app_id : value) : list (string * string) :=
  [("POST", GraphService.base_url +:+ "/applications");
   ("POST", GraphService.base_url +:+ "/applications/" +:+ py_str app_id
              +:+ "/addPassword")]
  ++ (if truthy permissions
      then [("GET", application_url app_id);
            ("GET", GraphService.base_url +:+ GraphService.catalog_endpoint);
            ("PATCH", application_url app_id)]
      else [])
  ++ [("POST", GraphService.base_url +:+ "/servicePrincipals")].

(* ===================================================================== *)
(** * Part II: properties                                                *)
(* ===================================================================== *)

(** ** Facts about values *)

Section ValueFacts.

(** Induction on a value with the hypothesis available for the elements
    of a list and the values of a dict. *)
Lemma value_nested_ind (P : value -> Prop) :
  P PNone ->
  (forall b, P (PBool b)) ->
  (forall n, P (PInt n)) ->
  (forall s, P (PStr s)) ->
  (forall xs, Forall P xs -> P (PList xs)) ->
  (forall kvs, Forall (fun kv => P (snd kv)) kvs -> P (PDict kvs)) ->
  forall v, P v.
Proof.
  intros HN HB HI HS HL HD.
  fix IH 1. intros [ | b | n | s | xs | kvs ].
  - exact HN.
  - apply HB.
  - apply HI.
  - apply HS.
  - apply HL. induction xs as [|x xs IHxs]; constructor.
    + apply IH.
    + exact IHxs.
  - apply HD. induction kvs as [|[k v] kvs IHkvs]; constructor.
    + apply IH.
    + exact IHkvs.
Qed.

Lemma py_eq_str (v : value) (s : string) :
  py_eq v (PStr s) = true <-> v = PStr s.
Proof.
  destruct v; simpl; split; intros H; try discriminate.
  - apply String.eqb_eq in H. now subst.
  - inversion H. apply String.eqb_refl.
Qed.

Lemma py_eq_str_false (v : value) (s : string) :
  py_eq v (PStr s) = false <-> v <> PStr s.
Proof.
  rewrite <- py_eq_str. destruct (py_eq v (PStr s)); split; congruence.
Qed.

Lemma str_mem_In k ks : str_mem k ks = true <-> In k ks.
Proof.
  unfold str_mem. rewrite existsb_exists. split.
  - intros (x & Hin & Heq). apply String.eqb_eq in Heq. now subst.
  - intros Hin. exists k. split; [assumption | apply String.eqb_refl].
Qed.

Lemma dict_lookup_app_fresh k (pre rest : items) :
  ~ In k (map fst pre) -> dict_lookup k (pre ++ rest) = dict_lookup k rest.
Proof.
  induction pre as [|[k' v'] pre IH]; simpl; intros Hfresh; [reflexivity|].
  destruct (String.eqb_spec k k') as [->|Hne].
  - exfalso. apply Hfresh. now left.
  - apply IH. intros Hin. apply Hfresh. now right.
Qed.

Lemma dict_lookup_In k v (kvs : items) :
  In (k, v) kvs -> dict_has k kvs = true.
Proof.
  unfold dict_has. induction kvs as [|[k' v'] kvs IH]; simpl; [tauto|].
  intros [Heq|Hin].
  - inversion Heq. now rewrite String.eqb_refl.
  - destruct (String.eqb k k'); [reflexivity | now apply IH].
Qed.

Lemma all_eq_by_refl (xs : list value) :
  Forall (fun x => py_eq x x = true) xs -> all_eq_by py_eq xs xs = true.
Proof.
  induction 1 as [|x xs Hx _ IH]; simpl; [reflexivity|].
  now rewrite Hx, IH.
Qed.

Lemma bound_eq_by_refl (pre rest : items) (seen : list string) :
  (forall k, In k seen <-> In k (map fst pre)) ->
  Forall (fun kv => py_eq (snd kv) (snd kv) = true) rest ->
  bound_eq_by py_eq (pre ++ rest) seen rest = true.
Proof.
  intros Hseen Hrest. revert pre seen Hseen.
  induction Hrest as [|[k v] rest Hv _ IH]; intros pre seen Hseen; simpl;
    [reflexivity|].
  apply andb_true_intro. split.
  - destruct (str_mem k seen) eqn:Hmem; [reflexivity|].
    rewrite dict_lookup_app_fresh.
    + simpl. now rewrite String.eqb_refl.
    + intros Hin. apply Hseen in Hin. apply str_mem_In in Hin. congruence.
  - replace (pre ++ (k, v) :: rest) with ((pre ++ [(k, v)]) ++ rest)
      by now rewrite <- app_assoc.
    apply IH. intros k'. rewrite map_app, in_app_iff. simpl.
    rewrite <- Hseen. tauto.
Qed.

(** [x == x] holds for every value of the model. *)
Lemma py_eq_refl (v : value) : py_eq v v = true.
Proof.
  induction v as [ | b | n | s | xs IH | kvs IH ] using value_nested_ind; simpl.
  - reflexivity.
  - now destruct b.
  - apply Z.eqb_refl.
  - apply String.eqb_refl.
  - now apply all_eq_by_refl.
  - apply andb_true_intro. split.
    + now apply (bound_eq_by_refl [] kvs []).
    + apply forallb_forall. intros [k v] Hin. simpl.
      eapply dict_lookup_In; eauto.
Qed.
End ValueFacts.

(** ** The orchestrator *)

Section AgentProperties.
Import EntraIDAgent.
Context {W : Type} {S : Services W}.

Lemma run_call_returns (c : call) (m : M W value) (a : agent_world W) r w' :
  m (services_state a) = (r, w') ->
  invoke c m a = (r, {| services_state := w'; calls := calls a ++ [c] |}).
Proof. intros H. unfold invoke. now rewrite H. Qed.

Ltac step H :=
  unfold bind at 1; unfold run_call at 1;
  erewrite run_call_returns by (simpl; exact H); simpl.

Ltac pure H := unfold bind at 1; unfold lift at 1; rewrite H.

(** C1.  When the four service calls of the plan return, and their
    results carry the fields the plan reads, the envelope reports
    success, its message names the application, its data holds the client
    id, the object id, the service principal id and the secret text of
    those results, and it lists two next steps.  The permission merge is
    one of the calls exactly when permissions were requested. *)
Theorem create_app_registration_success
    (app_name permissions description : value) (a : agent_world W)
    (app app_id app_client_id secret_result client_secret secret_id : value)
    (sp sp_id : value) (w1 w2 w3 w4 : W) :
  graph_create_app_registration app_name description (services_state a)
    = (Return app, w1) ->
  getitem app (PStr "id") = Return app_id ->
  getitem app (PStr "appId") = Return app_client_id ->
  graph_create_client_secret app_id w1 = (Return secret_result, w2) ->
  getitem secret_result (PStr "secretText") = Return client_secret ->
  getitem secret_result (PStr "id") = Return secret_id ->
  (if truthy permissions
   then exists r, graph_add_required_permissions app_id permissions w2 = (Return r, w3)
   else w3 = w2) ->
  graph_create_service_principal app_client_id w3 = (Return sp, w4) ->
  getitem sp (PStr "id") = Return sp_id ->
  exists (envelope data : value) (a' : agent_world W),
    _create_app_registration app_name permissions description a
      = (Return envelope, a')
    /\ getitem envelope (PStr "success") = Return (PBool true)
    /\ getitem envelope (PStr "message")
       = Return (PStr ("App registration '" +:+ py_str app_name
                         +:+ "' created successfully."))
    /\ getitem envelope (PStr "data") = Return data
    /\ getitem data (PStr "applicationId") = Return app_client_id
    /\ getitem data (PStr "objectId") = Return app_id
    /\ getitem data (PStr "servicePrincipalId") = Return sp_id
    /\ getitem data (PStr "clientSecret") = Return client_secret
    /\ (exists first second : string,
          getitem envelope (PStr "nextSteps")
          = Return (PList [PStr first; PStr second]))
    /\ services_state a' = w4
    /\ calls a'
       = calls a
         ++ [CreateAppRegistration app_name description;
             CreateClientSecret app_id]
         ++ (if truthy permissions
             then [AddRequiredPermissions app_id permissions] else [])
         ++ [CreateServicePrincipal app_client_id].
Proof.
  intros Happ Hid Hcid Hsec Htext Hsid Hperm Hsp Hspid.
  unfold _create_app_registration, try_except, create_plan.
  step Happ. pure Hid. simpl. pure Hcid. simpl.
  step Hsec. pure Htext. simpl. pure Hsid. simpl.
  destruct (truthy permissions).
  - destruct Hperm as [r Hperm].
    step Hperm. step Hsp. pure Hspid. simpl.
    eexists _, _, _. split; [reflexivity|].
    repeat split; try reflexivity.
    + eexists _, _. reflexivity.
    + simpl. now rewrite <- !app_assoc.
  - subst w3. unfold bind at 1. unfold ret at 1.
    step Hsp. pure Hspid. simpl.
    eexists _, _, _. split; [reflexivity|].
    repeat split; try reflexivity.
    + eexists _, _. reflexivity.
    + simpl. now rewrite <- !app_assoc.
Qed.


Lemma bind_returns {V A B : Type} (m : M V A) (k : A -> M V B) (v : V) b v' :
  bind m k v = (Return b, v') ->
  exists x v1, m v = (Return x, v1) /\ k x v1 = (Return b, v').
Proof.
  unfold bind. destruct (m v) as [[x|e] v1]; intros H; [eauto | discriminate].
Qed.

Lemma create_plan_returns app_name permissions description
    (a a' : agent_world W) v :
  create_plan app_name permissions description a = (Return v, a') ->
  exists app_client_id app_id sp_id client_secret,
    v = created app_name app_client_id app_id sp_id client_secret.
Proof.
  unfold create_plan. intros H.
  repeat (apply bind_returns in H; destruct H as (? & ? & _ & H)).
  unfold ret in H. inversion H. eauto.
Qed.

Lemma _create_app_registration_returns app_name permissions description
    (a : agent_world W) :
  exists envelope a',
    _create_app_registration app_name permissions description a
    = (Return envelope, a')
    /\ is_envelope envelope.
Proof.
  unfold _create_app_registration, try_except.
  destruct (create_plan app_name permissions description a) as [[v|e] a'] eqn:Hplan.
  - exists v, a'. split; [reflexivity|]. left.
    apply create_plan_returns in Hplan. destruct Hplan as (c & i & p & k & ->).
    eauto 6.
  - exists (aborted e), a'. split; [reflexivity|]. right. eexists; reflexivity.
Qed.

Lemma dispatch_returns command_text (a a' : agent_world W) v :
  dispatch command_text a = (Return v, a') -> is_envelope v.
Proof.
  unfold dispatch. intros H.
  apply bind_returns in H. destruct H as (parsed_data & a1 & _ & H).
  destruct (negb (truthy parsed_data)).
  { inversion H. right. eexists; reflexivity. }
  apply bind_returns in H. destruct H as (action & a2 & _ & H).
  destruct (py_eq action (PStr "create_app_registration")).
  { repeat (apply bind_returns in H; destruct H as (? & ? & _ & H)).
    match type of H with
    | _create_app_registration ?n ?p ?d ?x = _ =>
        destruct (_create_app_registration_returns n p d x) as (v' & a'' & Heq & Henv)
    end.
    rewrite Heq in H. now inversion H; subst. }
  apply bind_returns in H. destruct H as (action2 & a3 & _ & H).
  destruct (py_eq action2 (PStr "update_app_registration")).
  { inversion H. right. eexists; reflexivity. }
  apply bind_returns in H. destruct H as (action3 & a4 & _ & H).
  destruct (py_eq action3 (PStr "delete_app_registration")).
  { inversion H. right. eexists; reflexivity. }
  apply bind_returns in H. destruct H as (action4 & a5 & _ & H).
  inversion H. right. eexists; reflexivity.
Qed.

End AgentProperties.

(** ** The permission merge *)

Section MergeFacts.
Import GraphService.

Lemma obind_returns {A B : Type} (o : outcome A) (k : A -> outcome B) b :
  obind o k = Return b -> exists a, o = Return a /\ k a = Return b.
Proof. destruct o; simpl; intros H; [eauto | discriminate]. Qed.

(** *** Searching a list *)

Lemma find_first_none (c : value -> outcome bool) xs i :
  find_first c xs i = Return None <-> Forall (fun x => c x = Return false) xs.
Proof.
  revert i. induction xs as [|x xs IH]; intros i; simpl.
  - split; [constructor | reflexivity].
  - destruct (c x) as [[|]|e] eqn:Hc; simpl.
    + split; [discriminate | intros H; inversion H; congruence].
    + rewrite IH. split; intros H; [now constructor | now inversion H].
    + split; [discriminate | intros H; inversion H; congruence].
Qed.

Lemma find_first_some (c : value -> outcome bool) xs i j x :
  find_first c xs i = Return (Some (j, x)) <->
  exists pre post,
    xs = pre ++ x :: post /\ j = (i + length pre)%nat
    /\ Forall (fun y => c y = Return false) pre /\ c x = Return true.
Proof.
  revert i. induction xs as [|y xs IH]; intros i; simpl.
  - split; [discriminate|]. intros (pre & post & Heq & _).
    now destruct pre.
  - destruct (c y) as [[|]|e] eqn:Hc; simpl.
    + split.
      * intros H. inversion H; subst. exists [], xs. simpl.
        repeat split; auto; lia.
      * intros (pre & post & Heq & -> & Hpre & Hx).
        destruct pre as [|p pre]; simpl in Heq; inversion Heq; subst.
        -- do 3 f_equal. simpl. lia.
        -- inversion Hpre; congruence.
    + rewrite IH. split.
      * intros (pre & post & -> & -> & Hpre & Hx).
        exists (y :: pre), post. simpl. repeat split; auto; lia.
      * intros (pre & post & Heq & -> & Hpre & Hx).
        destruct pre as [|p pre]; simpl in Heq; inversion Heq; subst.
        -- congruence.
        -- exists pre, post. inversion Hpre. repeat split; auto; simpl; lia.
    + split; [discriminate|].
      intros (pre & post & Heq & _ & Hpre & Hx).
      destruct pre as [|p pre]; simpl in Heq; inversion Heq; subst.
      * congruence.
      * inversion Hpre; congruence.
Qed.

Lemma py_any_true_app (c : value -> outcome bool) xs ys :
  py_any c xs = Return true -> py_any c (xs ++ ys) = Return true.
Proof.
  unfold py_any. intros H. apply obind_returns in H.
  destruct H as ([[j x]|] & Hf & Hr); [|discriminate].
  apply find_first_some in Hf. destruct Hf as (pre & post & -> & -> & Hpre & Hx).
  assert (Hf : find_first c ((pre ++ x :: post) ++ ys) 0
               = Return (Some ((0 + length pre)%nat, x))).
  { apply find_first_some. exists pre, (post ++ ys).
    rewrite <- app_assoc. simpl. auto. }
  now rewrite Hf.
Qed.

Lemma py_any_false (c : value -> outcome bool) xs :
  py_any c xs = Return false <-> Forall (fun x => c x = Return false) xs.
Proof.
  rewrite <- (find_first_none c xs 0). unfold py_any. split.
  - intros H. apply obind_returns in H. destruct H as ([r|] & Hf & Hr);
      [discriminate | assumption].
  - intros ->. reflexivity.
Qed.

Lemma py_any_found (c : value -> outcome bool) pre x post :
  Forall (fun y => c y = Return false) pre -> c x = Return true ->
  py_any c (pre ++ x :: post) = Return true.
Proof.
  intros Hpre Hx. unfold py_any.
  assert (Hf : find_first c (pre ++ x :: post) 0
               = Return (Some ((0 + length pre)%nat, x))).
  { apply find_first_some. eauto 6. }
  now rewrite Hf.
Qed.

(** *** Replacing the value of a key *)

Lemma dict_replace_same k v (kvs : items) :
  dict_lookup k kvs = Some v -> dict_replace k v kvs = kvs.
Proof.
  induction kvs as [|[k' v'] kvs IH]; simpl; [discriminate|].
  destruct (String.eqb_spec k k') as [->|Hne]; intros H.
  - now inversion H.
  - now rewrite IH.
Qed.

Lemma dict_lookup_replace k v v' (kvs : items) :
  dict_lookup k kvs = Some v -> dict_lookup k (dict_replace k v' kvs) = Some v'.
Proof.
  induction kvs as [|[k1 v1] kvs IH]; simpl; [discriminate|].
  destruct (String.eqb_spec k k1) as [->|Hne]; intros H; simpl.
  - now rewrite String.eqb_refl.
  - destruct (String.eqb_spec k k1); [contradiction | now apply IH].
Qed.

Lemma dict_lookup_replace_ne k k' v' (kvs : items) :
  k' <> k -> dict_lookup k' (dict_replace k v' kvs) = dict_lookup k' kvs.
Proof.
  intros Hne. induction kvs as [|[k1 v1] kvs IH]; simpl; [reflexivity|].
  destruct (String.eqb_spec k k1) as [->|Hne1]; simpl.
  - destruct (String.eqb_spec k' k1); [contradiction | reflexivity].
  - now rewrite IH.
Qed.

Lemma dict_replace_replace k v v' (kvs : items) :
  dict_replace k v' (dict_replace k v kvs) = dict_replace k v' kvs.
Proof.
  induction kvs as [|[k1 v1] kvs IH]; simpl; [reflexivity|].
  destruct (String.eqb_spec k k1) as [->|Hne1]; simpl.
  - now rewrite String.eqb_refl.
  - destruct (String.eqb_spec k k1); [contradiction | now rewrite IH].
Qed.

(** *** Appending to the access list of an entry *)

Lemma extend_access_nil ga : extend_access ga [] = ga.
Proof.
  destruct ga as [ | | | | |kvs]; simpl; try reflexivity.
  destruct (dict_lookup "resourceAccess" kvs) as [[ | | | |xs| ]|] eqn:Hl;
    try reflexivity.
  rewrite app_nil_r. now rewrite dict_replace_same.
Qed.

Lemma extend_access_app ga xs ys :
  extend_access (extend_access ga xs) ys = extend_access ga (xs ++ ys).
Proof.
  destruct ga as [ | | | | |kvs]; simpl; try reflexivity.
  destruct (dict_lookup "resourceAccess" kvs) as [[ | | | |l| ]|] eqn:Hl;
    simpl; rewrite ?Hl; try reflexivity.
  rewrite (dict_lookup_replace _ _ _ _ Hl).
  now rewrite dict_replace_replace, <- app_assoc.
Qed.

Lemma getitem_extend_access ga added k :
  k <> "resourceAccess" ->
  getitem (extend_access ga added) (PStr k) = getitem ga (PStr k).
Proof.
  intros Hne. destruct ga as [ | | | | |kvs]; simpl; try reflexivity.
  destruct (dict_lookup "resourceAccess" kvs) as [[ | | | |l| ]|] eqn:Hl;
    try reflexivity.
  simpl. now rewrite dict_lookup_replace_ne.
Qed.

Lemma getitem_extend_access_list ga added xs :
  getitem ga (PStr "resourceAccess") = Return (PList xs) ->
  getitem (extend_access ga added) (PStr "resourceAccess")
  = Return (PList (xs ++ added)).
Proof.
  destruct ga as [ | | | | |kvs]; simpl; try discriminate.
  destruct (dict_lookup "resourceAccess" kvs) as [v|] eqn:Hl; [|discriminate].
  intros H. inversion H; subst. simpl.
  now rewrite (dict_lookup_replace _ _ _ _ Hl).
Qed.

Lemma is_graph_entry_extend_access ga added :
  is_graph_entry (extend_access ga added) = is_graph_entry ga.
Proof.
  unfold is_graph_entry. now rewrite getitem_extend_access.
Qed.
(** *** One permission *)

(** What [add_permission] does when it returns: the entry is left as it
    is when an element of its access list has the id, and gets one new
    element otherwise. *)
Lemma add_permission_returns ga permission_def pt ga' :
  add_permission ga permission_def pt = Return ga' ->
  exists permission_id resource_access entries,
    getitem permission_def (PStr "id") = Return permission_id
    /\ getitem ga (PStr "resourceAccess") = Return resource_access
    /\ py_iter resource_access = Return entries
    /\ ((py_any (has_id permission_id) entries = Return true /\ ga' = ga)
        \/ (py_any (has_id permission_id) entries = Return false
            /\ resource_access = PList entries
            /\ ga' = extend_access ga [new_access permission_id pt])).
Proof.
  unfold add_permission. intros H.
  apply obind_returns in H. destruct H as (pid & Hpid & H).
  apply obind_returns in H. destruct H as (ral & Hral & H).
  apply obind_returns in H. destruct H as (entries & Hentries & H).
  apply obind_returns in H. destruct H as (present & Hany & H).
  exists pid, ral, entries. repeat split; auto.
  destruct present.
  - left. inversion H. auto.
  - right. rewrite Hral in H. simpl in H.
    apply obind_returns in H. destruct H as (appended & Happ & H).
    destruct ral as [ | | | |xs| ]; simpl in Happ; try discriminate.
    simpl in Hentries. inversion Hentries; subst entries.
    inversion Happ; subst appended. inversion H; subst ga'.
    repeat split; auto.
    destruct ga as [ | | | | |kvs]; simpl in Hral; try discriminate.
    destruct (dict_lookup "resourceAccess" kvs) as [v|] eqn:Hl; [|discriminate].
    inversion Hral; subst v. simpl. now rewrite Hl.
Qed.

Lemma has_id_new_access permission_id pt :
  has_id permission_id (new_access permission_id pt) = Return true.
Proof. unfold has_id. simpl. now rewrite py_eq_refl. Qed.

(** Once [add_permission] has returned, the permission is in the entry,
    and stays there whatever is appended later. *)
Lemma add_permission_stable ga permission_def pt ga' later :
  add_permission ga permission_def pt = Return ga' ->
  add_permission (extend_access ga' later) permission_def pt
  = Return (extend_access ga' later).
Proof.
  intros H. apply add_permission_returns in H.
  destruct H as (pid & ral & entries & Hpid & Hral & Hentries & Hcase).
  assert (Hpresent : forall xs added,
             getitem ga (PStr "resourceAccess") = Return (PList xs) ->
             py_any (has_id pid) (xs ++ added) = Return true ->
             add_permission (extend_access ga added) permission_def pt
             = Return (extend_access ga added)).
  { intros xs added Hxs Hany. unfold add_permission.
    rewrite Hpid. simpl.
    rewrite (getitem_extend_access_list _ _ _ Hxs). simpl.
    now rewrite Hany. }
  destruct Hcase as [[Hany ->] | (Hany & -> & ->)].
  - assert (Hother : (forall xs, ral <> PList xs) ->
                     add_permission (extend_access ga later) permission_def pt
                     = Return (extend_access ga later)).
    { intros Hnl.
      destruct ga as [ | | | | |kvs]; simpl in Hral; try discriminate.
      unfold extend_access.
      destruct (dict_lookup "resourceAccess" kvs) as [v|] eqn:Hl; [|discriminate].
      inversion Hral; subst v.
      destruct ral as [ | | | |xs| ]; try (now destruct (Hnl xs));
        simpl in Hentries; try discriminate;
        injection Hentries as <-;
        unfold add_permission; rewrite Hpid; cbn [obind getitem];
        rewrite Hl; cbn [obind py_iter]; now rewrite Hany. }
    destruct ral as [ | | | |xs| ]; try (apply Hother; discriminate).
    simpl in Hentries. inversion Hentries; subst entries.
    apply (Hpresent xs later Hral). now apply py_any_true_app.
  - rewrite extend_access_app.
    simpl in Hentries.
    apply (Hpresent entries _ Hral).
    change ([new_access pid pt] ++ later) with (new_access pid pt :: later).
    apply py_any_found.
    + now apply py_any_false.
    + apply has_id_new_access.
Qed.

Lemma process_permission_returns graph_permissions ga permission ga' :
  process_permission graph_permissions ga permission = Return ga' ->
  exists added, ga' = extend_access ga added.
Proof.
  unfold process_permission. intros H.
  apply obind_returns in H. destruct H as (pt & _ & H).
  apply obind_returns in H. destruct H as (def & _ & H).
  destruct (negb (truthy def)).
  - inversion H. exists []. now rewrite extend_access_nil.
  - apply add_permission_returns in H.
    destruct H as (pid & ral & entries & _ & _ & _ & [[_ ->] | (_ & _ & ->)]).
    + exists []. now rewrite extend_access_nil.
    + eauto.
Qed.

Lemma process_permission_stable graph_permissions ga permission ga' later :
  process_permission graph_permissions ga permission = Return ga' ->
  process_permission graph_permissions (extend_access ga' later) permission
  = Return (extend_access ga' later).
Proof.
  unfold process_permission. intros H.
  apply obind_returns in H. destruct H as (pt & Hpt & H).
  apply obind_returns in H. destruct H as (def & Hdef & H).
  rewrite Hpt. simpl. rewrite Hdef. simpl.
  destruct (negb (truthy def)); [reflexivity|].
  eapply add_permission_stable; eauto.
Qed.

(** *** The loop *)

Lemma process_permissions_returns graph_permissions ps ga ga' :
  process_permissions graph_permissions ga ps = Return ga' ->
  exists added, ga' = extend_access ga added.
Proof.
  revert ga. induction ps as [|p ps IH]; simpl; intros ga H.
  - inversion H. exists []. now rewrite extend_access_nil.
  - apply obind_returns in H. destruct H as (ga1 & H1 & H).
    apply process_permission_returns in H1. destruct H1 as (xs & ->).
    apply IH in H. destruct H as (ys & ->).
    rewrite extend_access_app. eauto.
Qed.

Lemma process_permissions_stable graph_permissions ps ga ga' later :
  process_permissions graph_permissions ga ps = Return ga' ->
  process_permissions graph_permissions (extend_access ga' later) ps
  = Return (extend_access ga' later).
Proof.
  revert ga later. induction ps as [|p ps IH]; simpl; intros ga later H.
  - reflexivity.
  - apply obind_returns in H. destruct H as (ga1 & H1 & H).
    destruct (process_permissions_returns _ _ _ _ H) as (xs & ->).
    rewrite extend_access_app.
    rewrite (process_permission_stable _ _ _ _ _ H1). simpl.
    rewrite <- extend_access_app. eapply IH; eauto.
Qed.
(** *** Locating the Microsoft Graph entry *)

Lemma bound_eq_by_lookup eq (kws : items) seen (l : items) k v :
  bound_eq_by eq kws seen l = true ->
  dict_lookup k l = Some v -> ~ In k seen ->
  exists w, dict_lookup k kws = Some w /\ eq v w = true.
Proof.
  revert seen. induction l as [|[k1 v1] l IH]; simpl; intros seen H Hl Hseen;
    [discriminate|].
  apply andb_prop in H. destruct H as [Hhead Hrest].
  destruct (String.eqb_spec k k1) as [->|Hne].
  - inversion Hl; subst v1.
    destruct (str_mem k1 seen) eqn:Hmem.
    + apply str_mem_In in Hmem. contradiction.
    + destruct (dict_lookup k1 kws) as [w|]; [eauto | discriminate].
  - apply (IH (k1 :: seen)); auto.
    intros [Heq|Hin]; [congruence | contradiction].
Qed.

(** An element equal to the default entry is an entry of Microsoft
    Graph: the search would have found it. *)
Lemma py_eq_default_is_graph_entry e :
  py_eq e default_graph_access = true -> is_graph_entry e = Return true.
Proof.
  destruct e as [ | | | | |kvs]; simpl; try discriminate.
  intros H. apply andb_prop in H. destruct H as [Hsub Hkeys].
  apply andb_prop in Hkeys. destruct Hkeys as [Hkey _]. simpl in Hkey.
  unfold dict_has in Hkey.
  destruct (dict_lookup "resourceAppId" kvs) as [v|] eqn:Hl; [|discriminate].
  destruct (bound_eq_by_lookup _ _ _ _ _ _ Hsub Hl) as (w & Hw & Heq); [tauto|].
  simpl in Hw. inversion Hw; subst w.
  unfold is_graph_entry. simpl. rewrite Hl. simpl. now rewrite Heq.
Qed.

Lemma default_not_among xs :
  Forall (fun e => is_graph_entry e = Return false) xs ->
  existsb (fun e => py_eq e default_graph_access) xs = false.
Proof.
  induction 1 as [|e xs He _ IH]; simpl; [reflexivity|].
  rewrite IH, orb_false_r.
  destruct (py_eq e default_graph_access) eqn:Heq; [|reflexivity].
  apply py_eq_default_is_graph_entry in Heq. congruence.
Qed.

(** [locate_graph_access] returns on lists only, with the first entry of
    Microsoft Graph or, when there is none, with the default appended. *)
Lemma locate_graph_access_returns ra st :
  locate_graph_access ra = Return st ->
  exists xs,
    ra = PList xs
    /\ ((exists i e,
            find_first is_graph_entry xs 0 = Return (Some (i, e))
            /\ st = {| required_access := PList xs; slot := Some i;
                       graph_access := e |})
        \/ (Forall (fun e => is_graph_entry e = Return false) xs
            /\ st = {| required_access := PList (xs ++ [default_graph_access]);
                       slot := Some (length xs);
                       graph_access := default_graph_access |})).
Proof.
  unfold locate_graph_access, find_graph_access. intros H.
  destruct ra as [ | | |s|xs|kvs]; simpl in H; try discriminate.
  - destruct s as [|c s]; simpl in H; discriminate.
  - exists xs. split; [reflexivity|].
    destruct (find_first is_graph_entry xs 0) as [[[i e]|]|err] eqn:Hf;
      simpl in H; try discriminate.
    + left. exists i, e. split; [reflexivity | congruence].
    + right. apply find_first_none in Hf.
      rewrite (default_not_among _ Hf) in H. simpl in H.
      split; [assumption | congruence].
  - destruct kvs as [|[k v] kvs]; simpl in H; discriminate.
Qed.

Lemma locate_graph_access_found xs i e :
  find_first is_graph_entry xs 0 = Return (Some (i, e)) ->
  locate_graph_access (PList xs)
  = Return {| required_access := PList xs; slot := Some i; graph_access := e |}.
Proof.
  intros Hf. unfold locate_graph_access, find_graph_access. simpl.
  now rewrite Hf.
Qed.

(** *** The merge as a whole *)

Lemma merge_permissions_returns graph_permissions ra permissions ra' :
  merge_permissions graph_permissions ra permissions = Return ra' ->
  exists xs ps,
    ra = PList xs /\ py_iter permissions = Return ps
    /\ ((exists pre e post ga',
            xs = pre ++ e :: post
            /\ Forall (fun x => is_graph_entry x = Return false) pre
            /\ is_graph_entry e = Return true
            /\ process_permissions graph_permissions e ps = Return ga'
            /\ ra' = PList (pre ++ ga' :: post))
        \/ (exists ga',
            Forall (fun x => is_graph_entry x = Return false) xs
            /\ process_permissions graph_permissions default_graph_access ps
               = Return ga'
            /\ ra' = PList (xs ++ [ga']))).
Proof.
  unfold merge_permissions. intros H.
  apply obind_returns in H. destruct H as (st & Hst & H).
  apply obind_returns in H. destruct H as (ps & Hps & H).
  apply obind_returns in H. destruct H as (ga' & Hloop & H).
  inversion H; subst ra'. clear H.
  apply locate_graph_access_returns in Hst.
  destruct Hst as (xs & -> & [(i & e & Hf & ->) | (Hnone & ->)]);
    exists xs, ps; (split; [reflexivity|]); (split; [assumption|]);
    simpl in Hloop.
  - left. apply find_first_some in Hf.
    destruct Hf as (pre & post & -> & -> & Hpre & He).
    exists pre, e, post, ga'. repeat split; auto.
    unfold store_back. simpl. f_equal.
    replace (length pre) with (length pre + 0)%nat by lia.
    now rewrite insert_app_r.
  - right. exists ga'. repeat split; auto.
    unfold store_back. simpl. f_equal.
    replace (length xs) with (length xs + 0)%nat by lia.
    now rewrite insert_app_r.
Qed.

Lemma merge_permissions_found graph_permissions pre e post permissions ps ga' :
  Forall (fun x => is_graph_entry x = Return false) pre ->
  is_graph_entry e = Return true ->
  py_iter permissions = Return ps ->
  process_permissions graph_permissions e ps = Return ga' ->
  merge_permissions graph_permissions (PList (pre ++ e :: post)) permissions
  = Return (PList (pre ++ ga' :: post)).
Proof.
  intros Hpre He Hps Hloop. unfold merge_permissions.
  rewrite (locate_graph_access_found _ (0 + length pre)%nat e).
  - simpl. rewrite Hps. simpl. rewrite Hloop. simpl.
    unfold store_back. simpl. f_equal.
    replace (length pre) with (length pre + 0)%nat by lia.
    now rewrite insert_app_r.
  - apply find_first_some. eauto 6.
Qed.
Lemma is_graph_entry_default :
  is_graph_entry default_graph_access = Return true.
Proof. reflexivity. Qed.

(** A merge applied to its own result returns it again. *)
Lemma merge_permissions_twice graph_permissions required_access permissions merged :
  merge_permissions graph_permissions required_access permissions = Return merged ->
  merge_permissions graph_permissions merged permissions = Return merged.
Proof.
  intros H. apply merge_permissions_returns in H.
  destruct H as (xs & ps & -> & Hps
                 & [(pre & e & post & ga' & -> & Hpre & He & Hloop & ->)
                   | (ga' & Hnone & Hloop & ->)]);
    destruct (process_permissions_returns _ _ _ _ Hloop) as (added & Hga');
    apply (merge_permissions_found _ _ _ _ _ ps); auto.
  - rewrite Hga'. now rewrite is_graph_entry_extend_access.
  - rewrite <- (extend_access_nil ga').
    eapply process_permissions_stable; eauto.
  - rewrite Hga'. now rewrite is_graph_entry_extend_access.
  - rewrite <- (extend_access_nil ga').
    eapply process_permissions_stable; eauto.
Qed.

(** [add_permission] leaves the entry alone or appends one element, and it
    appends only when no element of the access list has the id. *)
Lemma add_permission_appends_if_absent ga permission_def pt ga' :
  add_permission ga permission_def pt = Return ga' ->
  ga' = ga
  \/ exists permission_id entries,
      getitem permission_def (PStr "id") = Return permission_id
      /\ getitem ga (PStr "resourceAccess") = Return (PList entries)
      /\ Forall (fun ra => has_id permission_id ra = Return false) entries
      /\ ga' = extend_access ga [new_access permission_id pt].
Proof.
  intros Hadd. apply add_permission_returns in Hadd.
  destruct Hadd as (pid & ral & entries & Hpid & Hral & _
                    & [[_ ->] | (Hany & -> & ->)]).
  - now left.
  - right. exists pid, entries. repeat split; auto.
    now apply py_any_false.
Qed.

(** The merge only appends: an entry that is not the first one of
    Microsoft Graph is where it was, as it was, and every entry is where
    it was with an access list that starts with the elements it had. *)
Lemma merge_permissions_frame graph_permissions old permissions merged :
  merge_permissions graph_permissions (PList old) permissions = Return merged ->
  exists new,
    merged = PList new
    /\ (length old <= length new <= length old + 1)%nat
    /\ (forall j e, old !! j = Some e ->
                    is_graph_entry e <> Return true -> new !! j = Some e)
    /\ (forall j e, old !! j = Some e ->
                    exists added, new !! j = Some (extend_access e added))
    /\ (forall j e, old !! j = Some e ->
                    (exists i e', (i < j)%nat /\ old !! i = Some e'
                                  /\ is_graph_entry e' = Return true) ->
                    new !! j = Some e).
Proof.
  intros H. apply merge_permissions_returns in H.
  destruct H as (xs & ps & Hxs & Hps
                 & [(pre & e & post & ga' & -> & Hpre & He & Hloop & ->)
                   | (ga' & Hnone & Hloop & ->)]);
    inversion Hxs; subst old; clear Hxs.
  - destruct (process_permissions_returns _ _ _ _ Hloop) as (added & ->).
    exists (pre ++ extend_access e added :: post).
    split; [reflexivity|].
    assert (Hother : forall j e0, (pre ++ e :: post) !! j = Some e0 ->
                       j <> length pre ->
                       (pre ++ extend_access e added :: post) !! j = Some e0).
    { intros j e0 Hj Hne.
      destruct (Nat.lt_ge_cases j (length pre)) as [Hlt|Hge].
      - rewrite lookup_app_l in Hj by assumption.
        now rewrite lookup_app_l by assumption.
      - rewrite lookup_app_r in Hj by assumption.
        rewrite lookup_app_r by assumption.
        destruct (j - length pre)%nat eqn:Hd; [lia | exact Hj]. }
    assert (Hat : forall e0, (pre ++ e :: post) !! length pre = Some e0 -> e0 = e).
    { intros e0. rewrite list_lookup_middle by reflexivity. congruence. }
    repeat split.
    + rewrite !length_app. simpl. lia.
    + rewrite !length_app. simpl. lia.
    + intros j e0 Hj Hng. apply Hother; auto.
      intros ->. apply Hat in Hj. congruence.
    + intros j e0 Hj. destruct (decide (j = length pre)) as [->|Hne].
      * apply Hat in Hj. subst e0. exists added.
        now rewrite list_lookup_middle.
      * exists []. rewrite extend_access_nil. now apply Hother.
    + intros j e0 Hj (i & e' & Hlt & Hi & He'). apply Hother; auto.
      intros ->. rewrite lookup_app_l in Hi by assumption.
      apply list_elem_of_lookup_2 in Hi.
      rewrite Forall_forall in Hpre.
      apply Hpre in Hi. congruence.
  - destruct (process_permissions_returns _ _ _ _ Hloop) as (added & ->).
    exists (xs ++ [extend_access default_graph_access added]).
    split; [reflexivity|].
    repeat split.
    + rewrite length_app. simpl. lia.
    + rewrite length_app. simpl. lia.
    + intros j e0 Hj _. now apply lookup_app_l_Some.
    + intros j e0 Hj. exists []. rewrite extend_access_nil.
      now apply lookup_app_l_Some.
    + intros j e0 Hj _. now apply lookup_app_l_Some.
Qed.
(** *** Classification and resolution *)

Lemma str_split_nonempty c s : str_split c s <> [].
Proof.
  destruct s as [|a s]; simpl; [discriminate|].
  destruct (Ascii.eqb a c); [discriminate|].
  destruct (str_split c s); discriminate.
Qed.

Lemma lookup_last_segment (segs : list string) :
  segs <> [] ->
  map PStr segs !! (length segs - 1)%nat = Some (PStr (last_segment_of segs)).
Proof.
  induction segs as [|s segs IH]; [congruence|]. intros _.
  destruct segs as [|t segs]; [reflexivity|].
  assert (Hne : t :: segs <> []) by discriminate.
  specialize (IH Hne). simpl in IH. rewrite Nat.sub_0_r in IH.
  simpl. exact IH.
Qed.

Lemma getitem_last (segs : list string) :
  segs <> [] ->
  getitem (PList (map PStr segs)) (PInt (-1))
  = Return (PStr (last_segment_of segs)).
Proof.
  intros Hne. unfold getitem, as_index, seq_index.
  rewrite length_map.
  assert (Hlen : (0 < length segs)%nat) by (destruct segs; simpl; [congruence|lia]).
  replace (0 <=? -1) with false by reflexivity. simpl andb at 1.
  replace (-1 <? 0) with true by reflexivity.
  replace (0 <=? -1 + Z.of_nat (length segs)) with true
    by (symmetry; apply Z.leb_le; lia).
  simpl andb.
  replace (Z.to_nat (-1 + Z.of_nat (length segs))) with (length segs - 1)%nat by lia.
  now rewrite lookup_last_segment.
Qed.

(** A name is classified as delegated when it has a dot and its last
    segment is not [All], and as application in every other case. *)
Lemma classify_permission_str (s : string) :
  classify_permission (PStr s)
  = Return (if str_contains s "." && negb (String.eqb (last_segment s) "All")
            then Delegated else Application).
Proof.
  unfold classify_permission. cbn [py_contains obind].
  destruct (str_contains s "."); [|reflexivity].
  cbn [py_split obind andb].
  rewrite getitem_last by apply str_split_nonempty.
  cbn [obind py_eq]. fold (last_segment s).
  now destruct (String.eqb (last_segment s) "All").
Qed.

Lemma has_name_str s p :
  has_name (PStr s) p = Return true <-> getitem p (PStr "value") = Return (PStr s).
Proof.
  unfold has_name. destruct (getitem p (PStr "value")) as [v|e]; simpl.
  - split; intros H.
    + inversion H as [Heq]. apply py_eq_str in Heq. now subst.
    + inversion H. now rewrite py_eq_refl.
  - split; discriminate.
Qed.

Lemma has_name_other s p :
  has_name (PStr s) p = Return false <->
  exists v, getitem p (PStr "value") = Return v /\ v <> PStr s.
Proof.
  unfold has_name. destruct (getitem p (PStr "value")) as [v|e]; simpl.
  - split.
    + intros H. inversion H as [Heq]. apply py_eq_str_false in Heq. eauto.
    + intros (v' & Hv & Hne). inversion Hv; subst v'.
      apply py_eq_str_false in Hne. now rewrite Hne.
  - split; [discriminate | intros (v & Hv & _); discriminate].
Qed.

Lemma other_names_forall s entries :
  other_names s entries <->
  Forall (fun p => has_name (PStr s) p = Return false) entries.
Proof.
  unfold other_names. rewrite !Forall_forall. split; intros H p Hp.
  - apply has_name_other. auto.
  - apply has_name_other. auto.
Qed.

(** The definition that [find_permission_def] returns for a name is the
    first entry of the catalog of its kind whose ["value"] is that name,
    and [None] when no entry of that catalog has it. *)
Lemma find_permission_def_returns graph_permissions pt s permission_def :
  find_permission_def graph_permissions pt (PStr s) = Return permission_def ->
  exists catalog entries,
    dict_get graph_permissions (catalog_key pt) (PList []) = Return catalog
    /\ py_iter catalog = Return entries
    /\ ((permission_def = PNone /\ other_names s entries)
        \/ (exists before after,
               entries = before ++ permission_def :: after
               /\ other_names s before
               /\ getitem permission_def (PStr "value") = Return (PStr s))).
Proof.
  unfold find_permission_def. intros H.
  apply obind_returns in H. destruct H as (catalog & Hcat & H).
  apply obind_returns in H. destruct H as (entries & Hentries & H).
  apply obind_returns in H. destruct H as (found & Hfound & H).
  exists catalog, entries. repeat split; auto.
  destruct found as [[i p]|]; inversion H; subst permission_def.
  - right. apply find_first_some in Hfound.
    destruct Hfound as (before & after & -> & _ & Hbefore & Hp).
    exists before, after. repeat split.
    + now apply other_names_forall.
    + now apply has_name_str.
  - left. split; [reflexivity|].
    apply other_names_forall. exact (proj1 (find_first_none _ _ 0) Hfound).
Qed.

(** *** A name that is in neither catalog *)

Lemma find_permission_def_unknown graph_permissions pt s :
  unknown_permission graph_permissions s ->
  find_permission_def graph_permissions pt (PStr s) = Return PNone.
Proof.
  intros Hu. unfold find_permission_def.
  destruct (Hu (catalog_key pt)) as (entries & Hcat & Hentries).
  { destruct pt; simpl; auto. }
  rewrite Hcat. simpl.
  assert (Hf : find_first (has_name (PStr s)) entries 0 = Return None).
  { apply find_first_none. now apply other_names_forall. }
  now rewrite Hf.
Qed.

Lemma process_permission_unknown graph_permissions ga s :
  unknown_permission graph_permissions s ->
  process_permission graph_permissions ga (PStr s) = Return ga.
Proof.
  intros Hu. unfold process_permission.
  rewrite classify_permission_str. simpl.
  now rewrite find_permission_def_unknown.
Qed.


Lemma classify_permission_kind (s : string) :
  classify_permission (PStr s) = Return (permission_kind s).
Proof. apply classify_permission_str. Qed.

(** C6, as the code has it.  A requested name is classified as delegated
    when it has a dot and its last dot-separated segment is not [All],
    and as application otherwise: when that segment is [All], and also
    when the name has no dot.  An application name is looked up among the
    application roles of the catalog and a delegated one among its
    delegated scopes; the definition found is the first entry whose
    ["value"] is exactly the name, and there is none when no entry of that
    catalog has it. *)
Theorem permission_classification_and_resolution
    (graph_permissions ga : value) (s : string) :
  classify_permission (PStr s) = Return (permission_kind s)
  /\ (last_segment s = "All" -> permission_kind s = Application)
  /\ (str_contains s "." = false -> permission_kind s = Application)
  /\ (str_contains s "." = true -> last_segment s <> "All" ->
      permission_kind s = Delegated)
  /\ catalog_key Application = "appRoles"
  /\ catalog_key Delegated = "oauth2PermissionScopes"
  /\ process_permission graph_permissions ga (PStr s)
     = (let? permission_def :=
          find_permission_def graph_permissions (permission_kind s) (PStr s) in
        if negb (truthy permission_def) then Return ga
        else add_permission ga permission_def (permission_kind s))
  /\ (forall permission_def,
         find_permission_def graph_permissions (permission_kind s) (PStr s)
           = Return permission_def ->
         exists catalog entries,
           dict_get graph_permissions (catalog_key (permission_kind s)) (PList [])
             = Return catalog
           /\ py_iter catalog = Return entries
           /\ ((permission_def = PNone /\ other_names s entries)
               \/ (exists before after,
                      entries = before ++ permission_def :: after
                      /\ other_names s before
                      /\ getitem permission_def (PStr "value")
                         = Return (PStr s)))).
Proof.
  repeat split.
  - apply classify_permission_kind.
  - intros H. unfold permission_kind. rewrite H. simpl.
    now rewrite andb_false_r.
  - intros H. unfold permission_kind. now rewrite H.
  - intros Hdot Hlast. unfold permission_kind. rewrite Hdot.
    apply String.eqb_neq in Hlast. now rewrite Hlast.
  - unfold process_permission. now rewrite classify_permission_kind.
  - intros permission_def H. now apply find_permission_def_returns.
Qed.
End MergeFacts.

(** ** The Graph client *)

Section ClientFacts.
Import GraphService.
Context {Env : Type} {X : External Env}.

Lemma sent_app t1 t2 : sent (t1 ++ t2) = sent t1 ++ sent t2.
Proof.
  induction t1 as [|[scope|rq|text] t1 IH]; simpl; auto. now rewrite IH.
Qed.

(** *** The token cache *)

Lemma truthy_str t : t <> "" -> truthy (PStr t) = true.
Proof.
  intros H. simpl. destruct (String.eqb_spec t ""); [contradiction | reflexivity].
Qed.

Lemma token_is_valid_true w t e' :
  cache_valid w t e' ->
  token_is_valid w
  = (Return true, {| env := e'; token := token w;
                     token_expires := token_expires w; trace := trace w |}).
Proof.
  intros (x & n & Ht & Hne & Hx & Hnow & Hlt).
  unfold token_is_valid, bind, read_token, read_token_expires.
  rewrite Ht, Hx, (truthy_str _ Hne). unfold now. simpl.
  rewrite Hnow. unfold ret.
  replace (n <? x) with true by (symmetry; apply Z.ltb_lt; lia).
  now rewrite Ht, Hx.
Qed.

Lemma token_is_valid_false w e' :
  cache_stale w e' ->
  token_is_valid w
  = (Return false, {| env := e'; token := token w;
                      token_expires := token_expires w; trace := trace w |}).
Proof.
  unfold token_is_valid, bind, read_token, read_token_expires.
  intros [[Hmiss ->] | (t & x & n & Ht & Hne & Hx & Hnow & Hle)].
  - destruct w as [e tok ex tr]; simpl in *.
    destruct Hmiss as [H | [H | H]]; subst.
    + reflexivity.
    + destruct ex; reflexivity.
    + destruct tok; reflexivity.
  - rewrite Ht, Hx, (truthy_str _ Hne). unfold now. simpl.
    rewrite Hnow. unfold ret.
    replace (n <? x) with false by (symmetry; apply Z.ltb_ge; lia).
    now rewrite Ht, Hx.
Qed.

(** Every state of the cache is one or the other. *)
Lemma cache_valid_or_stale w :
  (exists t e', cache_valid w t e') \/ (exists e', cache_stale w e').
Proof.
  destruct (token w) as [t|] eqn:Ht.
  2: { right. exists (env w). left. auto. }
  destruct (String.eqb_spec t "") as [->|Hne].
  { right. exists (env w). left. auto. }
  destruct (token_expires w) as [x|] eqn:Hx.
  2: { right. exists (env w). left. auto. }
  destruct (datetime_now (env w)) as [n e'] eqn:Hnow.
  destruct (Z.lt_ge_cases n x) as [Hlt|Hge].
  - left. exists t, e', x, n. auto.
  - right. exists e'. right. exists t, x, n. auto.
Qed.

Lemma _get_token_reuses w t e' :
  cache_valid w t e' ->
  _get_token w
  = (Return t, {| env := e'; token := Some t;
                  token_expires := token_expires w; trace := trace w |}).
Proof.
  intros Hv. unfold _get_token. unfold bind at 1.
  rewrite (token_is_valid_true _ _ _ Hv).
  destruct Hv as (x & n & Ht & _). unfold bind, read_token. simpl.
  rewrite Ht. reflexivity.
Qed.

Lemma _get_token_refreshes w e0 :
  cache_stale w e0 ->
  _get_token w
  = match credential_get_token graph_scope e0 with
    | (Return tr, e1) =>
        let (n, e2) := datetime_now e1 in
        match cached_expiry n tr with
        | Return x =>
            (Return (tr_token tr),
             {| env := e2; token := Some (tr_token tr);
                token_expires := Some x;
                trace := trace w ++ [EvGetToken graph_scope] |})
        | Raise e =>
            (Raise e,
             {| env := e2; token := Some (tr_token tr);
                token_expires := token_expires w;
                trace := trace w ++ [EvGetToken graph_scope] |})
        end
    | (Raise e, e1) =>
        (Raise e, {| env := e1; token := token w;
                     token_expires := token_expires w;
                     trace := trace w ++ [EvGetToken graph_scope] |})
    end.
Proof.
  intros Hs. unfold _get_token. unfold bind at 1.
  rewrite (token_is_valid_false _ _ Hs).
  unfold bind at 1. unfold read_token at 1. simpl.
  unfold bind at 1. unfold get_token_call at 1. simpl.
  destruct (credential_get_token graph_scope e0) as [[tr|e] e1]; [|reflexivity].
  unfold bind, write_token, write_token_expires, now, lift, ret, cached_expiry.
  simpl. destruct (datetime_now e1) as [n e2].
  destruct (timedelta_seconds (tr_expires_on tr - 300)) as [margin|e];
    [|reflexivity].
  simpl. destruct (datetime_add n margin); reflexivity.
Qed.

(** [_get_token] sends no request. *)
Lemma _get_token_sent w r w' :
  _get_token w = (r, w') -> sent (trace w') = sent (trace w).
Proof.
  destruct (cache_valid_or_stale w) as [(t & e' & Hv) | (e' & Hs)].
  - rewrite (_get_token_reuses _ _ _ Hv). intros H. now inversion H.
  - rewrite (_get_token_refreshes _ _ Hs).
    destruct (credential_get_token graph_scope e') as [[tr|e] e1].
    + destruct (datetime_now e1) as [n e2].
      destruct (cached_expiry n tr); intros H; inversion H; simpl;
        rewrite sent_app; simpl; now rewrite app_nil_r.
    + intros H. inversion H. simpl.
      rewrite sent_app. simpl. now rewrite app_nil_r.
Qed.

(** *** Requests *)

Lemma authorized_request_sent tok method endpoint data params w r w' :
  authorized_request tok method endpoint data params w = (r, w') ->
  sent (trace w') = sent (trace w) ++ [(method, base_url +:+ endpoint, data)].
Proof.
  unfold authorized_request, try_except, bind, send, raise, lift, ret.
  destruct (requests_request _ (env w)) as [[resp|e] e1].
  - destruct (raise_for_status _ resp).
    + destruct (status_code resp =? 204); [|destruct (json_body resp)];
        intros H; injection H as _ <-; cbn [trace]; now rewrite sent_app.
    + intros H; injection H as _ <-; cbn [trace]; now rewrite sent_app.
  - intros H; injection H as _ <-; cbn [trace]; now rewrite sent_app.
Qed.

(** A request that returns has been sent, once. *)
Lemma _make_request_sent method endpoint data params w v w' :
  _make_request method endpoint data params w = (Return v, w') ->
  sent (trace w') = sent (trace w) ++ [(method, base_url +:+ endpoint, data)].
Proof.
  unfold _make_request, bind.
  destruct (_get_token w) as [[tok|e] w1] eqn:Htok; [|discriminate].
  intros H. apply authorized_request_sent in H.
  now rewrite (_get_token_sent _ _ _ Htok) in H.
Qed.
Lemma lift_returns {A : Type} (o : outcome A) (w w' : world Env) a :
  lift o w = (Return a, w') -> o = Return a /\ w' = w.
Proof. unfold lift. intros H. now inversion H. Qed.

Lemma cached_expiry_returns n tr x :
  cached_expiry n tr = Return x ->
  x = n + microseconds (tr_expires_on tr) - microseconds 300
  /\ 0 <= x <= datetime_max.
Proof.
  unfold cached_expiry, timedelta_seconds, datetime_add. cbv zeta.
  destruct (_ || _); [discriminate|]. destruct (_ || _); [discriminate|].
  cbn [obind].
  destruct ((0 <=? n + microseconds (tr_expires_on tr - 300))
            && (n + microseconds (tr_expires_on tr - 300) <=? datetime_max))
    eqn:Hrange; [|discriminate].
  intros H. inversion H; subst x. apply andb_prop in Hrange.
  destruct Hrange as [Hlo Hhi]. apply Z.leb_le in Hlo. apply Z.leb_le in Hhi.
  unfold microseconds in *. lia.
Qed.

Lemma cached_expiry_raises n tr e :
  cached_expiry n tr = Raise e -> exists message, e = OverflowError message.
Proof.
  unfold cached_expiry, timedelta_seconds, datetime_add. cbv zeta.
  destruct (_ || _); [intros H; inversion H; eauto|].
  destruct (_ || _); [intros H; inversion H; eauto|].
  cbn [obind]. destruct (_ && _); [discriminate|].
  intros H. inversion H. eauto.
Qed.

(** Every request starts with [_get_token].  While the cached token is
    usable (set, and the clock before the cached expiry) it is returned as
    it is and nothing is fetched.  When it is not (no token, or the clock
    at or past the cached expiry) one token is fetched from the credential
    provider and the clock is read; the token is cached with the clock
    reading plus [expires_on] seconds minus 300 seconds.  That instant is
    later than five minutes before the expiry of the token by the time
    that has passed since 1970.  When it is not a [datetime] at all, the
    [OverflowError] leaves the method with the new token in the cache and
    the old expiry beside it. *)
Lemma token_cache (w : world Env) :
  (forall method endpoint data params,
      _make_request method endpoint data params w
      = (let! tok := _get_token in
         authorized_request tok method endpoint data params) w)
  /\ (forall t e',
         cache_valid w t e' ->
         _get_token w
         = (Return t, {| env := e'; token := Some t;
                         token_expires := token_expires w; trace := trace w |}))
  /\ (forall e0 tr e1 n e2 x,
         cache_stale w e0 ->
         credential_get_token graph_scope e0 = (Return tr, e1) ->
         datetime_now e1 = (n, e2) ->
         cached_expiry n tr = Return x ->
         _get_token w
         = (Return (tr_token tr),
            {| env := e2; token := Some (tr_token tr);
               token_expires := Some x;
               trace := trace w ++ [EvGetToken graph_scope] |})
         /\ x = n + microseconds (tr_expires_on tr) - microseconds 300
         /\ x - (expiry_instant tr - microseconds 300) = n - unix_epoch)
  /\ (forall e0 tr e1 n e2 e,
         cache_stale w e0 ->
         credential_get_token graph_scope e0 = (Return tr, e1) ->
         datetime_now e1 = (n, e2) ->
         cached_expiry n tr = Raise e ->
         _get_token w
         = (Raise e,
            {| env := e2; token := Some (tr_token tr);
               token_expires := token_expires w;
               trace := trace w ++ [EvGetToken graph_scope] |})
         /\ exists message, e = OverflowError message)
  /\ (forall e0 e e1,
         cache_stale w e0 ->
         credential_get_token graph_scope e0 = (Raise e, e1) ->
         _get_token w
         = (Raise e, {| env := e1; token := token w;
                        token_expires := token_expires w;
                        trace := trace w ++ [EvGetToken graph_scope] |})).
Proof.
  split; [reflexivity|]. split; [|split; [|split]].
  - intros t e' Hv. now apply _get_token_reuses.
  - intros e0 tr e1 n e2 x Hs Hfetch Hnow Hx.
    rewrite (_get_token_refreshes _ _ Hs), Hfetch, Hnow, Hx.
    split; [reflexivity|]. apply cached_expiry_returns in Hx.
    destruct Hx as [-> _]. split; [reflexivity|].
    unfold expiry_instant. lia.
  - intros e0 tr e1 n e2 e Hs Hfetch Hnow Hx.
    rewrite (_get_token_refreshes _ _ Hs), Hfetch, Hnow, Hx.
    split; [reflexivity|]. eapply cached_expiry_raises; eauto.
  - intros e0 e e1 Hs Hfetch.
    now rewrite (_get_token_refreshes _ _ Hs), Hfetch.
Qed.

(** *** [add_required_permissions] *)

(** The steps of a call that returns: the two reads, the merge, the update. *)
Lemma add_required_permissions_returns app_id permissions w r w' :
  truthy permissions = true ->
  add_required_permissions app_id permissions w = (Return r, w') ->
  exists app w1 graph_permissions w2 ra merged,
    _make_request "GET" ("/applications/" +:+ py_str app_id) PNone PNone w
      = (Return app, w1)
    /\ fetch_graph_permissions w1 = (Return graph_permissions, w2)
    /\ dict_get app "requiredResourceAccess" (PList []) = Return ra
    /\ merge_permissions graph_permissions ra permissions = Return merged
    /\ sent (trace w')
       = sent (trace w)
         ++ [("GET", application_url app_id, PNone);
             ("GET", base_url +:+ catalog_endpoint, PNone);
             ("PATCH", application_url app_id,
               PDict [("requiredResourceAccess", merged)])].
Proof.
  intros Htruthy H. unfold add_required_permissions in H.
  rewrite Htruthy in H. change (negb true) with false in H. cbv iota in H.
  apply bind_returns in H. destruct H as (app & w1 & Happ & H).
  apply bind_returns in H. destruct H as (gp & w2 & Hgp & H).
  apply bind_returns in H. destruct H as (ra & w3 & Hra & H).
  apply lift_returns in Hra. destruct Hra as [Hra ->].
  apply bind_returns in H. destruct H as (merged & w4 & Hmerged & H).
  apply lift_returns in Hmerged. destruct Hmerged as [Hmerged ->].
  apply bind_returns in H. destruct H as (u & w5 & Hpatch & H).
  unfold ret in H. inversion H; subst r w5. clear H.
  exists app, w1, gp, w2, ra, merged. repeat split; auto.
  apply _make_request_sent in Hpatch. rewrite Hpatch.
  unfold fetch_graph_permissions in Hgp.
  apply bind_returns in Hgp. destruct Hgp as (listing & w6 & Hlist & Hgp).
  apply bind_returns in Hgp. destruct Hgp as (found & w7 & Hfound & Hgp).
  apply lift_returns in Hfound. destruct Hfound as [_ ->].
  apply lift_returns in Hgp. destruct Hgp as [_ ->].
  apply _make_request_sent in Hlist. rewrite Hlist.
  apply _make_request_sent in Happ. rewrite Happ.
  rewrite <- !app_assoc. reflexivity.
Qed.

Lemma bind_cases {V A B : Type} (m : M V A) (k : A -> M V B) (v v' : V) r :
  bind m k v = (r, v') ->
  (exists e, m v = (Raise e, v') /\ r = Raise e)
  \/ (exists x v1, m v = (Return x, v1) /\ k x v1 = (r, v')).
Proof.
  unfold bind. destruct (m v) as [[x|e] v1]; intros H.
  - right. eauto.
  - left. inversion H. eauto.
Qed.

(** A request is sent once, or not at all when no token could be had. *)
Lemma _make_request_trace method endpoint data params w r w' :
  _make_request method endpoint data params w = (r, w') ->
  sent (trace w') = sent (trace w) ++ [(method, base_url +:+ endpoint, data)]
  \/ sent (trace w') = sent (trace w).
Proof.
  unfold _make_request. intros H. apply bind_cases in H.
  destruct H as [(e & Htok & _) | (tok & w1 & Htok & H)].
  - right. eapply _get_token_sent; eauto.
  - left. apply authorized_request_sent in H.
    now rewrite (_get_token_sent _ _ _ Htok) in H.
Qed.

(** C10.  A call with permissions sends at most one update, after its two
    reads, and the [requiredResourceAccess] of that update keeps what the
    fetched application had: an entry that is not an entry of Microsoft
    Graph, or that comes after the first one, is where it was and as it
    was; every entry is where it was, and its access list starts with the
    elements it had, in their order. *)
Theorem add_required_permissions_frame
    (app_id permissions : value) (w w' : world Env) (r : outcome value) :
  truthy permissions = true ->
  add_required_permissions app_id permissions w = (r, w') ->
  (exists reads,
      sent (trace w') = sent (trace w) ++ reads /\ only_reads reads)
  \/ (exists app w1 old new,
         _make_request "GET" ("/applications/" +:+ py_str app_id) PNone PNone w
           = (Return app, w1)
         /\ dict_get app "requiredResourceAccess" (PList []) = Return (PList old)
         /\ sent (trace w')
            = sent (trace w)
              ++ [("GET", application_url app_id, PNone);
                  ("GET", base_url +:+ catalog_endpoint, PNone);
                  ("PATCH", application_url app_id,
                    PDict [("requiredResourceAccess", PList new)])]
         /\ (length old <= length new <= length old + 1)%nat
         /\ (forall j e, old !! j = Some e ->
                         is_graph_entry e <> Return true -> new !! j = Some e)
         /\ (forall j e, old !! j = Some e ->
                         (exists i e', (i < j)%nat /\ old !! i = Some e'
                                       /\ is_graph_entry e' = Return true) ->
                         new !! j = Some e)
         /\ (forall j e, old !! j = Some e ->
                         exists added, new !! j = Some (extend_access e added))
         /\ (forall j e xs, old !! j = Some e ->
                            getitem e (PStr "resourceAccess") = Return (PList xs) ->
                            exists e' added,
                              new !! j = Some e'
                              /\ getitem e' (PStr "resourceAccess")
                                 = Return (PList (xs ++ added)))).
Proof.
  intros Htruthy H. unfold add_required_permissions in H.
  rewrite Htruthy in H. change (negb true) with false in H. cbv iota in H.
  apply bind_cases in H.
  destruct H as [(e & Happ & _) | (app & w1 & Happ & H)].
  { left. destruct (_make_request_trace _ _ _ _ _ _ _ Happ) as [Hs | Hs].
    - eexists. split; [exact Hs|]. repeat constructor.
    - exists []. rewrite app_nil_r. split; [exact Hs | constructor]. }
  pose proof (_make_request_sent _ _ _ _ _ _ _ Happ) as Hs1.
  apply bind_cases in H.
  assert (Hcat : forall r0 (w2 : world Env),
             fetch_graph_permissions w1 = (r0, w2) ->
             sent (trace w2)
             = sent (trace w) ++ [("GET", application_url app_id, PNone);
                                  ("GET", base_url +:+ catalog_endpoint, PNone)]
             \/ sent (trace w2)
                = sent (trace w) ++ [("GET", application_url app_id, PNone)]).
  { intros r0 w2 Hf. unfold fetch_graph_permissions in Hf.
    assert (Hw2 : exists r1, _make_request "GET" catalog_endpoint PNone PNone w1
                             = (r1, w2)).
    { apply bind_cases in Hf.
      destruct Hf as [(e & Hl & _) | (listing & w3 & Hl & Hf)]; [eauto|].
      apply bind_cases in Hf.
      destruct Hf as [(e & Hg & _) | (found & w4 & Hg & Hf)];
        unfold lift in *; inversion Hg; subst; [eauto|].
      inversion Hf; subst. eauto. }
    destruct Hw2 as (r1 & Hl).
    destruct (_make_request_trace _ _ _ _ _ _ _ Hl) as [Hs | Hs];
      rewrite Hs, Hs1; [left | right]; [now rewrite <- app_assoc | reflexivity]. }
  assert (Hleft2 : forall w2 : world Env,
             sent (trace w2)
             = sent (trace w) ++ [("GET", application_url app_id, PNone);
                                  ("GET", base_url +:+ catalog_endpoint, PNone)]
             \/ sent (trace w2)
                = sent (trace w) ++ [("GET", application_url app_id, PNone)] ->
             exists reads, sent (trace w2) = sent (trace w) ++ reads
                           /\ only_reads reads).
  { intros w2 [Hs | Hs]; eexists; (split; [exact Hs|]); repeat constructor. }
  destruct H as [(e & Hgp & _) | (gp & w2 & Hgp & H)].
  { left. apply Hleft2. eapply Hcat; eauto. }
  assert (Hs2 : sent (trace w2)
                = sent (trace w) ++ [("GET", application_url app_id, PNone);
                                     ("GET", base_url +:+ catalog_endpoint, PNone)]).
  { unfold fetch_graph_permissions in Hgp.
    apply bind_returns in Hgp. destruct Hgp as (listing & w3 & Hl & Hgp).
    apply bind_returns in Hgp. destruct Hgp as (found & w4 & Hg & Hgp).
    apply lift_returns in Hg. destruct Hg as [_ ->].
    apply lift_returns in Hgp. destruct Hgp as [_ ->].
    apply _make_request_sent in Hl. rewrite Hl, Hs1.
    now rewrite <- app_assoc. }
  apply bind_cases in H.
  destruct H as [(e & Hra & _) | (ra & w3 & Hra & H)].
  { left. unfold lift in Hra. inversion Hra; subst. apply Hleft2. now left. }
  apply lift_returns in Hra. destruct Hra as [Hra ->].
  apply bind_cases in H.
  destruct H as [(e & Hm & _) | (merged & w4 & Hm & H)].
  { left. unfold lift in Hm. inversion Hm; subst. apply Hleft2. now left. }
  apply lift_returns in Hm. destruct Hm as [Hmerged ->].
  apply bind_cases in H.
  assert (Hpatch : exists r0 w5,
             _make_request "PATCH" ("/applications/" +:+ py_str app_id)
               (PDict [("requiredResourceAccess", merged)]) PNone w2 = (r0, w5)
             /\ w' = w5).
  { destruct H as [(e & Hp & _) | (u & w5 & Hp & H)]; [eauto|].
    unfold ret in H. inversion H; subst. eauto. }
  destruct Hpatch as (r0 & w5 & Hp & ->). clear H.
  destruct (_make_request_trace _ _ _ _ _ _ _ Hp) as [Hs | Hs].
  2: { left. apply Hleft2. left. now rewrite Hs. }
  right.
  destruct (merge_permissions_returns _ _ _ _ Hmerged) as (old & _ & -> & _).
  apply merge_permissions_frame in Hmerged.
  destruct Hmerged as (new & -> & Hlen & Hother & Hextend & Hafter).
  exists app, w1, old, new. split; [exact Happ|]. split; [exact Hra|].
  split; [rewrite Hs, Hs2; now rewrite <- app_assoc|].
  split; [exact Hlen|]. split; [exact Hother|]. split; [exact Hafter|].
  split; [exact Hextend|].
  intros j e xs Hj Hxs. destruct (Hextend j e Hj) as (added & Hnew).
  exists (extend_access e added), added. split; [assumption|].
  now apply getitem_extend_access_list.
Qed.

(** C7.  A resolved permission is appended to the access list of the
    Microsoft Graph entry only when no element of that list has its id.
    So the merge applied to its own result, with the same catalog and the
    same permissions, returns that result again; and a second call, which
    reads back the list that the first call sent, sends that very list: no
    entry comes twice. *)
Theorem merge_permissions_idempotent
    (graph_permissions required_access permissions merged : value) :
  merge_permissions graph_permissions required_access permissions = Return merged ->
  merge_permissions graph_permissions merged permissions = Return merged
  /\ (forall app_id (w : world Env) app w1 w2,
         truthy permissions = true ->
         _make_request "GET" ("/applications/" +:+ py_str app_id) PNone PNone w
           = (Return app, w1) ->
         fetch_graph_permissions w1 = (Return graph_permissions, w2) ->
         dict_get app "requiredResourceAccess" (PList []) = Return merged ->
         add_required_permissions app_id permissions w
         = (let! _ := _make_request "PATCH" ("/applications/" +:+ py_str app_id)
                        (PDict [("requiredResourceAccess", merged)]) PNone in
            ret (PBool true)) w2)
  /\ (forall ga permission_def pt ga',
         add_permission ga permission_def pt = Return ga' ->
         ga' = ga
         \/ exists permission_id entries,
             getitem permission_def (PStr "id") = Return permission_id
             /\ getitem ga (PStr "resourceAccess") = Return (PList entries)
             /\ Forall (fun ra => has_id permission_id ra = Return false) entries
             /\ ga' = extend_access ga [new_access permission_id pt]).
Proof.
  intros H. pose proof (merge_permissions_twice _ _ _ _ H) as Htwice.
  split; [exact Htwice|]. split.
  - intros app_id w app w1 w2 Htruthy Happ Hgp Hra.
    unfold add_required_permissions. rewrite Htruthy.
    change (negb true) with false. cbv iota.
    unfold bind at 1. cbv beta. rewrite Happ. cbv beta iota.
    unfold bind at 1. cbv beta. rewrite Hgp. cbv beta iota.
    unfold bind at 1. unfold lift at 1. cbv beta. rewrite Hra. cbv beta iota.
    unfold bind at 1. unfold lift at 1. cbv beta. rewrite Htwice.
    reflexivity.
  - intros ga def pt ga'. apply add_permission_appends_if_absent.
Qed.

End ClientFacts.

(** ** The command parser *)

Section StringFacts.

Lemma append_nil (t : string) : "" +:+ t = t.
Proof. reflexivity. Qed.

Lemma append_cons a (s t : string) : String a s +:+ t = String a (s +:+ t).
Proof. reflexivity. Qed.

Lemma find_from_first_index c s i :
  find_from c s i
  = match first_index c s with Some n => i + Z.of_nat n | None => -1 end.
Proof.
  revert i. induction s as [|a s IH]; simpl; intros i; [reflexivity|].
  destruct (Ascii.eqb a c); [lia|].
  rewrite IH. destruct (first_index c s); simpl; lia.
Qed.

Lemma rfind_from_last_index c s i :
  0 <= i ->
  rfind_from c s i
  = match last_index c s with Some n => i + Z.of_nat n | None => -1 end.
Proof.
  revert i. induction s as [|a s IH]; simpl; intros i Hi; [reflexivity|].
  rewrite IH by lia. destruct (last_index c s) as [n|].
  - replace (0 <=? i + 1 + Z.of_nat n) with true by (symmetry; apply Z.leb_le; lia).
    lia.
  - simpl. destruct (Ascii.eqb a c); lia.
Qed.

Lemma str_find_absent s c : str_find s c = -1 <-> first_index c s = None.
Proof.
  unfold str_find. rewrite find_from_first_index.
  destruct (first_index c s); split; intros H; try discriminate; try reflexivity; lia.
Qed.

Lemma str_rfind_absent s c : str_rfind s c = -1 <-> last_index c s = None.
Proof.
  unfold str_rfind. rewrite rfind_from_last_index by lia.
  destruct (last_index c s); split; intros H; try discriminate; try reflexivity; lia.
Qed.

Lemma first_index_app c before rest :
  first_index c before = None ->
  first_index c (before +:+ String c rest) = Some (String.length before).
Proof.
  induction before as [|a before IH]; rewrite ?append_nil, ?append_cons;
    simpl; intros H.
  - now rewrite Ascii.eqb_refl.
  - destruct (Ascii.eqb a c); [discriminate|].
    destruct (first_index c before); [discriminate|].
    now rewrite IH.
Qed.

Lemma last_index_app c s after :
  last_index c after = None ->
  last_index c (s +:+ String c after) = Some (String.length s).
Proof.
  intros H. induction s as [|a s IH]; rewrite ?append_nil, ?append_cons; simpl.
  - now rewrite H, Ascii.eqb_refl.
  - now rewrite IH.
Qed.

Lemma first_index_none_app c s t :
  first_index c s = None -> first_index c t = None ->
  first_index c (s +:+ t) = None.
Proof.
  induction s as [|a s IH]; rewrite ?append_nil, ?append_cons; simpl;
    intros Hs Ht; [assumption|].
  destruct (Ascii.eqb a c); [discriminate|].
  destruct (first_index c s); [discriminate|].
  now rewrite IH.
Qed.

Lemma last_index_first_index_none c s :
  first_index c s = None -> last_index c s = None.
Proof.
  induction s as [|a s IH]; simpl; [reflexivity|].
  destruct (Ascii.eqb a c); [discriminate|].
  destruct (first_index c s); [discriminate|]. intros _.
  now rewrite IH.
Qed.

Lemma last_index_app_none c s t :
  last_index c t = None -> last_index c (s +:+ t) = last_index c s.
Proof.
  intros H. induction s as [|a s IH]; rewrite ?append_nil, ?append_cons; simpl.
  - assumption.
  - now rewrite IH.
Qed.

Lemma last_index_lt c s n :
  last_index c s = Some n -> (n < String.length s)%nat.
Proof.
  revert n. induction s as [|a s IH]; simpl; intros n H; [discriminate|].
  destruct (last_index c s) as [m|].
  - inversion H. specialize (IH m eq_refl). lia.
  - destruct (Ascii.eqb a c); inversion H. lia.
Qed.

Lemma string_app_assoc (s t u : string) : (s +:+ t) +:+ u = s +:+ (t +:+ u).
Proof.
  induction s as [|a s IH]; rewrite ?append_nil, ?append_cons;
    [reflexivity | now rewrite IH].
Qed.

Lemma string_length_app (s t : string) :
  String.length (s +:+ t) = (String.length s + String.length t)%nat.
Proof.
  induction s as [|a s IH]; rewrite ?append_nil, ?append_cons; simpl;
    [reflexivity | now rewrite IH].
Qed.

Lemma substring_prefix (s t : string) :
  String.substring 0 (String.length s) (s +:+ t) = s.
Proof.
  induction s as [|a s IH]; rewrite ?append_nil, ?append_cons; simpl.
  - now destruct t.
  - now rewrite IH.
Qed.

Lemma substring_middle (before s after : string) :
  String.substring (String.length before) (String.length s)
                   (before +:+ s +:+ after) = s.
Proof.
  induction before as [|a before IH]; rewrite ?append_nil, ?append_cons; simpl.
  - apply substring_prefix.
  - exact IH.
Qed.
End StringFacts.

Section ParserFacts.
Import OpenAIService.
Context {Env : Type} {X : External Env}.

Lemma span_indices (before inside after : string) :
  first_index "{" before = None ->
  last_index "}" after = None ->
  first_index "{" (before +:+ String "{" (inside +:+ String "}" after))
  = Some (String.length before)
  /\ last_index "}" (before +:+ String "{" (inside +:+ String "}" after))
     = Some (String.length before + S (String.length inside))%nat.
Proof.
  intros Hb Ha. split.
  - now apply first_index_app.
  - replace (before +:+ String "{" (inside +:+ String "}" after))
      with ((before +:+ String "{" inside) +:+ String "}" after)
      by (rewrite string_app_assoc; reflexivity).
    rewrite (last_index_app _ _ _ Ha). now rewrite string_length_app.
Qed.

(** The text between the first opening brace and the last closing brace,
    both included, is what is decoded. *)
Lemma json_text_span (before inside after : string) :
  str_find before "{" = -1 ->
  str_rfind after "}" = -1 ->
  json_text (before +:+ "{" +:+ inside +:+ "}" +:+ after)
  = "{" +:+ inside +:+ "}".
Proof.
  intros Hb Ha. apply str_find_absent in Hb. apply str_rfind_absent in Ha.
  unfold json_text, str_find, str_rfind.
  rewrite find_from_first_index, rfind_from_last_index by lia.
  change ("{" +:+ inside +:+ "}" +:+ after)
    with (String "{" (inside +:+ String "}" after)).
  destruct (span_indices before inside after Hb Ha) as [-> ->].
  match goal with
  | |- (if ?c then _ else _) = _ => replace c with true
  end.
  2: { symmetry. apply andb_true_intro. split; [apply Z.leb_le | apply Z.ltb_lt]; lia. }
  unfold str_slice.
  replace (Z.to_nat (0 + Z.of_nat (String.length before)))
    with (String.length before) by lia.
  replace (Z.to_nat (0 + Z.of_nat (String.length before + S (String.length inside))
                     + 1 - (0 + Z.of_nat (String.length before))))
    with (String.length ("{" +:+ inside +:+ "}"))
    by (rewrite append_cons, append_nil; simpl; rewrite string_length_app;
        simpl; lia).
  replace (String "{" (inside +:+ String "}" after))
    with (("{" +:+ inside +:+ "}") +:+ after)
    by (rewrite !append_cons, !append_nil, string_app_assoc; reflexivity).
  apply substring_middle.
Qed.

(** Without an opening brace, or without a closing brace after the first
    opening one, the whole text is decoded. *)
Lemma json_text_whole (s : string) :
  str_find s "{" = -1
  \/ (exists before rest,
         s = before +:+ "{" +:+ rest
         /\ str_find before "{" = -1 /\ str_rfind rest "}" = -1) ->
  json_text s = s.
Proof.
  unfold json_text. intros [H | (before & rest & -> & Hb & Hr)].
  - rewrite H. reflexivity.
  - apply str_find_absent in Hb. apply str_rfind_absent in Hr.
    unfold str_find, str_rfind.
    rewrite find_from_first_index, rfind_from_last_index by lia.
    change ("{" +:+ rest) with (String "{" rest).
    rewrite (first_index_app _ _ _ Hb).
    rewrite last_index_app_none by (simpl; now rewrite Hr).
    match goal with
    | |- (if ?c then _ else _) = _ => replace c with false; [reflexivity|]
    end.
    symmetry. apply andb_false_intro2. apply Z.ltb_ge.
    destruct (last_index "}" before) as [n|] eqn:Hn; [|lia].
    apply last_index_lt in Hn. lia.
Qed.
(** [parse_command] after a completion that gave a string: the decoded
    and validated object, or [None]. *)
Lemma parse_command_replied command_text (w : world Env) content e' :
  chat_completion command_text (env w) = (Return (PStr content), e') ->
  parse_command command_text w
  = (Return match decode_and_validate (str_strip content) with
            | Return data => data
            | Raise _ => PNone
            end,
     after_completion w command_text e').
Proof.
  intros Hchat.
  unfold parse_command, try_except, bind, complete, lift, ret, after_completion.
  rewrite Hchat. cbn [py_strip].
  now destruct (decode_and_validate (str_strip content)).
Qed.

Lemma parse_command_decoded command_text (w : world Env) content e' data :
  chat_completion command_text (env w) = (Return (PStr content), e') ->
  json_loads (json_text (str_strip content)) = Return data ->
  parse_command command_text w
  = (Return (if _validate_parsed_data data then data else PNone),
     after_completion w command_text e').
Proof.
  intros Hchat Hloads. rewrite (parse_command_replied _ _ _ _ Hchat).
  unfold decode_and_validate. rewrite Hloads.
  now destruct (_validate_parsed_data data).
Qed.

Lemma _validate_parsed_data_dict kvs :
  _validate_parsed_data (PDict kvs)
  = match dict_lookup "action" kvs with
    | None => false
    | Some action =>
        if py_eq action (PStr "create_app_registration")
        then dict_has "appName" kvs else true
    end.
Proof.
  simpl. destruct (dict_lookup "action" kvs) as [action|]; [|reflexivity].
  destruct (py_eq action (PStr "create_app_registration")); [|reflexivity].
  simpl. now rewrite andb_true_r.
Qed.

(** C4.  When the reply decodes to an object, [parse_command] returns
    [None] if the object has no ["action"] key, and also if its action is
    [create_app_registration] and it has no ["appName"] key; it returns
    the decoded object itself when the action is there, with the
    application name if the action is [create_app_registration]. *)
Theorem parse_command_validation
    (command_text : string) (w : world Env) (content : string) (e' : Env)
    (kvs : items) :
  chat_completion command_text (env w) = (Return (PStr content), e') ->
  json_loads (json_text (str_strip content)) = Return (PDict kvs) ->
  (dict_lookup "action" kvs = None ->
   parse_command command_text w
   = (Return PNone, after_completion w command_text e'))
  /\ (dict_lookup "action" kvs = Some (PStr "create_app_registration") ->
      dict_lookup "appName" kvs = None ->
      parse_command command_text w
      = (Return PNone, after_completion w command_text e'))
  /\ (forall action,
         dict_lookup "action" kvs = Some action ->
         (action = PStr "create_app_registration" ->
          exists app_name, dict_lookup "appName" kvs = Some app_name) ->
         parse_command command_text w
         = (Return (PDict kvs), after_completion w command_text e')).
Proof.
  intros Hchat Hloads.
  rewrite (parse_command_decoded _ _ _ _ _ Hchat Hloads).
  rewrite _validate_parsed_data_dict.
  split; [|split].
  - intros ->. reflexivity.
  - intros -> Hname. simpl. unfold dict_has. now rewrite Hname.
  - intros action -> Hname.
    destruct (py_eq action (PStr "create_app_registration")) eqn:Heq;
      [|reflexivity].
    apply py_eq_str in Heq. destruct (Hname Heq) as (app_name & Happ).
    unfold dict_has. now rewrite Happ.
Qed.

(** C9.  The text that is decoded runs from the first opening brace of
    the stripped reply to its last closing brace; the whole stripped reply
    is decoded when there is no such span.  A reply that decodes to an
    object that passes validation gives that object: the reply
    [Sure! {...}] of the example gives the descriptor decoded from
    [{...}]. *)
Theorem parse_command_json_extraction :
  (forall before inside after,
      str_find before "{" = -1 ->
      str_rfind after "}" = -1 ->
      json_text (before +:+ "{" +:+ inside +:+ "}" +:+ after)
      = "{" +:+ inside +:+ "}")
  /\ (forall s,
         str_find s "{" = -1
         \/ (exists before rest,
                s = before +:+ "{" +:+ rest
                /\ str_find before "{" = -1 /\ str_rfind rest "}" = -1) ->
         json_text s = s)
  /\ (forall command_text (w : world Env) content e' data,
         chat_completion command_text (env w) = (Return (PStr content), e') ->
         json_loads (json_text (str_strip content)) = Return data ->
         _validate_parsed_data data = true ->
         parse_command command_text w
         = (Return data, after_completion w command_text e'))
  /\ (forall command_text (w : world Env) e',
         chat_completion command_text (env w) = (Return (PStr example_reply), e') ->
         json_loads example_object_text = Return example_descriptor ->
         parse_command command_text w
         = (Return example_descriptor, after_completion w command_text e')).
Proof.
  split; [|split; [|split]].
  - apply json_text_span.
  - apply json_text_whole.
  - intros command_text w content e' data Hchat Hloads Hvalid.
    rewrite (parse_command_decoded _ _ _ _ _ Hchat Hloads). now rewrite Hvalid.
  - intros command_text w e' Hchat Hloads.
    assert (Htext : json_text (str_strip example_reply) = example_object_text)
      by (vm_compute; reflexivity).
    rewrite <- Htext in Hloads.
    now rewrite (parse_command_decoded _ _ _ _ _ Hchat Hloads).
Qed.
End ParserFacts.

(** ** More on the Graph client *)

Section ClientExtras.
Import GraphService.
Context {Env : Type} {X : External Env}.

(** One turn of the consent loop never raises; a grant that went through
    was sent, a grant that did not was sent at most once. *)
Lemma grant_consent_cases service_principal_id permission_id (w : world Env) r w' :
  grant_consent service_principal_id permission_id w = (r, w') ->
  (r = Return true
   /\ sent (trace w')
      = sent (trace w) ++ [grant_request service_principal_id permission_id])
  \/ (r = Return false
      /\ (sent (trace w')
          = sent (trace w) ++ [grant_request service_principal_id permission_id]
          \/ sent (trace w') = sent (trace w))).
Proof.
  unfold grant_consent, try_except, bind, ret.
  destruct (_make_request "POST" "/oauth2PermissionGrants"
              (consent_data service_principal_id permission_id) PNone w)
    as [[v|e] w1] eqn:Hreq; intros H; inversion H; subst.
  - left. split; [reflexivity|]. now apply _make_request_sent in Hreq.
  - right. split; [reflexivity|]. now apply _make_request_trace in Hreq.
Qed.


Lemma grant_consents_true service_principal_id ids (w w' : world Env) :
  grant_consents service_principal_id ids w = (Return (PBool true), w') ->
  sent (trace w')
  = sent (trace w) ++ map (grant_request service_principal_id) ids.
Proof.
  revert w. induction ids as [|pid ids IH]; intros w; simpl.
  - unfold ret. intros H. inversion H. now rewrite app_nil_r.
  - unfold bind at 1.
    destruct (grant_consent service_principal_id pid w) as [r w1] eqn:Hg.
    destruct (grant_consent_cases _ _ _ _ _ Hg) as [[-> Hs] | [-> _]].
    + intros H. apply IH in H. rewrite H, Hs. now rewrite <- app_assoc.
    + unfold ret. discriminate.
Qed.

(** X2.  When [grant_admin_consent] returns [True], one grant was sent for
    every id, in the order of the list, and nothing else. *)
Theorem grant_admin_consent_true
    (service_principal_id : value) (ids : list value) (w w' : world Env) :
  grant_admin_consent service_principal_id (PList ids) w
    = (Return (PBool true), w') ->
  sent (trace w')
  = sent (trace w) ++ map (grant_request service_principal_id) ids.
Proof.
  unfold grant_admin_consent, bind, lift. simpl py_iter. cbv beta iota.
  apply grant_consents_true.
Qed.

(** X3.  When [grant_admin_consent] returns [False], it stopped at the
    first id whose grant raised: the grants for the ids before it were
    sent, that grant was sent at most once, and none was sent for the ids
    after it. *)
Theorem grant_admin_consent_false
    (service_principal_id : value) (ids : list value) (w w' : world Env) :
  grant_admin_consent service_principal_id (PList ids) w
    = (Return (PBool false), w') ->
  exists before permission_id after,
    ids = before ++ permission_id :: after
    /\ (sent (trace w')
        = sent (trace w) ++ map (grant_request service_principal_id) before
          ++ [grant_request service_principal_id permission_id]
        \/ sent (trace w')
           = sent (trace w) ++ map (grant_request service_principal_id) before).
Proof.
  unfold grant_admin_consent, bind, lift. simpl py_iter. cbv beta iota.
  revert w. induction ids as [|pid ids IH]; intros w; simpl.
  - unfold ret. discriminate.
  - unfold bind at 1.
    destruct (grant_consent service_principal_id pid w) as [r w1] eqn:Hg.
    destruct (grant_consent_cases _ _ _ _ _ Hg) as [[-> Hs] | [-> Hs]].
    + intros H. apply IH in H.
      destruct H as (before & p & after & -> & Hsent).
      exists (pid :: before), p, after. split; [reflexivity|].
      simpl map. rewrite Hs in Hsent.
      destruct Hsent as [-> | ->]; [left | right];
        now rewrite <- !app_assoc.
    + unfold ret. intros H. inversion H; subst w'.
      exists [], pid, ids. split; [reflexivity|]. simpl.
      destruct Hs as [-> | ->]; [left | right];
        [reflexivity | now rewrite app_nil_r].
Qed.

Lemma authorized_request_effect tok method endpoint data params (w : world Env) r w' :
  authorized_request tok method endpoint data params w = (r, w') ->
  trace w' = trace w ++ [EvRequest (request_of tok method endpoint data params)]
  /\ token w' = token w /\ token_expires w' = token_expires w.
Proof.
  unfold authorized_request, try_except, bind, send, raise, lift, ret, request_of.
  destruct (requests_request _ (env w)) as [[resp|e] e1].
  - destruct (raise_for_status _ resp).
    + destruct (status_code resp =? 204); [|destruct (json_body resp)];
        intros H; injection H as _ <-; auto.
    + intros H; injection H as _ <-; auto.
  - intros H; injection H as _ <-; auto.
Qed.

(** X4.  What a call of [_make_request] does to the outside, whatever its
    result.  It sends one request, carrying [Bearer] and the token that is
    in the cache afterwards, after at most one token fetch.  Or it sends
    nothing and raises, after one token fetch: because the fetch raised,
    and then the cache is as it was; or because the fetch returned a token
    whose expiry to cache is out of the range of [datetime], and then the
    [OverflowError] is raised with that token in the cache and the expiry
    that was there before.  There is no second attempt. *)
Theorem _make_request_accounting
    (method endpoint : string) (data params : value) (w w' : world Env)
    (r : outcome value) :
  _make_request method endpoint data params w = (r, w') ->
  (exists tok,
      token w' = Some tok
      /\ (trace w'
          = trace w ++ [EvRequest (request_of tok method endpoint data params)]
          \/ trace w'
             = trace w ++ [EvGetToken graph_scope;
                           EvRequest (request_of tok method endpoint data params)]))
  \/ (exists e e0 e1,
         cache_stale w e0
         /\ credential_get_token graph_scope e0 = (Raise e, e1)
         /\ r = Raise e
         /\ trace w' = trace w ++ [EvGetToken graph_scope]
         /\ token w' = token w /\ token_expires w' = token_expires w)
  \/ (exists message e0 tr e1 n e2,
         cache_stale w e0
         /\ credential_get_token graph_scope e0 = (Return tr, e1)
         /\ datetime_now e1 = (n, e2)
         /\ cached_expiry n tr = Raise (OverflowError message)
         /\ r = Raise (OverflowError message)
         /\ trace w' = trace w ++ [EvGetToken graph_scope]
         /\ token w' = Some (tr_token tr)
         /\ token_expires w' = token_expires w).
Proof.
  unfold _make_request. intros H. apply bind_cases in H.
  destruct (cache_valid_or_stale w) as [(t & e' & Hv) | (e' & Hs)].
  - rewrite (_get_token_reuses _ _ _ Hv) in H.
    destruct H as [(e & Htok & _) | (tok & w1 & Htok & H)]; [discriminate|].
    inversion Htok; subst tok w1. clear Htok.
    apply authorized_request_effect in H. destruct H as (Htrace & Ht & _).
    left. exists t. split; [exact Ht|]. left. exact Htrace.
  - rewrite (_get_token_refreshes _ _ Hs) in H.
    destruct (credential_get_token graph_scope e') as [[tr|err] e1] eqn:Hfetch.
    + destruct (datetime_now e1) as [n e2] eqn:Hnow.
      destruct (cached_expiry n tr) as [x|err] eqn:Hx.
      * destruct H as [(e & Htok & _) | (tok & w1 & Htok & H)]; [discriminate|].
        inversion Htok; subst tok w1. clear Htok.
        apply authorized_request_effect in H. destruct H as (Htrace & Ht & _).
        left. exists (tr_token tr). split; [exact Ht|]. right.
        rewrite Htrace. cbn [trace]. now rewrite <- app_assoc.
      * destruct H as [(e & Htok & ->) | (tok & w1 & Htok & H)]; [|discriminate].
        inversion Htok; subst e w'. clear Htok.
        destruct (cached_expiry_raises _ _ _ Hx) as (message & ->).
        right. right. exists message, e', tr, e1, n, e2. cbn. auto 10.
    + destruct H as [(e & Htok & ->) | (tok & w1 & Htok & H)]; [|discriminate].
      inversion Htok; subst. right. left. exists e, e', e1. cbn. auto 10.
Qed.

(** X5.  How [_make_request] reads a response, once the token is at hand:
    a status from 400 to 599 raises an [HTTPError] and the body is not
    decoded; status 204 gives an empty dict, whatever the body; any other
    status gives the decoded body, or what decoding raises; and what the
    transport raises is raised again.  In each case the request has been
    sent once. *)
Theorem _make_request_response
    (method endpoint : string) (data params : value) (w w1 : world Env)
    (tok : string) :
  _get_token w = (Return tok, w1) ->
  let sent_in e' :=
    {| env := e'; token := token w1; token_expires := token_expires w1;
       trace := trace w1
                ++ [EvRequest (request_of tok method endpoint data params)] |} in
  (forall resp e',
      requests_request (request_of tok method endpoint data params) (env w1)
        = (Return resp, e') ->
      (400 <= status_code resp < 600 ->
       exists message,
         _make_request method endpoint data params w
         = (Raise (HTTPError message), sent_in e'))
      /\ (status_code resp = 204 ->
          _make_request method endpoint data params w
          = (Return (PDict []), sent_in e'))
      /\ (~ 400 <= status_code resp < 600 -> status_code resp <> 204 ->
          _make_request method endpoint data params w
          = (json_body resp, sent_in e')))
  /\ (forall e e',
         requests_request (request_of tok method endpoint data params) (env w1)
           = (Raise e, e') ->
         _make_request method endpoint data params w = (Raise e, sent_in e')).
Proof.
  intros Htok sent_in. subst sent_in.
  assert (Hrun : _make_request method endpoint data params w
                 = authorized_request tok method endpoint data params w1).
  { unfold _make_request, bind. now rewrite Htok. }
  rewrite Hrun.
  unfold authorized_request, try_except, bind, send, raise, lift, ret.
  fold (request_of tok method endpoint data params).
  split.
  - intros resp e' ->. unfold raise_for_status. cbv zeta.
    split; [|split].
    + intros [Hlo Hhi].
      destruct (Z.lt_ge_cases (status_code resp) 500) as [Hlt|Hge].
      * replace ((400 <=? status_code resp) && (status_code resp <? 500))
          with true
          by (symmetry; apply andb_true_intro;
              split; [apply Z.leb_le | apply Z.ltb_lt]; lia).
        eexists. reflexivity.
      * replace ((400 <=? status_code resp) && (status_code resp <? 500))
          with false
          by (symmetry; apply andb_false_intro2; apply Z.ltb_ge; lia).
        replace ((500 <=? status_code resp) && (status_code resp <? 600))
          with true
          by (symmetry; apply andb_true_intro;
              split; [apply Z.leb_le | apply Z.ltb_lt]; lia).
        eexists. reflexivity.
    + intros ->. reflexivity.
    + intros Hnot Hne.
      replace ((400 <=? status_code resp) && (status_code resp <? 500))
        with false.
      2: { symmetry. apply andb_false_iff.
           destruct (Z.lt_ge_cases (status_code resp) 400);
             [left; apply Z.leb_gt | right; apply Z.ltb_ge]; lia. }
      replace ((500 <=? status_code resp) && (status_code resp <? 600))
        with false.
      2: { symmetry. apply andb_false_iff.
           destruct (Z.lt_ge_cases (status_code resp) 500);
             [left; apply Z.leb_gt | right; apply Z.ltb_ge]; lia. }
      replace (status_code resp =? 204) with false
        by (symmetry; apply Z.eqb_neq; assumption).
      now destruct (json_body resp).
  - intros e e' ->. reflexivity.
Qed.

(** X6.  When the catalog listing that Microsoft Graph returns has no
    first element, or no ["value"] at all, [add_required_permissions]
    raises ([IndexError], [KeyError]) after its two reads and sends no
    update. *)
Theorem add_required_permissions_without_catalog
    (app_id permissions : value) (w w1 w2 : world Env) (app listing : value) :
  truthy permissions = true ->
  _make_request "GET" ("/applications/" +:+ py_str app_id) PNone PNone w
    = (Return app, w1) ->
  _make_request "GET" catalog_endpoint PNone PNone w1 = (Return listing, w2) ->
  sent (trace w2)
  = sent (trace w) ++ [("GET", application_url app_id, PNone);
                       ("GET", base_url +:+ catalog_endpoint, PNone)]
  /\ (getitem listing (PStr "value") = Return (PList []) ->
      add_required_permissions app_id permissions w
      = (Raise (IndexError "list index out of range"), w2))
  /\ (forall kvs, listing = PDict kvs -> dict_lookup "value" kvs = None ->
      add_required_permissions app_id permissions w
      = (Raise (KeyError (PStr "value")), w2)).
Proof.
  intros Htruthy Happ Hlist.
  split; [|split].
  - rewrite (_make_request_sent _ _ _ _ _ _ _ Hlist),
            (_make_request_sent _ _ _ _ _ _ _ Happ).
    now rewrite <- app_assoc.
  - intros Hvalue. unfold add_required_permissions. rewrite Htruthy.
    change (negb true) with false. cbv iota.
    unfold bind at 1. cbv beta. rewrite Happ. cbv beta iota.
    unfold bind at 1. cbv beta. unfold fetch_graph_permissions.
    unfold bind at 1. cbv beta. rewrite Hlist. cbv beta iota.
    unfold bind at 1. unfold lift at 1. cbv beta. rewrite Hvalue. cbv beta iota.
    reflexivity.
  - intros kvs -> Hnone. unfold add_required_permissions. rewrite Htruthy.
    change (negb true) with false. cbv iota.
    unfold bind at 1. cbv beta. rewrite Happ. cbv beta iota.
    unfold bind at 1. cbv beta. unfold fetch_graph_permissions.
    unfold bind at 1. cbv beta. rewrite Hlist. cbv beta iota.
    unfold bind at 1. unfold lift at 1. cbv beta.
    cbn [getitem]. rewrite Hnone. reflexivity.
Qed.
End ClientExtras.

(** ** More on the permission merge *)

Section MergeExtras.
Import GraphService.

Lemma Forall_not_graph_middle pre e post :
  Forall (fun x => is_graph_entry x = Return false) (pre ++ e :: post) ->
  is_graph_entry e = Return true -> False.
Proof.
  intros Hall He. apply Forall_app in Hall. destruct Hall as [_ Hall].
  inversion Hall; subst. congruence.
Qed.

Lemma process_permissions_all_unknown graph_permissions ga names :
  Forall (unknown_permission graph_permissions) names ->
  process_permissions graph_permissions ga (map PStr names) = Return ga.
Proof.
  induction 1 as [|s names Hs _ IH]; simpl; [reflexivity|].
  now rewrite (process_permission_unknown _ _ _ Hs).
Qed.

Lemma getitem_id_truthy permission_def permission_id :
  getitem permission_def (PStr "id") = Return permission_id ->
  truthy permission_def = true.
Proof.
  destruct permission_def as [ | | | | |kvs]; simpl; try discriminate.
  destruct kvs; [discriminate | reflexivity].
Qed.

Lemma app_eq_snoc {A : Type} (before after l : list A) (e x : A) :
  before ++ e :: after = l ++ [x] ->
  (after = [] /\ before = l /\ e = x)
  \/ (exists after', after = after' ++ [x] /\ l = before ++ e :: after').
Proof.
  intros H. destruct after as [|a after'] using rev_ind.
  - left. apply app_inj_tail in H. destruct H as [-> ->]. auto.
  - right.
    replace (before ++ e :: after' ++ [a]) with ((before ++ e :: after') ++ [a])
      in H by (rewrite <- app_assoc; reflexivity).
    apply app_inj_tail in H. destruct H as [Hl ->].
    exists after'. split; [reflexivity | now symmetry].
Qed.

Lemma distinct_ids_snoc entries permission_id pt :
  distinct_ids entries ->
  Forall (fun x => has_id permission_id x = Return false) entries ->
  distinct_ids (entries ++ [new_access permission_id pt]).
Proof.
  intros Hd Hfresh before e after pid Heq Hpid.
  symmetry in Heq. apply app_eq_snoc in Heq.
  destruct Heq as [(-> & -> & ->) | (after' & -> & ->)].
  - simpl in Hpid. inversion Hpid; subst. exact Hfresh.
  - eapply Hd; eauto.
Qed.

Lemma py_any_true_In (c : value -> outcome bool) xs :
  py_any c xs = Return true -> exists x, In x xs /\ c x = Return true.
Proof.
  unfold py_any. generalize 0%nat.
  induction xs as [|x xs IH]; intros i; simpl; [discriminate|].
  destruct (c x) as [[|]|e] eqn:Hc; simpl.
  - intros _. exists x. auto.
  - intros H. destruct (IH _ H) as (y & Hin & Hy). exists y. auto.
  - discriminate.
Qed.

(** What the loop does with the names it is given: every element it
    appends is the element of a requested name that resolved, and every
    requested name that resolved has its id in the list afterwards. *)
Lemma process_permissions_resolved graph_permissions names :
  forall ga ga' entries,
    process_permissions graph_permissions ga (map PStr names) = Return ga' ->
    getitem ga (PStr "resourceAccess") = Return (PList entries) ->
    exists added,
      getitem ga' (PStr "resourceAccess") = Return (PList (entries ++ added))
      /\ (forall s permission_def permission_id,
             In s names ->
             find_permission_def graph_permissions (permission_kind s) (PStr s)
               = Return permission_def ->
             getitem permission_def (PStr "id") = Return permission_id ->
             exists x, In x (entries ++ added)
                       /\ has_id permission_id x = Return true)
      /\ (forall x,
             In x added ->
             exists s permission_def permission_id,
               In s names
               /\ find_permission_def graph_permissions (permission_kind s) (PStr s)
                  = Return permission_def
               /\ getitem permission_def (PStr "id") = Return permission_id
               /\ x = new_access permission_id (permission_kind s))
      /\ (distinct_ids entries -> distinct_ids (entries ++ added)).
Proof.
  induction names as [|s names IH]; intros ga ga' entries H Hl; simpl in H.
  - inversion H; subst. exists []. rewrite app_nil_r.
    split; [exact Hl|]. split; [intros ? ? ? []|]. split; [intros ? []|auto].
  - apply obind_returns in H. destruct H as (ga1 & Hstep & H).
    unfold process_permission in Hstep.
    rewrite classify_permission_kind in Hstep. cbn [obind] in Hstep.
    apply obind_returns in Hstep. destruct Hstep as (def & Hdef & Hstep).
    assert (Hone : exists added1,
               getitem ga1 (PStr "resourceAccess")
               = Return (PList (entries ++ added1))
               /\ (forall permission_id,
                      getitem def (PStr "id") = Return permission_id ->
                      exists x, In x (entries ++ added1)
                                /\ has_id permission_id x = Return true)
               /\ (forall x, In x added1 ->
                     exists permission_id,
                       getitem def (PStr "id") = Return permission_id
                       /\ x = new_access permission_id (permission_kind s))
               /\ (distinct_ids entries -> distinct_ids (entries ++ added1))).
    { destruct (truthy def) eqn:Htruthy; cbn [negb] in Hstep.
      - apply add_permission_returns in Hstep.
        destruct Hstep as (pid & ral & es & Hpid & Hral & Hes
                           & [[Hany ->] | (Hany & -> & ->)]).
        + exists []. rewrite app_nil_r. split; [exact Hl|].
          split; [|split; [intros ? []|auto]].
          intros pid' Hpid'. rewrite Hpid in Hpid'. inversion Hpid'; subst pid'.
          rewrite Hl in Hral. inversion Hral; subst ral.
          simpl in Hes. inversion Hes; subst es.
          now apply py_any_true_In.
        + rewrite Hl in Hral. inversion Hral; subst es.
          exists [new_access pid (permission_kind s)].
          split; [now apply getitem_extend_access_list|]. split.
          * intros pid' Hpid'. rewrite Hpid in Hpid'. inversion Hpid'; subst pid'.
            exists (new_access pid (permission_kind s)).
            split; [apply in_or_app; right; now left|].
            apply has_id_new_access.
          * split; [intros x [<- | []]; exists pid; auto|].
            intros Hd. apply distinct_ids_snoc; [exact Hd|].
            now apply py_any_false.
      - inversion Hstep; subst ga1. exists []. rewrite app_nil_r.
        split; [exact Hl|]. split; [|split; [intros ? []|auto]].
        intros pid Hpid. apply getitem_id_truthy in Hpid. congruence. }
    destruct Hone as (added1 & Hl1 & Hhas1 & Hnew1 & Hd1).
    destruct (IH _ _ _ H Hl1) as (added & Hl' & Hhas & Hnew & Hd).
    exists (added1 ++ added). rewrite app_assoc. split; [exact Hl'|].
    split; [|split; [|auto]].
    + intros s' def' pid' [<- | Hin] Hdef' Hpid'.
      * rewrite Hdef in Hdef'. inversion Hdef'; subst def'.
        destruct (Hhas1 _ Hpid') as (x & Hx & Hid). exists x.
        split; [apply in_or_app; now left | exact Hid].
      * exact (Hhas _ _ _ Hin Hdef' Hpid').
    + intros x Hx. apply in_app_or in Hx. destruct Hx as [Hx | Hx].
      * destruct (Hnew1 _ Hx) as (pid & Hpid & ->).
        exists s, def, pid. split; [now left|]. auto.
      * destruct (Hnew _ Hx) as (s' & def' & pid' & Hin & Hrest).
        exists s', def', pid'. split; [now right | exact Hrest].
Qed.

(** X7.  When the fetched list has no entry of Microsoft Graph, the merge
    appends one at the end and leaves the rest of the list as it was.  The
    access list of that entry holds the requested permissions that
    resolved, and nothing else: every requested name that has a definition
    in the catalog of its kind has the id of that definition in the list;
    every element of the list is the id of such a definition, with type
    [Role] for an application permission and [Scope] for a delegated one;
    and no id comes twice.  The entry is appended, empty, even when no
    requested name is in the catalog. *)
Theorem merge_permissions_adds_graph_entry
    (graph_permissions : value) (old : list value) :
  Forall (fun e => is_graph_entry e = Return false) old ->
  (forall names merged,
      merge_permissions graph_permissions (PList old) (PList (map PStr names))
        = Return merged ->
      exists added,
        merged
        = PList (old ++ [PDict [("resourceAppId", PStr graph_api_id);
                                ("resourceAccess", PList added)]])
        /\ (forall s permission_def permission_id,
               In s names ->
               find_permission_def graph_permissions (permission_kind s) (PStr s)
                 = Return permission_def ->
               getitem permission_def (PStr "id") = Return permission_id ->
               exists x, In x added /\ has_id permission_id x = Return true)
        /\ (forall x,
               In x added ->
               exists s permission_def permission_id,
                 In s names
                 /\ find_permission_def graph_permissions (permission_kind s)
                                        (PStr s)
                    = Return permission_def
                 /\ getitem permission_def (PStr "id") = Return permission_id
                 /\ x = PDict [("id", permission_id);
                               ("type",
                                 PStr (match permission_kind s with
                                       | Application => "Role"
                                       | Delegated => "Scope"
                                       end))])
        /\ distinct_ids added)
  /\ (forall names,
         Forall (unknown_permission graph_permissions) names ->
         merge_permissions graph_permissions (PList old) (PList (map PStr names))
         = Return (PList (old ++ [default_graph_access]))).
Proof.
  intros Hold. split.
  - intros names merged H. apply merge_permissions_returns in H.
    destruct H as (xs & ps & Hxs & Hps
                   & [(pre & e & post & ga' & -> & Hpre & He & Hloop & ->)
                     | (ga' & Hnone & Hloop & ->)]);
      inversion Hxs; subst.
    + exfalso. eapply Forall_not_graph_middle; eauto.
    + simpl in Hps. inversion Hps; subst ps. clear Hps Hxs.
      destruct (process_permissions_returns _ _ _ _ Hloop) as (added0 & ->).
      destruct (process_permissions_resolved _ _ _ _ [] Hloop eq_refl)
        as (added & Hl & Hhas & Hnew & Hd).
      assert (Hnil : distinct_ids []).
      { intros [|? ?] ? ? ? Heq; discriminate. }
      apply Hd in Hnil. clear Hd. simpl in Hnil.
      simpl in Hl. inversion Hl; subst added0. clear Hl.
      exists added. split; [reflexivity|]. split; [exact Hhas|].
      split; [|exact Hnil].
      intros x Hx. destruct (Hnew _ Hx) as (s & def & pid & Hin & Hdef & Hpid & ->).
      exists s, def, pid. repeat split; auto.
      unfold new_access, permission_type_value.
      now destruct (permission_kind s).
  - intros names Hnames. unfold merge_permissions.
    assert (Hlocate : locate_graph_access (PList old)
                      = Return {| required_access := PList (old ++ [default_graph_access]);
                                  slot := Some (length old);
                                  graph_access := default_graph_access |}).
    { unfold locate_graph_access, find_graph_access. simpl py_iter.
      cbn [obind].
      rewrite (proj2 (find_first_none is_graph_entry old 0) Hold).
      cbn [obind py_contains]. rewrite (default_not_among _ Hold).
      reflexivity. }
    rewrite Hlocate. cbn [obind py_iter graph_access].
    rewrite (process_permissions_all_unknown _ _ _ Hnames). cbn [obind].
    unfold store_back. cbn [slot required_access]. f_equal. f_equal.
    replace (length old) with (length old + 0)%nat by lia.
    now rewrite insert_app_r.
Qed.

(** X8.  A requested name whose definition is found is handled by its id:
    if an element of the access list already has that id the entry is left
    as it is, whatever the type of that element; otherwise one element is
    appended, with the id, and with type [Role] for an application
    permission and [Scope] for a delegated one. *)
Theorem process_permission_known
    (graph_permissions ga : value) (s : string)
    (permission_def permission_id : value) (entries : list value) :
  find_permission_def graph_permissions (permission_kind s) (PStr s)
    = Return permission_def ->
  getitem permission_def (PStr "id") = Return permission_id ->
  getitem ga (PStr "resourceAccess") = Return (PList entries) ->
  (forall before e after,
      entries = before ++ e :: after ->
      Forall (fun x => has_id permission_id x = Return false) before ->
      has_id permission_id e = Return true ->
      process_permission graph_permissions ga (PStr s) = Return ga)
  /\ (Forall (fun x => has_id permission_id x = Return false) entries ->
      exists ga',
        process_permission graph_permissions ga (PStr s) = Return ga'
        /\ getitem ga' (PStr "resourceAccess")
           = Return (PList (entries
                            ++ [PDict [("id", permission_id);
                                       ("type",
                                         PStr (match permission_kind s with
                                               | Application => "Role"
                                               | Delegated => "Scope"
                                               end))]]))
        /\ (forall k, k <> "resourceAccess" ->
                      getitem ga' (PStr k) = getitem ga (PStr k))).
Proof.
  intros Hdef Hid Hlist.
  assert (Hstart : process_permission graph_permissions ga (PStr s)
                   = add_permission ga permission_def (permission_kind s)).
  { unfold process_permission. rewrite classify_permission_kind. cbn [obind].
    rewrite Hdef. cbn [obind]. now rewrite (getitem_id_truthy _ _ Hid). }
  rewrite Hstart. unfold add_permission. rewrite Hid. cbn [obind].
  rewrite Hlist. cbn [obind py_iter].
  split.
  - intros before e after -> Hbefore He.
    now rewrite (py_any_found _ _ _ _ Hbefore He).
  - intros Habsent. rewrite (proj2 (py_any_false _ _) Habsent).
    cbn [py_append obind].
    eexists. split; [reflexivity|]. split.
    + destruct ga as [ | | | | |kvs]; simpl in Hlist; try discriminate.
      destruct (dict_lookup "resourceAccess" kvs) as [v|] eqn:Hl; [|discriminate].
      simpl. rewrite (dict_lookup_replace _ _ _ _ Hl).
      unfold new_access, permission_type_value.
      now destruct (permission_kind s).
    + intros k Hk. destruct ga as [ | | | | |kvs]; simpl; try reflexivity.
      now rewrite dict_lookup_replace_ne.
Qed.

(** X9.  The loop keeps the ids of the access list distinct: if no element
    had the id of an element before it when the loop started, none has
    when it returns, and the list has only grown at its end. *)
Theorem process_permissions_distinct_ids
    (graph_permissions : value) (ps : list value) (ga ga' : value)
    (entries : list value) :
  process_permissions graph_permissions ga ps = Return ga' ->
  getitem ga (PStr "resourceAccess") = Return (PList entries) ->
  distinct_ids entries ->
  exists added,
    getitem ga' (PStr "resourceAccess") = Return (PList (entries ++ added))
    /\ distinct_ids (entries ++ added).
Proof.
  revert ga entries. induction ps as [|p ps IH]; simpl; intros ga entries H Hl Hd.
  - inversion H; subst. exists []. rewrite app_nil_r. auto.
  - apply obind_returns in H. destruct H as (ga1 & Hstep & H).
    assert (Hone : exists added1,
               getitem ga1 (PStr "resourceAccess")
               = Return (PList (entries ++ added1))
               /\ distinct_ids (entries ++ added1)).
    { unfold process_permission in Hstep.
      apply obind_returns in Hstep. destruct Hstep as (pt & _ & Hstep).
      apply obind_returns in Hstep. destruct Hstep as (def & _ & Hstep).
      destruct (negb (truthy def)).
      - inversion Hstep; subst. exists []. rewrite app_nil_r. auto.
      - apply add_permission_returns in Hstep.
        destruct Hstep as (pid & ral & es & _ & Hral & Hes
                           & [[_ ->] | (Hany & -> & ->)]).
        + exists []. rewrite app_nil_r. auto.
        + rewrite Hl in Hral. inversion Hral; subst es.
          exists [new_access pid pt]. split.
          * now apply getitem_extend_access_list.
          * apply distinct_ids_snoc; [assumption|]. now apply py_any_false. }
    destruct Hone as (added1 & Hl1 & Hd1).
    destruct (IH _ _ H Hl1 Hd1) as (added & Hl' & Hd').
    exists (added1 ++ added). rewrite app_assoc. auto.
Qed.
End MergeExtras.

(** ** More on the orchestrator *)

Section AgentExtras.
Import EntraIDAgent.
Context {W : Type} {S : Services W}.


Lemma lift_cases {V A : Type} (o : outcome A) (v v' : V) r :
  lift o v = (r, v') -> r = o /\ v' = v.
Proof. unfold lift. intros H. now inversion H. Qed.




(** A parsed command that is not a [create_app_registration] is dispatched
    to a failure after the parser call alone. *)
Lemma dispatch_not_create
    (command_text : string) (a : agent_world W) (parsed_data : value) (w1 : W) :
  openai_parse_command command_text (services_state a) = (Return parsed_data, w1) ->
  truthy parsed_data = false
  \/ getitem parsed_data (PStr "action") <> Return (PStr "create_app_registration") ->
  exists r,
    dispatch command_text a
    = (r, {| services_state := w1; calls := calls a ++ [ParseCommand command_text] |})
    /\ ((exists message, r = Return (failure message)) \/ exists e, r = Raise e).
Proof.
  intros Hparse Hother.
  unfold dispatch.
  unfold bind at 1. unfold run_call at 1.
  erewrite run_call_returns by (simpl; exact Hparse). cbv beta iota.
  destruct (truthy parsed_data) eqn:Htruthy; cbn [negb].
  2: { eexists. split; [reflexivity|]. left. eexists. reflexivity. }
  destruct Hother as [Hfalse | Hother]; [discriminate|].
  unfold bind at 1. unfold lift at 1. cbv beta.
  destruct (getitem parsed_data (PStr "action")) as [action|e] eqn:Haction;
    cbv beta iota.
  2: { eexists. split; [reflexivity|]. right. eexists. reflexivity. }
  destruct (py_eq action (PStr "create_app_registration")) eqn:Hcreate.
  { apply py_eq_str in Hcreate. subst. congruence. }
  unfold bind at 1. unfold lift at 1. cbv beta iota.
  destruct (py_eq action (PStr "update_app_registration")).
  { eexists. split; [reflexivity|]. left. eexists. reflexivity. }
  unfold bind at 1. unfold lift at 1. cbv beta iota.
  destruct (py_eq action (PStr "delete_app_registration")).
  { eexists. split; [reflexivity|]. left. eexists. reflexivity. }
  unfold bind at 1. unfold lift at 1. cbv beta iota.
  eexists. split; [reflexivity|]. left. eexists. reflexivity.
Qed.

Lemma process_command_of_dispatch
    (command_text : string) (a a' : agent_world W) (r : outcome value) :
  dispatch command_text a = (r, a') ->
  ((exists message, r = Return (failure message)) \/ exists e, r = Raise e) ->
  exists message, process_command command_text a = (Return (failure message), a').
Proof.
  intros Hd Hr. unfold process_command, try_except. rewrite Hd.
  destruct Hr as [(message & ->) | (e & ->)]; eexists; reflexivity.
Qed.

(** X11.  [process_command] reaches the Graph client only for the action
    [create_app_registration]: when the parser returns nothing usable, or
    an object with another action or with none, the parser call is the
    only call made, the services are left as the parser left them, and the
    envelope is a failure. *)
Theorem process_command_only_create_reaches_graph
    (command_text : string) (a : agent_world W) (parsed_data : value) (w1 : W) :
  openai_parse_command command_text (services_state a) = (Return parsed_data, w1) ->
  truthy parsed_data = false
  \/ getitem parsed_data (PStr "action") <> Return (PStr "create_app_registration") ->
  exists message,
    process_command command_text a
    = (Return (failure message),
       {| services_state := w1; calls := calls a ++ [ParseCommand command_text] |}).
Proof.
  intros Hparse Hother.
  destruct (dispatch_not_create _ _ _ _ Hparse Hother) as (r & Hd & Hr).
  eapply process_command_of_dispatch; eauto.
Qed.

End AgentExtras.

(** ** More on the command parser *)

Section ParserExtras.
Import OpenAIService.
Context {Env : Type} {X : External Env}.

Lemma first_index_split c s n :
  first_index c s = Some n ->
  exists before rest,
    s = before +:+ String c rest
    /\ String.length before = n /\ first_index c before = None.
Proof.
  revert n. induction s as [|a s IH]; simpl; intros n H; [discriminate|].
  destruct (Ascii.eqb_spec a c) as [->|Hne].
  - inversion H; subst. exists "", s. auto.
  - destruct (first_index c s) as [m|]; [|discriminate].
    inversion H; subst. destruct (IH m eq_refl) as (before & rest & -> & Hlen & Hb).
    exists (String a before), rest. rewrite append_cons. simpl.
    destruct (Ascii.eqb_spec a c); [contradiction|].
    rewrite Hb, Hlen. auto.
Qed.

Lemma last_index_split c s n :
  last_index c s = Some n ->
  exists front after,
    s = front +:+ String c after
    /\ String.length front = n /\ last_index c after = None.
Proof.
  revert n. induction s as [|a s IH]; simpl; intros n H; [discriminate|].
  destruct (last_index c s) as [m|] eqn:Hm.
  - inversion H; subst. destruct (IH m eq_refl) as (front & after & -> & Hlen & Ha).
    exists (String a front), after. rewrite append_cons. simpl.
    rewrite Hlen. auto.
  - destruct (Ascii.eqb_spec a c) as [->|Hne]; [|discriminate].
    inversion H; subst. exists "", s. auto.
Qed.

Lemma last_index_app_some c s t k :
  last_index c t = Some k ->
  last_index c (s +:+ t) = Some (String.length s + k)%nat.
Proof.
  intros H. induction s as [|a s IH]; rewrite ?append_nil, ?append_cons; simpl.
  - assumption.
  - now rewrite IH.
Qed.

(** X13.  The text that [parse_command] decodes is the whole stripped
    reply, or a part of it that starts with the first opening brace, ends
    with the last closing brace, and leaves no brace of that kind outside;
    extracting again from the extracted text gives the same text. *)
Theorem json_text_shape (s : string) :
  (json_text s = s
   \/ exists before inside after,
       s = before +:+ "{" +:+ inside +:+ "}" +:+ after
       /\ str_find before "{" = -1
       /\ str_rfind after "}" = -1
       /\ json_text s = "{" +:+ inside +:+ "}")
  /\ json_text (json_text s) = json_text s.
Proof.
  assert (Hshape : json_text s = s
                   \/ exists before inside after,
                       s = before +:+ "{" +:+ inside +:+ "}" +:+ after
                       /\ str_find before "{" = -1
                       /\ str_rfind after "}" = -1
                       /\ json_text s = "{" +:+ inside +:+ "}").
  { unfold json_text at 1.
    destruct ((0 <=? str_find s "{") && (str_find s "{" <? str_rfind s "}" + 1))
      eqn:Hcond; [|now left].
    right. apply andb_prop in Hcond. destruct Hcond as [Hlo Hhi].
    apply Z.leb_le in Hlo. apply Z.ltb_lt in Hhi.
    unfold str_find, str_rfind in Hlo, Hhi.
    rewrite find_from_first_index in Hlo, Hhi.
    rewrite rfind_from_last_index in Hhi by lia.
    destruct (first_index "{" s) as [n|] eqn:Hn; [|lia].
    destruct (first_index_split _ _ _ Hn) as (before & rest & -> & Hlen & Hb).
    destruct (last_index "}" rest) as [k|] eqn:Hk.
    - destruct (last_index_split _ _ _ Hk) as (inside & after & -> & _ & Ha).
      exists before, inside, after.
      apply str_find_absent in Hb. apply str_rfind_absent in Ha.
      split; [reflexivity|]. split; [assumption|]. split; [assumption|].
      now apply json_text_span.
    - exfalso.
      rewrite last_index_app_none in Hhi by (simpl; now rewrite Hk).
      destruct (last_index "}" before) as [m|] eqn:Hm; [|lia].
      apply last_index_lt in Hm. lia. }
  split; [exact Hshape|].
  destruct Hshape as [Heq | (before & inside & after & _ & _ & _ & ->)].
  - now rewrite Heq.
  - apply (json_text_span "" inside ""); reflexivity.
Qed.


(** One run of [parse_command]: the completion call, then [None] or a
    validated object. *)
Lemma parse_command_run (command_text : string) (w : world Env) :
  exists parsed_data e',
    parse_command command_text w
    = (Return parsed_data, after_completion w command_text e')
    /\ (parsed_data = PNone \/ _validate_parsed_data parsed_data = true).
Proof.
  unfold parse_command, try_except, bind, complete, lift, ret, after_completion.
  destruct (chat_completion command_text (env w)) as [[content|e] e'].
  - exists (match py_strip content with
            | Return parsed_response =>
                match decode_and_validate parsed_response with
                | Return data => data
                | Raise _ => PNone
                end
            | Raise _ => PNone
            end), e'.
    destruct (py_strip content) as [parsed_response|e].
    + unfold decode_and_validate.
      destruct (json_loads (json_text parsed_response)) as [data|[]];
        try (split; [reflexivity | now left]).
      destruct (_validate_parsed_data data) eqn:Hvalid.
      * split; [reflexivity | now right].
      * split; [reflexivity | now left].
    + split; [reflexivity | now left].
  - exists PNone, e'. split; [reflexivity | now left].
Qed.

End ParserExtras.

(** ** The agent on the services of the repository *)

Section RepositoryAgent.
Import EntraIDAgent OpenAIService.
Context {Env : Type} {X : External Env}.


(** X16.  With the services of the repository, a command that is not a
    valid [create_app_registration] causes one outgoing call, the
    completion: no token is fetched and no Graph request is sent. *)
Theorem repository_non_create_traffic
    (command_text : string) (a : agent_world (world Env))
    (parsed_data : value) (w1 : world Env) :
  parse_command command_text (services_state a) = (Return parsed_data, w1) ->
  truthy parsed_data = false
  \/ getitem parsed_data (PStr "action") <> Return (PStr "create_app_registration") ->
  exists message,
    process_command command_text a
    = (Return (failure message),
       {| services_state := w1; calls := calls a ++ [ParseCommand command_text] |})
    /\ trace w1 = trace (services_state a) ++ [EvCompletion command_text]
    /\ token w1 = token (services_state a)
    /\ token_expires w1 = token_expires (services_state a).
Proof.
  intros Hparse Hother.
  destruct (dispatch_not_create (S := repository_services)
              command_text a parsed_data w1 Hparse Hother) as (r & Hd & Hr).
  destruct (process_command_of_dispatch _ _ _ _ Hd Hr) as (message & Hrun).
  exists message. split; [exact Hrun|].
  destruct (parse_command_run command_text (services_state a))
    as (parsed & e' & Hparse' & _).
  rewrite Hparse in Hparse'. inversion Hparse'; subst.
  unfold after_completion. auto.
Qed.
End RepositoryAgent.

(** ** Configuration and start *)

Section StartProperties.
Import Config.

Lemma missing_nil_iff (c : settings) :
  missing c = []
  <-> Forall (fun kv => truthy (as_value (snd kv)) = true) (required_vars c).
Proof.
  unfold missing. generalize (required_vars c). intros l.
  induction l as [|[k v] l IH]; simpl.
  - split; [constructor | reflexivity].
  - destruct (truthy (as_value v)) eqn:Hv; simpl.
    + rewrite IH. split; intros H; [now constructor | now inversion H].
    + split; [discriminate | intros H; inversion H; simpl in *; congruence].
Qed.

Lemma validate_config_missing (c : settings) :
  validate_config c = true <-> missing c = [].
Proof.
  unfold validate_config. simpl. destruct (missing c); simpl; split; congruence.
Qed.

Lemma validate_config_all_set (c : settings) :
  validate_config c = true
  <-> Forall (fun kv => truthy (as_value (snd kv)) = true) (required_vars c).
Proof. rewrite validate_config_missing. apply missing_nil_iff. Qed.

Lemma missing_in (c : settings) (name : string) :
  In name (missing c)
  <-> exists v, In (name, v) (required_vars c) /\ truthy (as_value v) = false.
Proof.
  unfold missing. rewrite in_map_iff. split.
  - intros ([k v] & <- & Hin). apply List.filter_In in Hin.
    destruct Hin as [Hin Hf]. exists v. split; [exact Hin|].
    simpl in Hf. now destruct (truthy (as_value v)).
  - intros (v & Hin & Hf). exists (name, v). split; [reflexivity|].
    apply List.filter_In. split; [exact Hin|]. simpl. now rewrite Hf.
Qed.

Lemma truthy_as_value (v : option string) :
  truthy (as_value v) = true <-> is_set v.
Proof.
  unfold is_set. destruct v as [s|]; simpl.
  - destruct (String.eqb_spec s "") as [->|Hne]; split.
    + discriminate.
    + intros (s' & Hs & Hne). inversion Hs; subst. contradiction.
    + eauto.
    + reflexivity.
  - split; [discriminate|]. intros (s & Hs & _). discriminate.
Qed.

(** X17.  [validate_config] accepts a configuration exactly when the
    tenant id, the client id, the client secret, and the endpoint, the key
    and the deployment of the completion service are all set and not
    empty.  The key vault URL plays no part in it.  The names it reports
    as missing are the names of the environment variables of those six
    that are unset or empty, and it rejects the configuration exactly when
    there is such a name. *)
Theorem validate_config_iff (c : settings) :
  (validate_config c = true
   <-> is_set (TENANT_ID c) /\ is_set (CLIENT_ID c) /\ is_set (CLIENT_SECRET c)
       /\ is_set (OPENAI_ENDPOINT c) /\ is_set (OPENAI_API_KEY c)
       /\ is_set (OPENAI_DEPLOYMENT c))
  /\ (forall url,
         validate_config
           {| TENANT_ID := TENANT_ID c; CLIENT_ID := CLIENT_ID c;
              CLIENT_SECRET := CLIENT_SECRET c;
              OPENAI_ENDPOINT := OPENAI_ENDPOINT c;
              OPENAI_API_KEY := OPENAI_API_KEY c;
              OPENAI_DEPLOYMENT := OPENAI_DEPLOYMENT c;
              KEYVAULT_URL := url |}
         = validate_config c)
  /\ (forall name,
         In name (missing c)
         <-> (name = "AZURE_TENANT_ID" /\ ~ is_set (TENANT_ID c))
             \/ (name = "AZURE_CLIENT_ID" /\ ~ is_set (CLIENT_ID c))
             \/ (name = "AZURE_CLIENT_SECRET" /\ ~ is_set (CLIENT_SECRET c))
             \/ (name = "AZURE_OPENAI_ENDPOINT" /\ ~ is_set (OPENAI_ENDPOINT c))
             \/ (name = "AZURE_OPENAI_API_KEY" /\ ~ is_set (OPENAI_API_KEY c))
             \/ (name = "AZURE_OPENAI_DEPLOYMENT"
                 /\ ~ is_set (OPENAI_DEPLOYMENT c)))
  /\ (validate_config c = false <-> missing c <> []).
Proof.
  split; [|split; [|split]].
  - rewrite validate_config_all_set. unfold required_vars.
    rewrite <- !truthy_as_value. split.
    + intros H.
      inversion H as [|? ? H1 T1]; subst. inversion T1 as [|? ? H2 T2]; subst.
      inversion T2 as [|? ? H3 T3]; subst. inversion T3 as [|? ? H4 T4]; subst.
      inversion T4 as [|? ? H5 T5]; subst. inversion T5 as [|? ? H6 _]; subst.
      simpl in H1, H2, H3, H4, H5, H6.
      split; [exact H1|]. split; [exact H2|]. split; [exact H3|].
      split; [exact H4|]. split; [exact H5 | exact H6].
    + intros (H1 & H2 & H3 & H4 & H5 & H6).
      constructor; [exact H1|]. constructor; [exact H2|].
      constructor; [exact H3|]. constructor; [exact H4|].
      constructor; [exact H5|]. constructor; [exact H6 | constructor].
  - intros url. reflexivity.
  - intros name. rewrite missing_in. unfold required_vars.
    assert (Hunset : forall v, truthy (as_value v) = false <-> ~ is_set v).
    { intros v. rewrite <- truthy_as_value.
      destruct (truthy (as_value v)); split; congruence. }
    split.
    + intros (v & Hin & Hf). apply Hunset in Hf. simpl in Hin.
      destruct Hin as [H|[H|[H|[H|[H|[H|[]]]]]]];
        injection H as <- <-.
      * left. auto.
      * right. left. auto.
      * do 2 right. left. auto.
      * do 3 right. left. auto.
      * do 4 right. left. auto.
      * do 5 right. auto.
    + intros [[-> H]|[[-> H]|[[-> H]|[[-> H]|[[-> H]|[-> H]]]]]];
        apply Hunset in H; eexists; (split; [|exact H]); simpl.
      * left. reflexivity.
      * right. left. reflexivity.
      * do 2 right. left. reflexivity.
      * do 3 right. left. reflexivity.
      * do 4 right. left. reflexivity.
      * do 5 right. left. reflexivity.
  - split.
    + intros Hf Hnil. apply validate_config_missing in Hnil. congruence.
    + intros Hne. apply not_true_is_false. intros Ht.
      apply validate_config_missing in Ht. contradiction.
Qed.

Lemma valid_config_secret (c : settings) :
  validate_config c = true ->
  get_credentials c
  = ClientSecretCredential (TENANT_ID c) (CLIENT_ID c) (CLIENT_SECRET c).
Proof.
  intros H. apply validate_config_all_set in H. unfold required_vars in H.
  inversion H as [|? ? Ht H1]; subst. inversion H1 as [|? ? Hi H2]; subst.
  inversion H2 as [|? ? Hs _]; subst. simpl in Ht, Hi, Hs.
  unfold get_credentials. simpl. now rewrite Ht, Hi, Hs.
Qed.

(** X18.  [get_credentials] falls back to the default credential chain
    exactly when the tenant, the client id or the client secret is unset
    or empty; with the three of them it asks for a client secret
    credential made of them, which is the case of every configuration that
    [validate_config] accepts. *)
Theorem get_credentials_choice (c : settings) :
  (get_credentials c = DefaultAzureCredential
   <-> (truthy (as_value (TENANT_ID c)) = false
        \/ truthy (as_value (CLIENT_ID c)) = false
        \/ truthy (as_value (CLIENT_SECRET c)) = false))
  /\ (get_credentials c <> DefaultAzureCredential ->
      get_credentials c
      = ClientSecretCredential (TENANT_ID c) (CLIENT_ID c) (CLIENT_SECRET c))
  /\ (validate_config c = true ->
      get_credentials c
      = ClientSecretCredential (TENANT_ID c) (CLIENT_ID c) (CLIENT_SECRET c)).
Proof.
  split; [|split].
  - unfold get_credentials. simpl.
    destruct (truthy (as_value (TENANT_ID c)));
      destruct (truthy (as_value (CLIENT_ID c)));
      destruct (truthy (as_value (CLIENT_SECRET c))); simpl;
      split; intros H; auto; try discriminate;
      destruct H as [H | [H | H]]; discriminate.
  - unfold get_credentials.
    destruct (forallb _ _); [reflexivity | intros H; now destruct H].
  - apply valid_config_secret.
Qed.

(** X19.  [EntraIDAgent()] raises [ValueError("Invalid configuration")]
    when [validate_config] rejects the configuration, before any service
    is built; an agent that was built has a client secret credential made
    from the configuration and a Graph client without a token. *)
Theorem init_checks_configuration
    {C Env : Type} (construct : credential -> outcome C) (c : settings) (e : Env) :
  (validate_config c = false ->
   EntraIDAgent.init construct c e = Raise (ValueError "Invalid configuration"))
  /\ (forall a,
         EntraIDAgent.init construct c e = Return a ->
         validate_config c = true
         /\ construct (ClientSecretCredential (TENANT_ID c) (CLIENT_ID c)
                                              (CLIENT_SECRET c))
            = Return (EntraIDAgent.agent_credential a)
         /\ EntraIDAgent.agent_world0 a = init_world e
         /\ token (EntraIDAgent.agent_world0 a) = None).
Proof.
  unfold EntraIDAgent.init. split.
  - intros ->. reflexivity.
  - intros a. destruct (validate_config c) eqn:Hc; simpl; [|discriminate].
    rewrite (valid_config_secret _ Hc).
    destruct (construct _) as [cr|err]; simpl; [|discriminate].
    intros H. inversion H; subst. auto.
Qed.
End StartProperties.

(** ** The HTTP adapters *)

Section AdapterProperties.
Import EntraIDAgent.

Lemma in_adapters {W : Type}
    (handler : option (value -> M W value) -> outcome value -> M W http_reply) :
  In handler adapters -> handler = FunctionApp.process_command.
Proof. intros [<- | [<- | []]]; reflexivity. Qed.

Lemma succeeded_created app_name app_client_id app_id sp_id client_secret :
  succeeded (created app_name app_client_id app_id sp_id client_secret).
Proof. exists (PBool true). split; reflexivity. Qed.

Lemma not_succeeded_failure message : ~ succeeded (failure message).
Proof. intros (success & H & Ht). inversion H; subst. discriminate. Qed.

(** X21.  A handler always answers, whatever the agent and the request
    do: it never raises, the status of its reply is 200, 400 or 500, the
    status is 200 exactly when the body is an envelope whose ["success"]
    is true, and a reply with status 500 carries a failure envelope. *)
Theorem handler_always_replies {W : Type}
    (handler : option (value -> M W value) -> outcome value -> M W http_reply)
    (agent : option (value -> M W value)) (get_json : outcome value) (w : W) :
  In handler adapters ->
  exists reply w',
    handler agent get_json w = (Return reply, w')
    /\ (reply_status reply = 200 \/ reply_status reply = 400
        \/ reply_status reply = 500)
    /\ (reply_status reply = 200 <-> succeeded (reply_body reply))
    /\ (reply_status reply = 500 ->
        exists message, reply_body reply = failure message).
Proof.
  intros Hin. rewrite (in_adapters _ Hin). clear Hin handler.
  assert (Hfail : forall message status (w' : W),
             status <> 200 ->
             exists reply w'',
               (Return {| reply_status := status; reply_body := failure message |}, w')
               = (Return reply, w'')
               /\ (status = 200 \/ status = 400 \/ status = 500 ->
                   (reply_status reply = 200 \/ reply_status reply = 400
                    \/ reply_status reply = 500))
               /\ (reply_status reply = 200 <-> succeeded (reply_body reply))
               /\ (reply_status reply = 500 ->
                   exists message, reply_body reply = failure message)).
  { intros message status w' Hs. eexists _, _. split; [reflexivity|]. simpl.
    split; [auto|]. split; [|eauto]. split; [contradiction|].
    intros H. now apply not_succeeded_failure in H. }
  unfold FunctionApp.process_command. destruct agent as [f|].
  - unfold try_except, bind, lift.
    destruct get_json as [req_body|e]; simpl.
    + destruct (dict_get req_body "command" PNone) as [command|e] eqn:Hc; simpl.
      * destruct (truthy command); simpl.
        -- destruct (f command w) as [[result|e] w'] eqn:Hf; simpl.
           ++ destruct (dict_get result "success" (PBool false))
                as [success|e] eqn:Hs; simpl.
              ** eexists _, _. split; [reflexivity|]. simpl.
                 destruct (truthy success) eqn:Ht.
                 --- split; [auto|]. split; [|discriminate].
                     split; [|reflexivity]. intros _. exists success. auto.
                 --- split; [auto|]. split; [|discriminate].
                     split; [discriminate|].
                     intros (success' & Hs' & Ht'). congruence.
              ** edestruct (Hfail ("Error processing request: " +:+ str_exn e)
                              500 w') as (reply & w'' & H1 & H2 & H3);
                   [discriminate|].
                 exists reply, w''. split; [exact H1|]. split; [|exact H3]. auto.
           ++ edestruct (Hfail ("Error processing request: " +:+ str_exn e)
                           500 w') as (reply & w'' & H1 & H2 & H3);
                [discriminate|].
              exists reply, w''. split; [exact H1|]. split; [|exact H3]. auto.
        -- edestruct (Hfail
                        "No command provided. Please include a 'command' field in the request body."
                        400 w) as (reply & w'' & H1 & H2 & H3);
             [discriminate|].
           exists reply, w''. split; [exact H1|]. split; [|exact H3]. auto.
      * edestruct (Hfail ("Error processing request: " +:+ str_exn e) 500 w)
          as (reply & w'' & H1 & H2 & H3); [discriminate|].
        exists reply, w''. split; [exact H1|]. split; [|exact H3]. auto.
    + edestruct (Hfail ("Error processing request: " +:+ str_exn e) 500 w)
        as (reply & w'' & H1 & H2 & H3); [discriminate|].
      exists reply, w''. split; [exact H1|]. split; [|exact H3]. auto.
  - edestruct (Hfail "Agent not initialized. Check logs for details." 500 w)
      as (reply & w'' & H1 & H2 & H3); [discriminate|].
    exists reply, w''. split; [exact H1|]. split; [|exact H3]. auto.
Qed.



(** X24.  With the orchestrator behind it, a handler answers a request
    whose ["command"] is a string that is not empty with status 200 or
    400, never 500: the body of the reply is the envelope that
    [EntraIDAgent.process_command] returns, the status is 200 when the
    plan was completed and 400 when the envelope is a failure, and the
    state is the one the orchestrator leaves. *)
Theorem handler_with_orchestrator {W : Type} {S : Services W}
    (handler : option (value -> M (agent_world W) value) -> outcome value
               -> M (agent_world W) http_reply)
    (method : value -> M (agent_world W) value)
    (req_body : value) (command_text : string) (a : agent_world W) :
  In handler adapters ->
  (forall a0, method (PStr command_text) a0 = process_command command_text a0) ->
  dict_get req_body "command" PNone = Return (PStr command_text) ->
  command_text <> "" ->
  exists envelope a' status,
    process_command command_text a = (Return envelope, a')
    /\ handler (Some method) (Return req_body) a
       = (Return {| reply_status := status; reply_body := envelope |}, a')
    /\ ((status = 200
         /\ exists app_name app_client_id app_id sp_id client_secret,
             envelope = created app_name app_client_id app_id sp_id client_secret)
        \/ (status = 400 /\ exists message, envelope = failure message)).
Proof.
  intros Hin Hmethod Hcommand Hne. rewrite (in_adapters _ Hin).
  assert (Ht : truthy (PStr command_text) = true).
  { simpl. destruct (String.eqb_spec command_text ""); [contradiction|reflexivity]. }
  assert (Hp : exists envelope a',
             process_command command_text a = (Return envelope, a')
             /\ is_envelope envelope).
  { unfold process_command, try_except.
    destruct (dispatch command_text a) as [[v|e] a'] eqn:Hd.
    - exists v, a'. split; [reflexivity|]. eapply dispatch_returns; eauto.
    - exists (rejected e), a'. split; [reflexivity|]. right. eexists; reflexivity. }
  destruct Hp as (envelope & a' & Hp & Henv).
  unfold FunctionApp.process_command, try_except, bind, lift.
  rewrite Hcommand, Ht. simpl. rewrite Hmethod, Hp.
  destruct Henv as [(n & ci & i & sp & cs & ->) | (message & ->)].
  - exists (created n ci i sp cs), a', 200. split; [reflexivity|].
    split; [reflexivity|]. left. split; [reflexivity|]. eauto 6.
  - exists (failure message), a', 400. split; [reflexivity|].
    split; [reflexivity|]. right. split; [reflexivity|]. eauto.
Qed.
End AdapterProperties.

(** ** The command line *)

Section CliProperties.
Import Cli.

Lemma length_repeat_char c n : String.length (repeat_char c n) = n.
Proof. induction n as [|n IH]; simpl; [reflexivity | now rewrite IH]. Qed.

Lemma substring_all (s : string) (n : nat) :
  (String.length s <= n)%nat -> String.substring 0 n s = s.
Proof.
  revert n. induction s as [|a s IH]; intros n Hn; simpl.
  - now destruct n.
  - destruct n as [|n]; simpl in *; [lia|]. rewrite IH; [reflexivity | lia].
Qed.

Lemma substring_suffix (before s : string) (n : nat) :
  (String.length s <= n)%nat ->
  String.substring (String.length before) n (before +:+ s) = s.
Proof.
  intros Hn.
  induction before as [|a before IH]; rewrite ?append_nil, ?append_cons; simpl.
  - now apply substring_all.
  - exact IH.
Qed.

Lemma substring_head (s t : string) (n : nat) :
  n = String.length s -> String.substring 0 n (s +:+ t) = s.
Proof. intros ->. apply substring_prefix. Qed.

Lemma string_split (s : string) (n : nat) :
  (n <= String.length s)%nat ->
  exists head rest,
    s = head +:+ rest /\ String.length head = n
    /\ String.length rest = (String.length s - n)%nat.
Proof.
  revert s. induction n as [|n IH]; intros s Hn.
  - exists "", s. rewrite append_nil. simpl. split; [reflexivity|]. split; lia.
  - destruct s as [|a s]; simpl in Hn; [lia|].
    destruct (IH s) as (head & rest & -> & Hh & Hr); [lia|].
    exists (String a head), rest. rewrite append_cons. simpl.
    split; [reflexivity|]. split; [lia|]. rewrite string_length_app in *. lia.
Qed.

Lemma masked_value_app (head middle tail : string) :
  String.length head = 4%nat -> String.length tail = 4%nat ->
  masked_value (head +:+ middle +:+ tail)
  = head +:+ repeat_char "*" (String.length middle) +:+ tail.
Proof.
  intros Hh Ht. unfold masked_value, py_slice, str_times, slice_bound.
  rewrite !string_length_app, Hh, Ht.
  set (m := String.length middle).
  replace (4 <? 0) with false by reflexivity.
  replace (-4 <? 0) with true by reflexivity.
  replace (Z.to_nat (Z.min 4 (Z.of_nat (4 + (m + 4))) - 0)) with 4%nat by lia.
  replace (Z.to_nat (Z.of_nat (4 + (m + 4)) - 8)) with m by lia.
  replace (Z.to_nat (Z.max 0 (-4 + Z.of_nat (4 + (m + 4)))))
    with (String.length (head +:+ middle))
    by (rewrite string_length_app, Hh; fold m; lia).
  replace (Z.to_nat (Z.of_nat (4 + (m + 4))
                     - Z.max 0 (-4 + Z.of_nat (4 + (m + 4))))) with 4%nat by lia.
  change (Z.to_nat 0) with 0%nat.
  rewrite (substring_head head (middle +:+ tail) 4) by (now rewrite Hh).
  rewrite <- (string_app_assoc head middle tail).
  rewrite (substring_suffix (head +:+ middle) tail 4) by lia.
  reflexivity.
Qed.

(** X25.  A secret of eight characters or more is masked in place: its
    first four and its last four characters are printed as they are, and
    each character between them is replaced by one star, so the masked
    value has the length of the secret. *)
Theorem masked_value_long (value : string) :
  (8 <= String.length value)%nat ->
  exists head middle tail,
    value = head +:+ middle +:+ tail
    /\ String.length head = 4%nat /\ String.length tail = 4%nat
    /\ masked_value value
       = head +:+ repeat_char "*" (String.length middle) +:+ tail
    /\ String.length (masked_value value) = String.length value.
Proof.
  intros Hlen.
  destruct (string_split value 4) as (head & rest & -> & Hh & Hr); [lia|].
  destruct (string_split rest (String.length rest - 4))
    as (middle & tail & -> & Hm & Ht); [lia|].
  rewrite string_length_app in Hlen.
  assert (Ht4 : String.length tail = 4%nat).
  { rewrite Ht. rewrite string_length_app in *. lia. }
  exists head, middle, tail. split; [reflexivity|]. split; [exact Hh|].
  split; [exact Ht4|]. rewrite masked_value_app by assumption.
  split; [reflexivity|].
  now rewrite !string_length_app, length_repeat_char.
Qed.

(** X26.  A secret shorter than eight characters is not masked at all: no
    star is printed, a secret of at most four characters is printed twice
    in full, and one of five to seven characters is printed as its first
    four characters followed by its last four, from which the secret is
    read back. *)
Theorem masked_value_short (value : string) :
  (String.length value < 8)%nat ->
  masked_value value
  = py_slice value None (Some 4) +:+ py_slice value (Some (-4)) None
  /\ ((String.length value <= 4)%nat -> masked_value value = value +:+ value)
  /\ ((4 <= String.length value)%nat ->
      String.length (masked_value value) = 8%nat
      /\ value
         = String.substring 0 (String.length value - 4) (masked_value value)
           +:+ String.substring 4 4 (masked_value value)).
Proof.
  intros Hlen.
  destruct value as [|c1 [|c2 [|c3 [|c4 [|c5 [|c6 [|c7 [|c8 value]]]]]]]];
    simpl in Hlen; try lia;
    (split; [reflexivity|]; split; [intros H; simpl in H; try lia; reflexivity|];
     intros H; simpl in H; try lia; split; reflexivity).
Qed.
End CliProperties.

(** ** The requests of a creation *)

Section RepositoryPlan.
Import EntraIDAgent GraphService.
Context {Env : Type} {X : External Env}.

Lemma invoke_state {W : Type} (c : call) (m : M W value) (a a' : agent_world W) r :
  invoke c m a = (r, a') -> m (services_state a) = (r, services_state a').
Proof.
  unfold invoke. destruct (m (services_state a)) as [r0 w0].
  intros H. now inversion H.
Qed.

Lemma now_trace (w w' : world Env) r :
  now w = (r, w') -> trace w' = trace w.
Proof.
  unfold now. destruct (datetime_now (env w)) as [n e']. intros H. now inversion H.
Qed.

Lemma create_client_secret_sent app_id display_name (w w' : world Env) v :
  create_client_secret app_id display_name w = (Return v, w') ->
  map fst (sent (trace w'))
  = map fst (sent (trace w))
    ++ [("POST", base_url +:+ "/applications/" +:+ py_str app_id +:+ "/addPassword")].
Proof.
  unfold create_client_secret. intros H.
  apply bind_returns in H. destruct H as (n & w0 & Hnow & H).
  apply bind_returns in H. destruct H as (end_date & w1 & Hend & H).
  apply lift_returns in Hend. destruct Hend as [_ ->].
  apply now_trace in Hnow. apply _make_request_sent in H.
  rewrite H, Hnow, map_app. reflexivity.
Qed.

(** X27.  The requests of a creation that succeeded, on the services of
    the repository: the application, then its secret, then, if and only if
    permissions were requested, the two reads and the update of the merge,
    then the service principal; nothing else is sent, and nothing is sent
    twice. *)
Theorem repository_plan_requests
    (app_name permissions description : value)
    (a a' : agent_world (world Env)) (envelope : value) :
  _create_app_registration app_name permissions description a
    = (Return envelope, a') ->
  getitem envelope (PStr "success") = Return (PBool true) ->
  exists data app_id,
    getitem envelope (PStr "data") = Return data
    /\ getitem data (PStr "objectId") = Return app_id
    /\ map fst (sent (trace (services_state a')))
       = map fst (sent (trace (services_state a)))
         ++ plan_endpoints permissions app_id.
Proof.
  unfold _create_app_registration, try_except. intros H Hsuccess.
  destruct (create_plan app_name permissions description a) as [[v|e] a1] eqn:Hplan.
  2: { unfold ret in H. inversion H; subst. discriminate Hsuccess. }
  inversion H; subst v a1. clear H Hsuccess.
  unfold create_plan in Hplan.
  apply bind_returns in Hplan. destruct Hplan as (app & a1 & Happ & H).
  apply invoke_state in Happ. simpl in Happ.
  unfold create_app_registration in Happ. apply _make_request_sent in Happ.
  apply bind_returns in H. destruct H as (app_id & a2 & Hid & H).
  apply lift_cases in Hid. destruct Hid as [_ ->].
  apply bind_returns in H. destruct H as (app_client_id & a2 & Hcid & H).
  apply lift_cases in Hcid. destruct Hcid as [_ ->].
  apply bind_returns in H. destruct H as (secret & a2 & Hsecret & H).
  apply invoke_state in Hsecret. simpl in Hsecret.
  apply create_client_secret_sent in Hsecret.
  apply bind_returns in H. destruct H as (text & a3 & Htext & H).
  apply lift_cases in Htext. destruct Htext as [_ ->].
  apply bind_returns in H. destruct H as (secret_id & a3 & Hsid & H).
  apply lift_cases in Hsid. destruct Hsid as [_ ->].
  apply bind_returns in H. destruct H as (merged & a3 & Hmerge & H).
  assert (Hm : map fst (sent (trace (services_state a3)))
               = map fst (sent (trace (services_state a2)))
                 ++ (if truthy permissions
                     then [("GET", application_url app_id);
                           ("GET", base_url +:+ catalog_endpoint);
                           ("PATCH", application_url app_id)]
                     else [])).
  { destruct (truthy permissions) eqn:Htruthy.
    - apply invoke_state in Hmerge. simpl in Hmerge.
      apply (add_required_permissions_returns _ _ _ _ _ Htruthy) in Hmerge.
      destruct Hmerge as (? & ? & ? & ? & ? & ? & _ & _ & _ & _ & Hs).
      rewrite Hs, map_app. reflexivity.
    - unfold ret in Hmerge. inversion Hmerge; subst. now rewrite app_nil_r. }
  apply bind_returns in H. destruct H as (sp & a4 & Hsp & H).
  apply invoke_state in Hsp. simpl in Hsp.
  unfold create_service_principal in Hsp. apply _make_request_sent in Hsp.
  apply bind_returns in H. destruct H as (sp_id & a5 & Hspid & H).
  apply lift_cases in Hspid. destruct Hspid as [_ ->].
  unfold ret in H. inversion H; subst envelope a'. clear H.
  eexists _, app_id. split; [reflexivity|]. split; [reflexivity|].
  rewrite Hsp, map_app, Hm, Hsecret, Happ, map_app.
  unfold plan_endpoints. cbn [map fst]. now rewrite <- !app_assoc.
Qed.
End RepositoryPlan.

(* ===================================================================== *)
(** * Part III: the properties on the stub provider                      *)
(* ===================================================================== *)

Section OnTheStub.
Import EntraIDAgent GraphService OpenAIService.

Lemma create_app_registration_success_witness :
  exists envelope data a',
    _create_app_registration (PStr "Foo") (PList [PStr "Sites.Read.All"])
                             (PStr "desc") (Stub.start Stub.tenant)
    = (Return envelope, a')
    /\ getitem envelope (PStr "success") = Return (PBool true)
    /\ getitem envelope (PStr "data") = Return data
    /\ getitem data (PStr "applicationId") = Return (PStr "client-1")
    /\ getitem data (PStr "objectId") = Return (PStr "obj-1")
    /\ getitem data (PStr "servicePrincipalId") = Return (PStr "sp-1")
    /\ getitem data (PStr "clientSecret") = Return (PStr "s3cr3t").
Proof.
  edestruct (create_app_registration_success
               (PStr "Foo") (PList [PStr "Sites.Read.All"]) (PStr "desc")
               (Stub.start Stub.tenant))
    as (envelope & data & a' & Hrun & Hsuccess & _ & Hdata & Hc & Ho & Hs & Hk & _).
  - vm_compute. reflexivity.
  - reflexivity.
  - reflexivity.
  - vm_compute. reflexivity.
  - reflexivity.
  - reflexivity.
  - simpl. eexists. vm_compute. reflexivity.
  - vm_compute. reflexivity.
  - reflexivity.
  - exists envelope, data, a'. repeat split; assumption.
Defined.



Lemma parse_command_validation_witness :
  parse_command "x" (init_world (Stub.tenant_replying Stub.actionless_text))
  = (Return PNone,
     after_completion (init_world (Stub.tenant_replying Stub.actionless_text))
                      "x" (Stub.tenant_replying Stub.actionless_text))
  /\ parse_command "x" (init_world (Stub.tenant_replying Stub.nameless_text))
     = (Return PNone,
        after_completion (init_world (Stub.tenant_replying Stub.nameless_text))
                         "x" (Stub.tenant_replying Stub.nameless_text))
  /\ parse_command "x" (init_world Stub.tenant)
     = (Return example_descriptor,
        after_completion (init_world Stub.tenant) "x" Stub.tenant).
Proof.
  split; [|split].
  - edestruct (parse_command_validation "x"
                 (init_world (Stub.tenant_replying Stub.actionless_text)))
      as (H & _ & _); [reflexivity | vm_compute; reflexivity |].
    apply H. reflexivity.
  - edestruct (parse_command_validation "x"
                 (init_world (Stub.tenant_replying Stub.nameless_text)))
      as (_ & H & _); [reflexivity | vm_compute; reflexivity |].
    apply H; reflexivity.
  - edestruct (parse_command_validation "x" (init_world Stub.tenant))
      as (_ & _ & H); [reflexivity | vm_compute; reflexivity |].
    eapply H; [reflexivity|]. intros _. eexists. reflexivity.
Defined.

Lemma token_cache_witness :
  exists w1 w2,
    _get_token (init_world Stub.tenant) = (Return "token-1", w1)
    /\ trace w1 = [EvGetToken graph_scope]
    /\ token_expires w1 = Some (0 + microseconds 3600 - microseconds 300)
    /\ _get_token w1 = (Return "token-1", w2)
    /\ trace w2 = trace w1.
Proof.
  destruct (token_cache (init_world Stub.tenant)) as (_ & _ & Hfetch & _).
  edestruct (Hfetch Stub.tenant {| tr_token := "token-1"; tr_expires_on := 3600 |})
    as (Hrun & _);
    [left; split; [left|]; reflexivity | reflexivity | reflexivity
    | vm_compute; reflexivity |].
  eexists _, _. split; [exact Hrun|]. split; [reflexivity|].
  split; [reflexivity|]. split.
  - match goal with
    | |- _get_token ?w = _ =>
        destruct (token_cache w) as (_ & Hreuse & _)
    end.
    apply Hreuse. eexists _, _.
    split; [reflexivity|]. split; [discriminate|]. split; [reflexivity|].
    split; [reflexivity|]. vm_compute. reflexivity.
  - reflexivity.
Defined.

(** C5.  The cached expiry is not five minutes before the expiry of the
    token.  [expires_on] is the instant at which the token expires, and
    the code adds it to the clock as if it were the time the token has
    left.  With a token fetched at 2024-01-01T00:00:00 that expires one
    hour later, the expiry that is cached is later than the one meant by
    the 54 years since 1970; at the next call, one day later, the token
    expired 23 hours ago and is returned from the cache, and nothing is
    fetched. *)
Theorem token_cache_outlives_token :
  exists w1 w2 tr cached n e2,
    credential_get_token graph_scope ClockStub.daily = (Return tr, ClockStub.daily)
    /\ expiry_instant tr = ClockStub.new_year + microseconds 3600
    /\ _get_token (init_world ClockStub.daily) = (Return (tr_token tr), w1)
    /\ trace w1 = [EvGetToken graph_scope]
    /\ token_expires w1 = Some cached
    /\ cached - (expiry_instant tr - microseconds 300)
       = ClockStub.new_year - unix_epoch
    /\ ClockStub.new_year - unix_epoch = microseconds (19723 * 86400)
    /\ datetime_now (env w1) = (n, e2)
    /\ n = ClockStub.new_year + microseconds 86400
    /\ expiry_instant tr < n < cached
    /\ _get_token w1 = (Return (tr_token tr), w2)
    /\ token w2 = Some (tr_token tr)
    /\ trace w2 = trace w1.
Proof.
  eexists _, _, _, _, _, _.
  split; [reflexivity|]. split; [reflexivity|].
  split; [vm_compute; reflexivity|]. split; [reflexivity|].
  split; [reflexivity|]. split; [reflexivity|]. split; [reflexivity|].
  split; [reflexivity|]. split; [reflexivity|].
  split; [vm_compute; split; reflexivity|].
  split; [vm_compute; reflexivity|]. split; reflexivity.
Qed.

(** A token that expires with the year 9999: the expiry to cache would be
    past [datetime.max], and the first call raises with the token in the
    cache and no expiry beside it. *)
Lemma lasting_token_overflows :
  exists w1,
    _get_token (init_world ClockStub.lasting)
    = (Raise (OverflowError "date value out of range"), w1)
    /\ token w1 = Some "token-1"
    /\ token_expires w1 = None
    /\ trace w1 = [EvGetToken graph_scope].
Proof. eexists. split; [vm_compute; reflexivity|]. repeat split. Qed.

(** A name without a dot is an application permission for the code, and
    is looked up among the roles: [openid], which the catalog has as a
    delegated scope, is not found. *)
Lemma dotless_permission_is_application :
  ~ (forall s, last_segment s <> "All" ->
               classify_permission (PStr s) = Return Delegated)
  /\ last_segment "openid" <> "All"
  /\ classify_permission (PStr "openid") = Return Application
  /\ find_permission_def Stub.catalog Delegated (PStr "openid")
     = Return (Stub.named "scope-openid" "openid")
  /\ process_permission Stub.catalog default_graph_access (PStr "openid")
     = Return default_graph_access.
Proof.
  split; [|repeat split; try reflexivity; vm_compute; discriminate].
  intros H. specialize (H "openid").
  assert (Hlast : last_segment "openid" <> "All") by (vm_compute; discriminate).
  specialize (H Hlast). vm_compute in H. discriminate.
Qed.

Lemma permission_classification_and_resolution_witness :
  classify_permission (PStr "User.Read") = Return Delegated
  /\ classify_permission (PStr "Sites.Read.All") = Return Application
  /\ exists catalog entries,
       dict_get Stub.catalog "oauth2PermissionScopes" (PList []) = Return catalog
       /\ py_iter catalog = Return entries
       /\ exists before after,
            entries = before ++ Stub.named "scope-user-read" "User.Read" :: after
            /\ other_names "User.Read" before.
Proof.
  destruct (permission_classification_and_resolution
              Stub.catalog default_graph_access "User.Read")
    as (Hclass & _ & _ & Hdelegated & _ & _ & _ & Hresolve).
  destruct (permission_classification_and_resolution
              Stub.catalog default_graph_access "Sites.Read.All")
    as (Hclass' & Happlication & _).
  split; [|split].
  - rewrite Hclass, Hdelegated;
      [reflexivity | reflexivity | vm_compute; discriminate].
  - rewrite Hclass', Happlication; reflexivity.
  - destruct (Hresolve (Stub.named "scope-user-read" "User.Read") eq_refl)
      as (catalog & entries & Hcat & Hentries
          & [[Hnone _] | (before & after & Heq & Hbefore & _)]).
    + discriminate.
    + exists catalog, entries. split; [exact Hcat|]. split; [exact Hentries|].
      exists before, after. split; assumption.
Defined.

Lemma merge_permissions_idempotent_witness :
  exists merged r1 w1 r2 w2,
    merge_permissions Stub.catalog (PList [Stub.sharepoint_access]) Stub.requested
    = Return merged
    /\ merge_permissions Stub.catalog merged Stub.requested = Return merged
    /\ add_required_permissions (PStr "obj-1") Stub.requested
                                 (init_world Stub.tenant) = (r1, w1)
    /\ Stub.stored_access (env w1) = merged
    /\ add_required_permissions (PStr "obj-1") Stub.requested w1 = (r2, w2)
    /\ Stub.stored_access (env w2) = merged.
Proof.
  eexists _, _, _, _, _. split; [|split].
  - vm_compute. reflexivity.
  - eapply (merge_permissions_idempotent (Env := Stub.provider) Stub.catalog
              (PList [Stub.sharepoint_access]) Stub.requested).
    vm_compute. reflexivity.
  - split; [vm_compute; reflexivity|]. split; [reflexivity|].
    split; [vm_compute; reflexivity|]. reflexivity.
Defined.



Lemma parse_command_json_extraction_witness :
  parse_command "create an app called Foo" (init_world Stub.tenant)
  = (Return example_descriptor,
     after_completion (init_world Stub.tenant) "create an app called Foo"
                      Stub.tenant).
Proof.
  destruct (@parse_command_json_extraction Stub.provider Stub.external)
    as (_ & _ & _ & H).
  apply H; reflexivity.
Defined.

Lemma add_required_permissions_frame_witness :
  exists r w' new,
    add_required_permissions (PStr "obj-1") Stub.requested (init_world Stub.tenant)
    = (r, w')
    /\ sent (trace w')
       = [("GET", application_url (PStr "obj-1"), PNone);
          ("GET", base_url +:+ catalog_endpoint, PNone);
          ("PATCH", application_url (PStr "obj-1"),
            PDict [("requiredResourceAccess", PList new)])]
    /\ new !! 0%nat = Some Stub.sharepoint_access.
Proof.
  edestruct (add_required_permissions_frame
               (PStr "obj-1") Stub.requested (init_world Stub.tenant))
    as [(reads & Hsent & Hreads)
       | (app & w1 & old & new & Happ & Hold & Hsent & _ & Hother & _)].
  - reflexivity.
  - vm_compute. reflexivity.
  - exfalso. vm_compute in Hsent. subst reads.
    inversion Hreads as [|? ? _ Hreads1]. inversion Hreads1 as [|? ? _ Hreads2].
    inversion Hreads2 as [|? ? Hpatch _]. discriminate Hpatch.
  - eexists _, _, new. split; [vm_compute; reflexivity|].
    split; [exact Hsent|].
    vm_compute in Happ. inversion Happ; subst app. clear Happ.
    vm_compute in Hold. inversion Hold; subst old. clear Hold.
    apply (Hother 0%nat); [reflexivity | vm_compute; discriminate].
Defined.
End OnTheStub.

Section OnTheStubs.
Import EntraIDAgent GraphService OpenAIService.

Lemma grant_admin_consent_true_witness :
  exists w' : world GrantStub.provider,
    grant_admin_consent (PStr "sp-1") (PList [PStr "p1"; PStr "p2"])
                        (init_world GrantStub.directory)
    = (Return (PBool true), w')
    /\ sent (trace w')
       = [grant_request (PStr "sp-1") (PStr "p1");
          grant_request (PStr "sp-1") (PStr "p2")].
Proof.
  eexists. split.
  - vm_compute. reflexivity.
  - apply (grant_admin_consent_true (PStr "sp-1") [PStr "p1"; PStr "p2"]
             (init_world GrantStub.directory)).
    vm_compute. reflexivity.
Defined.

Lemma grant_admin_consent_false_witness :
  exists (w' : world GrantStub.provider) before permission_id after,
    [PStr "p1"; PStr "p2"; PStr "p3"] = before ++ permission_id :: after
    /\ (sent (trace w')
        = sent (trace (init_world GrantStub.strict_directory))
          ++ map (grant_request (PStr "sp-1")) before
          ++ [grant_request (PStr "sp-1") permission_id]
        \/ sent (trace w')
           = sent (trace (init_world GrantStub.strict_directory))
             ++ map (grant_request (PStr "sp-1")) before).
Proof.
  eexists.
  apply (grant_admin_consent_false (PStr "sp-1")
           [PStr "p1"; PStr "p2"; PStr "p3"]
           (init_world GrantStub.strict_directory)).
  vm_compute. reflexivity.
Defined.

Lemma _make_request_accounting_witness :
  exists (w' : world Stub.provider) tok,
    token w' = Some tok
    /\ (trace w'
        = trace (init_world Stub.tenant)
          ++ [EvRequest (request_of tok "GET" "/applications/obj-1" PNone PNone)]
        \/ trace w'
           = trace (init_world Stub.tenant)
             ++ [EvGetToken graph_scope;
                 EvRequest (request_of tok "GET" "/applications/obj-1" PNone PNone)]).
Proof.
  eexists.
  edestruct (_make_request_accounting "GET" "/applications/obj-1" PNone PNone
               (init_world Stub.tenant))
    as [H | [(e & e0 & e1 & _ & _ & He & _)
            | (message & e0 & tr & e1 & n & e2 & _ & _ & _ & _ & He & _)]].
  - vm_compute. reflexivity.
  - exact H.
  - discriminate He.
  - discriminate He.
Defined.

Lemma _make_request_response_witness :
  exists message w',
    _make_request "GET" "/nowhere" PNone PNone (init_world Stub.tenant)
    = (Raise (HTTPError message), w').
Proof.
  eassert (Htok : _get_token (init_world Stub.tenant) = (Return "token-1", _))
    by (vm_compute; reflexivity).
  pose proof (_make_request_response "GET" "/nowhere" PNone PNone _ _ _ Htok)
    as H.
  cbv zeta in H. destruct H as [H _].
  edestruct H as [H400 _]; [vm_compute; reflexivity|].
  destruct H400 as (message & Hm); [simpl; lia|].
  eexists _, _. exact Hm.
Defined.

Lemma add_required_permissions_without_catalog_witness :
  exists w2,
    add_required_permissions (PStr "obj-1") (PList [PStr "User.Read"])
                             (init_world GrantStub.directory)
    = (Raise (IndexError "list index out of range"), w2).
Proof.
  eexists.
  edestruct (add_required_permissions_without_catalog
               (PStr "obj-1") (PList [PStr "User.Read"])
               (init_world GrantStub.directory)) as (_ & H & _).
  - reflexivity.
  - vm_compute. reflexivity.
  - vm_compute. reflexivity.
  - apply H. reflexivity.
Defined.

Lemma merge_permissions_adds_graph_entry_witness :
  exists added x,
    merge_permissions Stub.catalog (PList [Stub.sharepoint_access])
      (PList (map PStr ["User.Read"; "Files.Nope.All"; "User.Read"]))
    = Return (PList ([Stub.sharepoint_access]
                     ++ [PDict [("resourceAppId", PStr graph_api_id);
                                ("resourceAccess", PList added)]]))
    /\ In x added
    /\ has_id (PStr "scope-user-read") x = Return true
    /\ distinct_ids added.
Proof.
  edestruct (merge_permissions_adds_graph_entry Stub.catalog
               [Stub.sharepoint_access]) as [H _].
  - repeat constructor.
  - edestruct (H ["User.Read"; "Files.Nope.All"; "User.Read"])
      as (added & Hmerged & Hhas & _ & Hdistinct).
    + vm_compute. reflexivity.
    + edestruct (Hhas "User.Read") as (x & Hin & Hid).
      * left. reflexivity.
      * vm_compute. reflexivity.
      * reflexivity.
      * exists added, x. split; [|auto].
        rewrite <- Hmerged. vm_compute. reflexivity.
Defined.

Lemma process_permission_known_witness :
  exists ga',
    process_permission Stub.catalog default_graph_access (PStr "User.Read")
    = Return ga'
    /\ getitem ga' (PStr "resourceAccess")
       = Return (PList [PDict [("id", PStr "scope-user-read");
                               ("type", PStr "Scope")]]).
Proof.
  edestruct (process_permission_known Stub.catalog default_graph_access
               "User.Read" (Stub.named "scope-user-read" "User.Read")
               (PStr "scope-user-read") []) as [_ H].
  - vm_compute. reflexivity.
  - reflexivity.
  - reflexivity.
  - destruct H as (ga' & Hrun & Hlist & _); [constructor|].
    exists ga'. split; [exact Hrun | exact Hlist].
Defined.

Lemma distinct_ids_nil : distinct_ids [].
Proof. intros [|x before] e after permission_id Heq; discriminate. Qed.

Lemma process_permissions_distinct_ids_witness :
  exists ga' added,
    process_permissions Stub.catalog default_graph_access
      [PStr "User.Read"; PStr "User.Read"; PStr "Sites.Read.All"]
    = Return ga'
    /\ getitem ga' (PStr "resourceAccess") = Return (PList ([] ++ added))
    /\ distinct_ids ([] ++ added).
Proof.
  eexists.
  edestruct (process_permissions_distinct_ids Stub.catalog
               [PStr "User.Read"; PStr "User.Read"; PStr "Sites.Read.All"]
               default_graph_access) as (added & Hlist & Hd).
  - vm_compute. reflexivity.
  - reflexivity.
  - exact distinct_ids_nil.
  - exists added. split; [reflexivity|]. split; [exact Hlist | exact Hd].
Defined.


Lemma process_command_only_create_reaches_graph_witness :
  exists message,
    process_command (S := scripted_services
                            (PDict [("action", PStr "list_app_registrations")]))
                    "list the apps" {| services_state := tt; calls := [] |}
    = (Return (failure message),
       {| services_state := tt; calls := [] ++ [ParseCommand "list the apps"] |}).
Proof.
  apply (process_command_only_create_reaches_graph
           (S := scripted_services
                   (PDict [("action", PStr "list_app_registrations")]))
           "list the apps" {| services_state := tt; calls := [] |}
           (PDict [("action", PStr "list_app_registrations")]) tt).
  - reflexivity.
  - right. vm_compute. discriminate.
Defined.


Lemma repository_non_create_traffic_witness :
  exists message w1,
    process_command "x" (Stub.start (Stub.tenant_replying Stub.actionless_text))
    = (Return (failure message),
       {| services_state := w1; calls := [] ++ [ParseCommand "x"] |})
    /\ trace w1 = [] ++ [EvCompletion "x"]
    /\ token w1 = None
    /\ token_expires w1 = None.
Proof.
  edestruct (repository_non_create_traffic "x"
               (Stub.start (Stub.tenant_replying Stub.actionless_text)) PNone)
    as (message & H).
  - vm_compute. reflexivity.
  - left. reflexivity.
  - exists message. eexists. exact H.
Defined.

Lemma handler_always_replies_witness :
  exists reply a',
    LocalServer.process_command
      (Some (scripted_method (PDict [("action", PStr "delete_app_registration")])))
      (Return (PDict [("command", PStr "delete the app Foo")]))
      {| services_state := tt; calls := [] |}
    = (Return reply, a')
    /\ (reply_status reply = 200 \/ reply_status reply = 400
        \/ reply_status reply = 500)
    /\ (reply_status reply = 200 <-> succeeded (reply_body reply))
    /\ (reply_status reply = 500 ->
        exists message, reply_body reply = failure message).
Proof.
  apply (handler_always_replies LocalServer.process_command).
  right. left. reflexivity.
Defined.



Lemma handler_with_orchestrator_witness :
  exists envelope a' status,
    process_command (S := scripted_services
                            (PDict [("action", PStr "delete_app_registration")]))
                    "delete the app Foo" {| services_state := tt; calls := [] |}
    = (Return envelope, a')
    /\ LocalServer.process_command
         (Some (scripted_method (PDict [("action", PStr "delete_app_registration")])))
         (Return (PDict [("command", PStr "delete the app Foo")]))
         {| services_state := tt; calls := [] |}
       = (Return {| reply_status := status; reply_body := envelope |}, a')
    /\ ((status = 200
         /\ exists app_name app_client_id app_id sp_id client_secret,
             envelope = created app_name app_client_id app_id sp_id client_secret)
        \/ (status = 400 /\ exists message, envelope = failure message)).
Proof.
  apply (handler_with_orchestrator
           (S := scripted_services
                   (PDict [("action", PStr "delete_app_registration")]))
           LocalServer.process_command).
  - right. left. reflexivity.
  - reflexivity.
  - reflexivity.
  - discriminate.
Defined.

Lemma masked_value_long_witness :
  exists head middle tail,
    "s3cr3t-value-1" = head +:+ middle +:+ tail
    /\ String.length head = 4%nat /\ String.length tail = 4%nat
    /\ Cli.masked_value "s3cr3t-value-1"
       = head +:+ Cli.repeat_char "*" (String.length middle) +:+ tail
    /\ String.length (Cli.masked_value "s3cr3t-value-1")
       = String.length "s3cr3t-value-1".
Proof. apply (masked_value_long "s3cr3t-value-1"). simpl. lia. Defined.

Lemma masked_value_short_witness : Cli.masked_value "s3cr3t" = "s3crcr3t".
Proof.
  destruct (masked_value_short "s3cr3t") as (H & _); [simpl; lia|].
  rewrite H. reflexivity.
Defined.

Lemma repository_plan_requests_witness :
  exists (a' : agent_world (world Stub.provider)) data app_id,
    getitem data (PStr "objectId") = Return app_id
    /\ map fst (sent (trace (services_state a')))
       = map fst (sent (trace (services_state (Stub.start Stub.tenant))))
         ++ plan_endpoints Stub.requested app_id.
Proof.
  eexists.
  edestruct (repository_plan_requests (PStr "Foo") Stub.requested (PStr "desc")
               (Stub.start Stub.tenant)) as (data & app_id & _ & Hid & Hsent).
  - vm_compute. reflexivity.
  - reflexivity.
  - exists data, app_id. split; [exact Hid | exact Hsent].
Defined.
End OnTheStubs.
